(** * SudokuDLX: the main window's grid model, string format and solve facade

    A shallow embedding of [src/mainwindow.cpp].  A [QLineEdit] cell is
    represented by its text, the UI grid by the rows of cell texts, C++ [int]
    values by [Z], and an out-of-range [QList::at] by an explicit fault. *)

From Stdlib Require Import ZArith Ascii String List Bool Lia ZifyNat.
From stdpp Require Import base tactics option list.

Local Open Scope Z_scope.

(** ** Qt primitives used by the source *)

(** A [QString] is the list of its characters. *)
Abbreviation QString := (list ascii).

Definition qstr (s : string) : QString := list_ascii_of_string s.

#[global] Instance QChar_eq_dec : EqDecision ascii := Ascii.ascii_dec.

(** [QChar::digitValue]: the numeric value of a digit character, -1 for
    anything else (characters are taken in the ASCII range). *)
Definition digitValue (c : ascii) : Z :=
  let n := Z.of_nat (nat_of_ascii c) in
  if (48 <=? n) && (n <=? 57) then n - 48 else -1.

Definition digitChar (d : Z) : ascii := ascii_of_nat (Z.to_nat (48 + d)).

(** Decimal digits of a non-negative number, most significant first.  An
    [int] has at most ten of them. *)
Fixpoint number_digits (fuel : nat) (n : Z) (acc : QString) : QString :=
  match fuel with
  | O => acc
  | S fuel' =>
      let acc' := digitChar (n mod 10) :: acc in
      if n <? 10 then acc' else number_digits fuel' (n / 10) acc'
  end.

(** [QString::number(int)] in base ten. *)
Definition number (n : Z) : QString :=
  if n <? 0 then "-"%char :: number_digits 10 (- n) [] else number_digits 10 n [].

Definition INT_MIN : Z := - 2147483648.
Definition INT_MAX : Z := 2147483647.

Definition isSpace (c : ascii) : bool :=
  let n := nat_of_ascii c in
  ((9 <=? n) && (n <=? 13))%nat || (n =? 32)%nat.

Fixpoint dropSpaces (s : QString) : QString :=
  match s with
  | c :: s' => if isSpace c then dropSpaces s' else s
  | [] => []
  end.

(** [QString::trimmed]. *)
Definition trimmed (s : QString) : QString :=
  rev (dropSpaces (rev (dropSpaces s))).

Fixpoint digitsValue (s : QString) (acc : Z) : option Z :=
  match s with
  | [] => Some acc
  | c :: s' =>
      let d := digitValue c in
      if 0 <=? d then digitsValue s' (10 * acc + d) else None
  end.

(** [QString::toInt()] in base ten: surrounding white space is ignored, a
    sign is allowed, and 0 is returned when the conversion fails or the
    value does not fit an [int]. *)
Definition toInt (s : QString) : Z :=
  let t := trimmed s in
  let '(neg, ds) :=
    match t with
    | c :: r =>
        if Ascii.eqb c "-" then (true, r)
        else if Ascii.eqb c "+" then (false, r)
        else (false, t)
    | [] => (false, t)
    end in
  match ds with
  | [] => 0
  | _ :: _ =>
      match digitsValue ds 0 with
      | Some v =>
          let v' := if neg then - v else v in
          if (INT_MIN <=? v') && (v' <=? INT_MAX) then v' else 0
      | None => 0
      end
  end.

(** ** Faults

    [QList::at(i)] requires a valid index.  The only such accesses in the
    source have the shape [grid.at(i).at(j)]; an access with an invalid row or
    column index is recorded as [OutOfRange i j]. *)
Inductive Result (A : Type) : Type :=
  | Ok (a : A)
  | OutOfRange (i j : Z).
Arguments Ok {A} a.
Arguments OutOfRange {A} i j.

Definition bind {A B} (r : Result A) (k : A -> Result B) : Result B :=
  match r with
  | Ok a => k a
  | OutOfRange i j => OutOfRange i j
  end.

Notation "'do' x <- r ; k" := (bind r (fun x => k))
  (at level 10, x name, r at level 100, k at level 200).

Definition isOk {A} (r : Result A) : bool :=
  match r with Ok _ => true | OutOfRange _ _ => false end.

(** ** The grid held by the window *)

(** A cell is a [QLineEdit]; only its text matters here. *)
Abbreviation Cell := (list ascii).
Abbreviation UIGridRow := (list (list ascii)).
Abbreviation UIGrid := (list (list (list ascii))).

(** The solver's primitive grid. *)
Abbreviation GridRow := (list Z).
Abbreviation Grid := (list (list Z)).

Definition size {A} (l : list A) : Z := Z.of_nat (length l).

Definition inRange {A} (l : list A) (i : Z) : bool :=
  (0 <=? i) && (i <? size l).

(** ** UI input getters and setters *)

Definition cellValue (cell : Cell) : Z :=
  if decide (cell = []) then -1 else toInt cell.

(** The text a cell holds after [setCellValue(cell, value)]. *)
Definition setCellValue (value : Z) : Cell :=
  if value <? 1 then [] else number value.

(** [setCellValue(grid.at(i).at(j), value)] *)
Definition setCellAt (grid : UIGrid) (i j : Z) (value : Z) : Result UIGrid :=
  if inRange grid i then
    match grid !! Z.to_nat i with
    | Some row =>
        if inRange row j
        then Ok (<[Z.to_nat i := <[Z.to_nat j := setCellValue value]> row]> grid)
        else OutOfRange i j
    | None => OutOfRange i j
    end
  else OutOfRange i j.

Definition resetGrid (grid : UIGrid) : UIGrid :=
  map (map (fun _ : Cell => ([] : Cell))) grid.

(** ** Converters *)

Definition UIGridToGrid (grid : UIGrid) : Grid :=
  map (map cellValue) grid.

Fixpoint stringGridToUIGrid_from (gridStr : QString) (i j : Z) (grid : UIGrid)
  : Result UIGrid :=
  match gridStr with
  | [] => Ok grid
  | valueStr :: rest =>
      do grid' <- setCellAt grid i j (digitValue valueStr);
      if j + 1 >=? size grid
      then stringGridToUIGrid_from rest (i + 1) 0 grid'
      else stringGridToUIGrid_from rest i (j + 1) grid'
  end.

Definition stringGridToUIGrid (grid : UIGrid) (gridStr : QString) : Result UIGrid :=
  stringGridToUIGrid_from gridStr 0 0 grid.

(** The characters one cell contributes to the string. *)
Definition cellToString (cell : Cell) : QString :=
  let value := cellValue cell in
  if value <? 1 then qstr "." else number value.

Definition UIGridToStringGrid (grid : UIGrid) : QString :=
  concat (map (fun row => concat (map cellToString row)) grid).

(** The inner loop of [gridToUIGrid]: [j] runs over the row [sudoku.at(i)]. *)
Fixpoint gridToUIGrid_row (i j : Z) (sudokuRow : GridRow) (grid : UIGrid)
  : Result UIGrid :=
  match sudokuRow with
  | [] => Ok grid
  | v :: rest =>
      do grid' <- setCellAt grid i j v;
      gridToUIGrid_row i (j + 1) rest grid'
  end.

Fixpoint gridToUIGrid_rows (i : Z) (sudoku : Grid) (grid : UIGrid)
  : Result UIGrid :=
  match sudoku with
  | [] => Ok grid
  | sudokuRow :: rest =>
      do grid' <- gridToUIGrid_row i 0 sudokuRow grid;
      gridToUIGrid_rows (i + 1) rest grid'
  end.

Definition gridToUIGrid (grid : UIGrid) (sudoku : Grid) : Result UIGrid :=
  gridToUIGrid_rows 0 sudoku (resetGrid grid).

(** ** The window *)

Inductive Widget : Type := CellWidget | RegionFrame.

Record MainWindow : Type := mkMainWindow {
  grid : UIGrid;
  sudokuGridWidgets : list Widget;
  statusBar : QString
}.

Definition withGrid (w : MainWindow) (g : UIGrid) : MainWindow :=
  {| grid := g; sudokuGridWidgets := sudokuGridWidgets w; statusBar := statusBar w |}.

Definition showMessage (w : MainWindow) (msg : string) : MainWindow :=
  {| grid := grid w; sudokuGridWidgets := sudokuGridWidgets w; statusBar := qstr msg |}.

(** The window as constructed, before any grid is generated. *)
Definition newWindow : MainWindow :=
  {| grid := []; sudokuGridWidgets := []; statusBar := [] |}.

(** [for (int k = 0; k < n; ++k) body] *)
Fixpoint forLoop {S : Type} (n : nat) (body : Z -> S -> S) (s : S) : S :=
  match n with
  | O => s
  | Datatypes.S n' => body (Z.of_nat n') (forLoop n' body s)
  end.

(** [modf(sqrt(n), &intpart) != 0.0].  For an [int] the correctly rounded
    square root is an integer exactly when [n] is a perfect square (a
    non-square below 2^31 is further from every integer than a double's
    precision), and the square root of a negative number is a NaN, which
    differs from zero. *)
Definition sqrtHasFraction (n : Z) : bool :=
  negb (Z.sqrt n * Z.sqrt n =? n).

(** [grid[rowIndex].append(cell); sudokuGridWidgets.append(cell)] for a
    freshly created, empty cell.  [rowIndex] is below the number of rows
    wherever the source evaluates it. *)
Definition addCell (rowIndex : Z) (s : UIGrid * list Widget) : UIGrid * list Widget :=
  (alter (fun row => row ++ [[]]) (Z.to_nat rowIndex) s.1, s.2 ++ [CellWidget]).

Definition addFrame (s : UIGrid * list Widget) : UIGrid * list Widget :=
  (s.1, s.2 ++ [RegionFrame]).

(** The cosmetic part (cell size, fonts, validator, layout) is left out. *)
Definition generateGrid (w : MainWindow) (size : Z) : bool * MainWindow :=
  if size <? 4 then (false, w)
  else if sqrtHasFraction size then (false, w)
  else
    let cleared :=
      match sudokuGridWidgets w with
      | [] => (grid w, [])
      | _ :: _ => ([], [])
      end in
    let regionsPerRow := Z.sqrt size in
    let columnsInRegion := size / regionsPerRow in
    let rows := forLoop (Z.to_nat size) (fun _ s => (s.1 ++ [[]], s.2)) cleared in
    let built :=
      forLoop (Z.to_nat regionsPerRow) (fun si =>
        forLoop (Z.to_nat regionsPerRow) (fun sj s =>
          addFrame
            (forLoop (Z.to_nat columnsInRegion) (fun i =>
               forLoop (Z.to_nat columnsInRegion) (fun j =>
                 addCell (i + si * columnsInRegion))) s))) rows in
    (true, {| grid := built.1; sudokuGridWidgets := built.2; statusBar := statusBar w |}).

(** ** The solver seen from the window

    The class [DLX] is declared outside this file; the window uses its
    constructor, [solve()] and [solution()]. *)
Record DLX : Type := mkDLX {
  dlx_solve : Grid -> bool;
  dlx_solution : Grid -> Grid
}.

Inductive Verdict : Type := Passed | Wrong | Failed.

Record TestRun (double : Type) : Type := mkTestRun {
  verdict : Verdict;
  benchSum : double;
  allPassed : bool;
  window : MainWindow
}.
Arguments mkTestRun {double}.
Arguments verdict {double}.
Arguments benchSum {double}.
Arguments allPassed {double}.
Arguments window {double}.

Section Facade.
(** The solver, and the type of [double] with the one operation the
    harness uses.  The reading of the clock is an input: [elapsed] is the
    duration between [benchStart] and [benchEnd] in milliseconds. *)
Context (dlx : DLX).
Context {double : Type} (dzero : double) (dadd : double -> double -> double).

(** Returns [solved], the window and the caller's [bench] afterwards. *)
Definition solveGrid (w : MainWindow) (bench elapsed : double)
  : Result (bool * MainWindow * double) :=
  let sudoku := UIGridToGrid (grid w) in
  let solved := dlx_solve dlx sudoku in
  if solved then
    do g <- gridToUIGrid (grid w) (dlx_solution dlx sudoku);
    Ok (true, withGrid w g, elapsed)
  else Ok (false, w, bench).

Definition runTest (w : MainWindow) (test : QString * QString * QString)
    (benchSum0 : double) (allPassed0 : bool) (elapsed : double)
  : Result (TestRun double) :=
  let '(title, input, expected) := test in
  do g <- stringGridToUIGrid (grid w) input;
  do r <- solveGrid (withGrid w g) dzero elapsed;
  let '(solved, w', bench) := r in
  let benchSum1 := dadd benchSum0 bench in
  let noSolution := bool_decide (expected = qstr "none") in
  if (solved && negb noSolution) || (negb solved && noSolution) then
    let result := UIGridToStringGrid (grid w') in
    if bool_decide (result = expected) || bool_decide (expected = qstr "any")
       || noSolution
    then Ok (mkTestRun Passed benchSum1 allPassed0 w')
    else Ok (mkTestRun Wrong benchSum1 false w')
  else Ok (mkTestRun Failed benchSum1 false w').
End Facade.

(** ** Import

    [ok] and [text] are what the input dialog returned. *)
Definition on_pushButtonImport_clicked (w : MainWindow) (ok : bool) (text : QString)
  : Result MainWindow :=
  if ok && negb (bool_decide (text = [])) then
    let '(generated, w1) :=
      if bool_decide (size text <> size (grid w) * size (grid w)) then
        if negb (sqrtHasFraction (size text))
        then generateGrid w (Z.sqrt (size text))
        else (false, w)
      else (true, w) in
    if generated then
      do g <- stringGridToUIGrid (grid w1) text;
      Ok (showMessage (withGrid w1 g) "Imported!")
    else Ok (showMessage w1 "Invalid grid size! Only NxN grids supported.")
  else Ok (showMessage w "Failed to import! Wrong data.").

(** ** Slots and the rest of the window

    The functions of [mainwindow.cpp] that the converters and the solve
    facade above leave out: the slots, the cell size computed by
    [generateGrid], the self-tests and the constructor. *)

(** The writes of [onCellTextEdited] to one cell.  Both tests are made on
    the value read before either write. *)
Definition fixCell (n : Z) (cell : Cell) : Cell :=
  let value := cellValue cell in
  let cell1 := if value =? 0 then qstr "1" else cell in
  if value >? n then number n else cell1.

(** [text] is the text of the edited cell, which the grid already holds.
    [setText] does not emit [textEdited]. *)
Definition onCellTextEdited (w : MainWindow) (text : QString) : MainWindow :=
  let input := toInt text in
  if (input <? 1) || (input >? size (grid w))
  then withGrid w (map (map (fixCell (size (grid w)))) (grid w))
  else w.

Definition on_pushButtonReset_clicked (w : MainWindow) : MainWindow :=
  withGrid w (resetGrid (grid w)).

(** [ui->statusBar->showMessage] with a text built at run time. *)
Definition showText (w : MainWindow) (msg : QString) : MainWindow :=
  {| grid := grid w; sudokuGridWidgets := sudokuGridWidgets w; statusBar := msg |}.

(** The cell size that [generateGrid] computes for an accepted size, with
    the division of [int]s; [None] stands for a division by zero.
    [static_cast<int>(regionsPerRow / 2.0)] is the half of a non-negative
    [int], rounded down. *)
Definition cellSize (size : Z) : option Z :=
  let regionsPerRow := Z.sqrt size in
  let cellSize := 9 * 3 * 2 in
  if size <? 9 then Some (cellSize * regionsPerRow)
  else if size >? 9 then
    let divisor := regionsPerRow / 2 in
    if divisor =? 0 then None else Some (Z.quot cellSize divisor)
  else Some cellSize.

(** [grid[rowIndex].append(cell); sudokuGridWidgets.append(cell)] with the
    index checked: [operator[]] requires a valid index as [at] does.  An
    invalid one is recorded as [OutOfRange rowIndex 0]. *)
Definition addCellChecked (rowIndex : Z) (s : Result (UIGrid * list Widget))
  : Result (UIGrid * list Widget) :=
  do s' <- s;
  if inRange s'.1 rowIndex then Ok (addCell rowIndex s') else OutOfRange rowIndex 0.

(** [generateGrid] with every [grid[rowIndex]] checked. *)
Definition generateGridChecked (w : MainWindow) (size : Z) : Result (bool * MainWindow) :=
  if size <? 4 then Ok (false, w)
  else if sqrtHasFraction size then Ok (false, w)
  else
    let cleared :=
      match sudokuGridWidgets w with
      | [] => (grid w, [])
      | _ :: _ => ([], [])
      end in
    let regionsPerRow := Z.sqrt size in
    let columnsInRegion := size / regionsPerRow in
    let rows := forLoop (Z.to_nat size) (fun _ s => (s.1 ++ [[]], s.2)) cleared in
    do built <-
      forLoop (Z.to_nat regionsPerRow) (fun si =>
        forLoop (Z.to_nat regionsPerRow) (fun sj s =>
          do s' <- forLoop (Z.to_nat columnsInRegion) (fun i =>
                     forLoop (Z.to_nat columnsInRegion) (fun j =>
                       addCellChecked (i + si * columnsInRegion))) s;
          Ok (addFrame s'))) (Ok rows);
    Ok (true, {| grid := built.1; sudokuGridWidgets := built.2; statusBar := statusBar w |}).

(** The test vectors of [runTests] in the order they are appended: title,
    input and expected result.  The titles are only logged; they are given
    by their bytes. *)
Definition tests9x9 : list (QString * QString * QString) := [
  (qstr "Completed Puzzle",
   qstr "974236158638591742125487936316754289742918563589362417867125394253649871491873625",
   qstr "974236158638591742125487936316754289742918563589362417867125394253649871491873625");
  (qstr "Last Empty Square",
   qstr "2564891733746159829817234565932748617128.6549468591327635147298127958634849362715",
   qstr "256489173374615982981723456593274861712836549468591327635147298127958634849362715");
  (qstr "Naked Singles",
   qstr "3.542.81.4879.15.6.29.5637485.793.416132.8957.74.6528.2413.9.655.867.192.965124.8",
   qstr "365427819487931526129856374852793641613248957974165283241389765538674192796512438");
  (qstr "Hidden Singles",
   qstr "..2.3...8.....8....31.2.....6..5.27..1.....5.2.4.6..31....8.6.5.......13..531.4..",
   qstr "672435198549178362831629547368951274917243856254867931193784625486592713725316489");
  (qstr "Hard to Brute-Force",
   qstr "..............3.85..1.2.......5.7.....4...1...9.......5......73..2.1........4...9",
   qstr "987654321246173985351928746128537694634892157795461832519286473472319568863745219");
  (qstr "Hard 1",
   qstr "7.8...3.....6.1...5.........4.....263...8.......1...9..9.2....4....7.5...........",
   qstr "768942315934651278512738649147593826329486157856127493693215784481379562275864931");
  (qstr "Hard 2",
   qstr "7.8...3.....6.1...5.........4.....263...8.......1...9..9.2....4....7.5...........",
   qstr "768942315934651278512738649147593826329486157856127493693215784481379562275864931");
  (qstr "Hard 3",
   qstr "7.8...3.....2.1...5.........4.....263...8.......1...9..9.6....4....7.5...........",
   qstr "728946315934251678516738249147593826369482157852167493293615784481379562675824931");
  (qstr "Hard 4",
   qstr "3.7.4...........918........4.....7.....16.......25..........38..9....5...2.6.....",
   qstr "317849265245736891869512473456398712732164958981257634174925386693481527528673149");
  (qstr "Hard 5",
   qstr "5..7..6....38...........2..62.4............917............35.8.4.....1......9....",
   qstr "582743619963821547174956238621479853348562791795318426217635984439287165856194372");
  (qstr "Empty",
   qstr ".................................................................................",
   qstr "any");
  (qstr "Single Given",
   qstr "........................................1........................................",
   qstr "any");
  (qstr "Insufficient Givens",
   qstr "...........5....9...4....1.2....3.5....7.....438...2......9.....1.4...6..........",
   qstr "any");
  (qstr "Duplicate Given - Region",
   qstr "..9.7...5..21..9..1...28....7...5..1..851.....5....3.......3..68........21.....87",
   qstr "none");
  (qstr "Duplicate Given - Column",
   qstr "6.159.....9..1............4.7.314..6.24.....5..3....1...6.....3...9.2.4......16..",
   qstr "none");
  (qstr "Duplicate Given - Row",
   qstr ".4.1..35.............2.5......4.89..26.....12.5.3....7..4...16.6....7....1..8..2.",
   qstr "none");
  (qstr "Unsolvable Square",
   qstr "..9.287..8.6..4..5..3.....46.........2.71345.........23.....5..9..4..8.7..125.3..",
   qstr "none");
  (qstr "Unsolvable Region",
   qstr ".9.3....1....8..46......8..4.5.6..3...32756...6..1.9.4..1......58..2....2....7.6.",
   qstr "none");
  (qstr "Unsolvable Column",
   qstr "....41....6.....2...2......32.6.........5..417.......2......23..48......5.1..2...",
   qstr "none");
  (qstr "Unsolvable Row",
   qstr "9..1....4.14.3.8....3....9....7.8..18....3..........3..21....7...9.4.5..5...16..3",
   qstr "none");
  (qstr "Not Unique — 2 Solutions",
   qstr ".39...12....9.7...8..4.1..6.42...79...........91...54.5..1.9..3...8.5....14...87.",
   qstr "439658127156927384827431956342516798785294631691783542578149263263875419914362875");
  (qstr "Not Unique — 3 Solutions",
   qstr "..3.....6...98..2.9426..7..45...6............1.9.5.47.....25.4.6...785...........",
   qstr "783542196516987324942631758457296813238714965169853472891325647624178539375469281");
  (qstr "Not Unique — 4 Solutions",
   qstr "....9....6..4.7..8.4.812.3.7.......5..4...9..5..371..4.5..6..4.2.17.85.9.........",
   qstr "178693452623457198945812736762984315314526987589371624857169243231748569496235871");
  (qstr "Not Unique — 10 Solutions",
   qstr "59.....486.8...3.7...2.1.......4.....753.698.....9.......8.3...2.6...7.934.....65",
   qstr "592637148618459327437281596923748651175326984864195273759863412286514739341972865");
  (qstr "Not Unique — 125 Solutions",
   qstr "...3165..8..5..1...1.89724.9.1.85.2....9.1....4.263..1.5.....1.1..4.9..2..61.8...",
   qstr "294316578867524139513897246931785624682941753745263981459632817178459362326178495");
  (qstr "Golden Nugget [Extremely Hard]",
   qstr ".......39....1...5..3..58....8..9..6.7..2....1..4.......9..8.5..2....6..4..7.....",
   qstr "751864239892317465643295871238179546974526318165483927319648752527931684486752193")
].

Definition tests16x16 : list (QString * QString * QString) := [
  (qstr "Hard 1",
   qstr ".63B.EC..A..8....847..A6..B....9.....81.D.G...7E.......7..98...CF.D.....AC..2.......D.....E1..5.CE......6...GF.31A.9...B8G7.4..D2.E...45....69.F.7......E..A...5..94..6......D.....63..F79.5...A....E6.D.1...2.8...3G.FA56.......D.C...9...B1.6..2..B.5C9.....34",
   qstr "10631911121314721585416138475101461121116153299125215811634613101471114161511432710598126113346512711101513149281618152136934121116114751071416121281561054111393111109135161483724121562313147164511811069121515712161019821413634115519411136216153127108141110863141512794516113249141516673131121152108161313241011568791514121251181415139421031166762710812519161514131134");
  (qstr "Hard 2",
   qstr ".B.293.F..C.......7.B..5......C..9..C...247.F...EF..6....9B.3D..F...58G...........B3......2F1.7.....E...1.8..C.D...1...3.D...G..4.6...2.3..9A.8.12..G.86.F......A7....C...419.G......E..5....7437..........B.3.C.8...DF......E96.E.6...9......D8..G..7..C..4...A",
   qstr "61529310811121314415167144781513165101362911123916151112141247861013510111213627416951538141121011758116415931362148164310691412521311171596214131115711081651234513151241237614118161094561171621231415910181312394148613711101251516137141231051581641926111615810191311526121474371494165111368121531210118101614132151312574962316121549141110716135815121358761093164111412");
  (qstr "Hard 3",
   qstr "4...C7B...86....8.7G.A..E3..4D..6....9....1..A3.9......D...4..5FG..A.8F..B4.3....D3...AG..F..17...6..E....2.....7....B....5.E4...1E2A..4D.....8.C.5......A.76..D........329.F....8....65.....B.3.......E91.......B..G.8...A...C.5...F.....3C79E...GD.21.....5368",
   qstr "41011512732139861141516812711513516231114469106132144910815511611123791615361114171012481352159161328116127413510142538161441210111591317614610135715141623128119711141213910685131642153113214101541161612978510155169123841476111213146127816131132951510411189471265115131021614316386541279110214151311127193158135146111021645210151161614413387911213144111021916127155368");
  (qstr "Hard 4",
   qstr ".G4..........B8...E.2.8.1..7..5......B.F26..9..3B..DA....F.9..E.2....A1.....786G561.C..4...32......C......9F.5A.....G6.......9..F...51G..2......D8C....9..E..67..E....F.AD4.C..B...7...D8.......C..E69.B....51...98...E...3....D..G.735...A4F.....35...A...2..4.",
   qstr "10114612793131451516281912133216815141076115141614715105412681191213382511113146312169104157231610915113451214786115619168104117133214121541511814212761691035113713121436115151284916103169125178102116151314415821141039161314121675145613151216273418101191410713116148915512321612101546921614117135138698214131151531614710121311416735101286411159211735814151291012131646");
  (qstr "Hard 5",
   qstr ".EB....A..F18..5..A97........3C..5G...43..B....EC.1....F.A38....26.....1...4.F..5....2.....9...G.3.8.G.6C..F......E...D...5.B.A.E...B8...7.C.4...D.....4....35..B.5F.6.......C.749..A7.5.D.2.GF.8.7...E.6.G..A...G2B5.......4.9.....6....81.7..3.....C..2B.A..GD",
   qstr "37101121261314941815165151316975810116212134141458219431016131511761212416151116147538910132269781451151116412133105111316321578101296114410312841696113147521115114154121013113256169786231138141557111610412978141011112491561335216161251396102418314111574911151673512141021381681573141311264952161011111214537816121510469139104126152161381117145313166510411923714151281")
].

(** What [runTests] leaves: the verdict logged for each test, the sum of
    the benchmarks, [allPassed] and the window. *)
Record TestsRun (double : Type) : Type := mkTestsRun {
  verdicts : list Verdict;
  benchTotal : double;
  allPassedAll : bool;
  windowAfter : MainWindow
}.
Arguments mkTestsRun {double}.
Arguments verdicts {double}.
Arguments benchTotal {double}.
Arguments allPassedAll {double}.
Arguments windowAfter {double}.

Section Window.
(** The solver and the [double]s as for the facade; [clock k] is the
    duration measured by the call of [solveGrid] number [k], and [dnumber]
    is [QString::number(double)]. *)
Context (dlx : DLX).
Context {double : Type} (dzero : double) (dadd : double -> double -> double).
Context (clock : nat -> double) (dnumber : double -> QString).

(** [bench] is the value that the uninitialised [double bench] holds.  The
    solution logged with [qInfo] is left out. *)
Definition on_pushButtonSolve_clicked (w : MainWindow) (bench elapsed : double)
  : Result MainWindow :=
  do r <- solveGrid dlx w bench elapsed;
  let '(solved, w', bench') := r in
  if solved : bool
  then Ok (showText w' (qstr "Solved in " ++ dnumber bench' ++ qstr " milliseconds!"))
  else Ok (showMessage w' "No solution!").

(** [for (auto &test : tests) { runTest(test, benchSum, allPassed); resetGrid(); }] *)
Fixpoint runTestsLoop (tests : list (QString * QString * QString)) (k : nat)
    (w : MainWindow) (benchSum0 : double) (allPassed0 : bool) (log : list Verdict)
  : Result (TestsRun double) :=
  match tests with
  | [] => Ok (mkTestsRun log benchSum0 allPassed0 w)
  | test :: rest =>
      do r <- runTest dlx dzero dadd w test benchSum0 allPassed0 (clock k);
      runTestsLoop rest (S k) (withGrid (window r) (resetGrid (grid (window r))))
        (benchSum r) (allPassed r) (log ++ [verdict r])
  end.

(** The result of [generateGrid] is not looked at.  The messages are
    represented by the verdicts and by [allPassed]; the average printed at
    the end is left out. *)
Definition runTests (w : MainWindow) : Result (TestsRun double) :=
  let w9 := (generateGrid w 9).2 in
  do r9 <- runTestsLoop tests9x9 0 w9 dzero true [];
  let w16 := (generateGrid (windowAfter r9) 16).2 in
  runTestsLoop tests16x16 (length tests9x9) w16
    (benchTotal r9) (allPassedAll r9) (verdicts r9).

(** The constructor: the self-tests, then a 4x4 grid.  The boolean is the
    result of [generateGrid(4)]; [false] stands for the critical message. *)
Definition MainWindow_new : Result (bool * MainWindow) :=
  do r <- runTests newWindow;
  Ok (generateGrid (windowAfter r) 4).
End Window.

(** * Predicates and data used in the statements *)

Definition square {A} (n : nat) (g : list (list A)) : Prop :=
  length g = n /\ Forall (fun row => length row = n) g.

Definition cellAt {A} (g : list (list A)) (a b : nat) : option A :=
  match g !! a with
  | Some row => row !! b
  | None => None
  end.

(** What the character [c] leaves in a cell. *)
Definition loadChar (c : ascii) : Cell := setCellValue (digitValue c).

(** The write position of the loader: inside the grid, or just past its
    last cell. *)
Definition cursor (n : nat) (i j : Z) : Prop :=
  (0 <= i < Z.of_nat n /\ 0 <= j < Z.of_nat n) \/ (i = Z.of_nat n /\ j = 0).

Definition grid2x2 : UIGrid := [[qstr "1"; qstr "2"]; [qstr "2"; qstr "1"]].

Definition isDigit (c : ascii) : Prop := 0 <= digitValue c.

(** The one character that stands for a cell holding at most 9. *)
Definition cellChar (x : Cell) : ascii :=
  if cellValue x <? 1 then "."%char else digitChar (cellValue x).

(** A cell that is empty or holds a number between 1 and [m]. *)
Definition holdsUpTo (m : Z) (x : Cell) : Prop :=
  x = [] \/ 1 <= cellValue x <= m.

(** A cell whose text is exactly what [setCellValue] writes for its value. *)
Definition canonical (x : Cell) : Prop := x = setCellValue (cellValue x).

Definition validGrid (n : nat) (g : UIGrid) : Prop :=
  square n g /\ Forall (Forall (holdsUpTo (Z.of_nat n))) g.

Definition grid4x4 : UIGrid :=
  [[qstr "1"; []; qstr "3"; []];
   [[]; qstr "4"; []; qstr "2"];
   [qstr "2"; []; qstr "4"; []];
   [[]; qstr "3"; []; qstr "1"]].

(** A valid 16-by-16 grid with one cell holding 12. *)
Definition grid16wide : UIGrid :=
  <[0%nat := <[0%nat := qstr "12"]> (repeat [] 16%nat)]> (repeat (repeat [] 16%nat) 16%nat).

(** A 16-by-16 grid with the digits 1-9 on its first row. *)
Definition grid16narrow : UIGrid :=
  <[0%nat := map (fun c => [c]) (qstr "123456789") ++ repeat [] 7%nat]>
    (repeat (repeat [] 16%nat) 16%nat).

(** A solved 16-by-16 grid: row [r], column [c] holds
    [(4 * (r mod 4) + r / 4 + c) mod 16 + 1]. *)
Definition solved16 : UIGrid :=
  map (fun r => map (fun c => number (Z.of_nat ((4 * (r mod 4) + r / 4 + c) mod 16 + 1)))
                 (seq 0 16))
      (seq 0 16).

(** The window's lists go together: without widgets there are no rows. *)
Definition wellFormed (w : MainWindow) : Prop :=
  sudokuGridWidgets w = [] -> grid w = [].

(** [f r] empty cells appended to row [r]. *)
Definition extendBy (f : nat -> nat) (g : UIGrid) : UIGrid :=
  imap (fun r row => row ++ repeat [] (f r)) g.

(** A size [generateGrid] accepts. *)
Definition validSize (m : Z) : Prop := 4 <= m /\ exists r, r * r = m.

Definition msgImported : QString := qstr "Imported!".
Definition msgInvalidSize : QString := qstr "Invalid grid size! Only NxN grids supported.".
Definition msgFailed : QString := qstr "Failed to import! Wrong data.".

Definition window4 : MainWindow := (generateGrid newWindow 4).2.

(** A solver that answers the same whatever the grid. *)
Definition constDLX (solved : bool) (solution : Grid) : DLX :=
  {| dlx_solve := fun _ => solved; dlx_solution := fun _ => solution |}.

(** The rechecks the harness would need for an "any" case, on the values
    shown by the grid: no value twice in a row, and every given kept. *)
Definition rowsDistinct (g : Grid) : Prop := Forall (fun row => NoDup row) g.

Definition givensKept (given shown : Grid) : Prop :=
  forall a b v, cellAt given a b = Some v -> 1 <= v -> cellAt shown a b = Some v.

Definition ones4 : Grid := repeat (repeat 1 4%nat) 4%nat.

(** The character [UIGridToStringGrid] gives for a cell loaded from [c]. *)
Definition shownChar (c : ascii) : ascii :=
  if digitValue c <? 1 then "."%char else c.

(** The value [UIGridToGrid] reads from a cell written with [v]. *)
Definition shownValue (v : Z) : Z := if v <? 1 then -1 else v.

Definition isPassed (v : Verdict) : bool :=
  match v with Passed => true | _ => false end.

(** A solver whose solutions have the shape of the grid it was given. *)
Definition shapeKeeping (dlx : DLX) : Prop :=
  forall (n : nat) (G : Grid), square n G -> dlx_solve dlx G = true ->
    square n (dlx_solution dlx G).

(** The widgets of a generated grid: region by region, the cells of the
    region and then its frame. *)
Definition regionWidgets (size : nat) : list Widget :=
  concat (repeat (repeat CellWidget size ++ [RegionFrame]) size).

(** * The solver behind the facade

    The class [DLX] is part of the repository but not of [mainwindow.cpp].
    It is modelled here from sections 3 and 4.2-4.3 of the specification, at
    two levels.  First the active matrix that the pool holds: the uncovered
    column headers in the order of the root's ring, and the live candidate
    rows in insertion order, each with the columns of its horizontal ring;
    covering a column removes it and every row that intersects it, and
    uncovering is the return to the matrix before the cover, which the search
    keeps.  Then the toroidal node pool itself, with its links written in
    place. *)

(** Modelled from the spec: a candidate row of the exact-cover matrix of
    [DLX], with its id and the columns it touches. *)
Record Candidate : Type := mkCandidate { cid : Z; ccols : list Z }.

(** Modelled from the spec: the candidate id encoding of [DLX],
    [id = (r N + c) N + (d - 1)]. *)
Definition candidateId (N r c d : Z) : Z := (r * N + c) * N + (d - 1).

(** Modelled from the spec: the decoding by which [DLX] reconstructs
    [(r, c, d)] from an id. *)
Definition decodeCandidate (N id : Z) : Z * Z * Z :=
  (id / (N * N), (id / N) mod N, id mod N + 1).

(** Modelled from the spec: the box of a cell in [DLX],
    [(r / R) R + (c / R)]. *)
Definition boxOf (R r c : Z) : Z := (r / R) * R + c / R.

(** Modelled from the spec: the four constraint columns of a candidate in
    [DLX]: cell at offset 0, row-digit at N^2, column-digit at 2 N^2 and
    box-digit at 3 N^2. *)
Definition candidateColumns (N R r c d : Z) : list Z :=
  [r * N + c;
   N * N + (r * N + (d - 1));
   2 * (N * N) + (c * N + (d - 1));
   3 * (N * N) + (boxOf R r c * N + (d - 1))].

(** Modelled from the spec: the candidate [(r, c, d)] of [DLX]. *)
Definition candidate (N R r c d : Z) : Candidate :=
  mkCandidate (candidateId N r c d) (candidateColumns N R r c d).

(** Modelled from the spec: the cover-matrix builder of [DLX] for one cell.
    An empty cell emits one candidate per digit, a given its single one. *)
Definition cellCandidates (N R r c v : Z) : list Candidate :=
  if v =? 0 then map (candidate N R r c) (seqZ 1 N) else [candidate N R r c v].

(** Modelled from the spec: the cover-matrix builder of [DLX], rows outer,
    columns middle, digits inner. *)
Definition buildCandidates (G : Grid) : list Candidate :=
  let N := size G in
  let R := Z.sqrt N in
  concat (imap (fun r row =>
    concat (imap (fun c v => cellCandidates N R (Z.of_nat r) (Z.of_nat c) v) row)) G).

(** Modelled from the spec: the active matrix of [DLX]. *)
Record Matrix : Type := mkMatrix { headers : list Z; live : list Candidate }.

(** Modelled from the spec: whether a row of [DLX] has a node in column
    [h]. *)
Definition touches (h : Z) (r : Candidate) : bool := existsb (Z.eqb h) (ccols r).

(** Modelled from the spec: the rows met walking down from the header [h]
    in [DLX]. *)
Definition rowsOf (M : Matrix) (h : Z) : list Candidate :=
  filter (fun r => touches h r = true) (live M).

(** Modelled from the spec: the [size] of a column header of [DLX]. *)
Definition colSize (M : Matrix) (h : Z) : nat := length (rowsOf M h).

(** Modelled from the spec: [cover(h)] of [DLX], the removal of a column and
    of every row intersecting it from the active matrix. *)
Definition cover (h : Z) (M : Matrix) : Matrix :=
  mkMatrix (filter (fun k => k <> h) (headers M))
           (filter (fun r => touches h r = false) (live M)).

(** Modelled from the spec: the column choice of [DLX], the column of
    minimum size, the first one met from the root on a tie. *)
Fixpoint chooseColumn_from (M : Matrix) (best : Z) (bestSize : nat) (hs : list Z) : Z :=
  match hs with
  | [] => best
  | h :: hs' =>
      if (colSize M h <? bestSize)%nat
      then chooseColumn_from M h (colSize M h) hs'
      else chooseColumn_from M best bestSize hs'
  end.

(** Modelled from the spec: the columns met in [DLX] walking right from the
    node that a row has in column [h]. *)
Fixpoint ringAfter (h : Z) (before cols : list Z) : list Z :=
  match cols with
  | [] => rev before
  | k :: rest => if k =? h then rest ++ rev before else ringAfter h (k :: before) rest
  end.

(** Modelled from the spec: the covers of [DLX] for a chosen row,
    [cover(h)], then [cover(j.col)] for each [j] walking right from [r]. *)
Definition coverRow (M : Matrix) (h : Z) (r : Candidate) : Matrix :=
  fold_left (fun M k => cover k M) (ringAfter h [] (ccols r)) (cover h M).

(** Modelled from the spec: the loop of [DLX] over the rows of the chosen
    column, which stops at the first row on which the search succeeds. *)
Fixpoint tryRows {A} (attempt : Candidate -> option A) (rs : list Candidate)
  : option (Candidate * A) :=
  match rs with
  | [] => None
  | r :: rs' =>
      match attempt r with
      | Some x => Some (r, x)
      | None => tryRows attempt rs'
      end
  end.

(** Modelled from the spec: [search()] of [DLX].  The result is [Some] of
    the chosen candidate ids in the order they were pushed for FOUND, and
    [None] for NOT_FOUND.  Every call covers a column, so the depth never
    exceeds the number of columns; [fuel] bounds it. *)
Fixpoint search (fuel : nat) (M : Matrix) : option (list Z) :=
  match fuel with
  | O => None
  | S fuel' =>
      match headers M with
      | [] => Some []
      | h0 :: hs =>
          let h := chooseColumn_from M h0 (colSize M h0) hs in
          if (colSize M h =? 0)%nat then None
          else
            match tryRows (fun r => search fuel' (coverRow M h r)) (rowsOf M h) with
            | Some (r, sol) => Some (cid r :: sol)
            | None => None
            end
      end
  end.

(** Modelled from the spec: [set(r, c, v)] of the grid model used by
    [DLX]. *)
Definition writeCell (G : Grid) (r c d : Z) : Grid :=
  if (0 <=? r) && (0 <=? c)
  then alter (fun row => <[Z.to_nat c := d]> row) (Z.to_nat r) G
  else G.

(** Modelled from the spec: the fresh grid into which [DLX] writes a
    solution. *)
Definition emptyGrid (N : Z) : Grid := repeat (repeat 0 (Z.to_nat N)) (Z.to_nat N).

(** Modelled from the spec: the solution extraction of [DLX], each pushed
    id decoded and written to the grid. *)
Definition decodeInto (N : Z) (sol : list Z) (G : Grid) : Grid :=
  fold_left (fun g id => let '(r, c, d) := decodeCandidate N id in writeCell g r c d) sol G.

(** Modelled from the spec: the matrix [DLX] builds, with all 4 N^2 column
    headers in the root's ring and the candidates of the grid. *)
Definition initialMatrix (G : Grid) : Matrix :=
  mkMatrix (seqZ 0 (4 * (size G * size G))) (buildCandidates G).

(** Modelled from the spec: the solve entry point of [DLX]. *)
Definition solve (G : Grid) : option Grid :=
  let M := initialMatrix G in
  match search (S (length (headers M))) M with
  | Some sol => Some (decodeInto (size G) sol (emptyGrid (size G)))
  | None => None
  end.

(** ** The node pool

    Section 3 of the specification describes the matrix of [DLX] as a
    toroidal doubly-linked node pool, and section 4.3 gives its build, its
    cover and uncover and its search on the links.  The definitions below
    follow that text: the pool is one array of fixed-layout records, with
    indices in the link fields, index 0 for the root, indices 1..C for the
    headers of the C columns, and four body nodes per candidate after them.
    The active matrix above is what such a pool holds; the two solvers are
    proved to return the same result. *)

(** Modelled from the spec: a node of the pool of [DLX], with its links
    [L], [R], [U], [D], its header back-pointer [col], its candidate id
    [row] (-1 for the root and the headers) and, for a header, its [size]. *)
Record Node : Type := mkNode {
  nL : nat; nR : nat; nU : nat; nD : nat; ncol : nat; nrow : Z; nsize : nat
}.

(** Modelled from the spec: the node pool of [DLX], a single array. *)
Abbreviation Pool := (list Node).

(** Modelled from the spec: the fields of a node of [DLX] that the build and
    the search write. *)
Inductive Field : Type := FL | FR | FU | FD | FSize.

#[global] Instance Field_eq_dec : EqDecision Field.
Proof. solve_decision. Defined.

(** Modelled from the spec: a field of a node record of [DLX], read. *)
Definition getF (f : Field) (x : Node) : nat :=
  match f with
  | FL => nL x | FR => nR x | FU => nU x | FD => nD x | FSize => nsize x
  end.

(** Modelled from the spec: a field of a node record of [DLX], written. *)
Definition setF (f : Field) (v : nat) (x : Node) : Node :=
  match f with
  | FL => mkNode v (nR x) (nU x) (nD x) (ncol x) (nrow x) (nsize x)
  | FR => mkNode (nL x) v (nU x) (nD x) (ncol x) (nrow x) (nsize x)
  | FU => mkNode (nL x) (nR x) v (nD x) (ncol x) (nrow x) (nsize x)
  | FD => mkNode (nL x) (nR x) (nU x) v (ncol x) (nrow x) (nsize x)
  | FSize => mkNode (nL x) (nR x) (nU x) (nD x) (ncol x) (nrow x) v
  end.

(** Modelled from the spec: the read [i.f] of a field of the node at index
    [i] of the pool of [DLX]. *)
Definition get (p : Pool) (f : Field) (i : nat) : nat :=
  match p !! i with Some x => getF f x | None => 0%nat end.

(** Modelled from the spec: the write [i.f <- v], in place in [DLX]. *)
Definition set (p : Pool) (f : Field) (i : nat) (v : nat) : Pool :=
  alter (setF f v) i p.

(** Modelled from the spec: [i.col], the header of the node [i] of [DLX]. *)
Definition colOf (p : Pool) (i : nat) : nat :=
  match p !! i with Some x => ncol x | None => 0%nat end.

(** Modelled from the spec: [i.row], the candidate id of the node [i] of
    [DLX]. *)
Definition rowOf (p : Pool) (i : nat) : Z :=
  match p !! i with Some x => nrow x | None => -1 end.

(** Modelled from the spec: the root sentinel of [DLX]. *)
Definition root : nat := 0.

(** Modelled from the spec: step 1 of [cover(h)] of [DLX],
    [h.R.L <- h.L; h.L.R <- h.R]. *)
Definition unlinkH (h : nat) (p : Pool) : Pool :=
  let p1 := set p FL (get p FR h) (get p FL h) in
  set p1 FR (get p1 FL h) (get p1 FR h).

(** Modelled from the spec: the last step of [uncover(h)] of [DLX],
    [h.R.L <- h; h.L.R <- h]. *)
Definition relinkH (h : nat) (p : Pool) : Pool :=
  let p1 := set p FL (get p FR h) h in
  set p1 FR (get p1 FL h) h.

(** Modelled from the spec: the vertical unlink of [DLX],
    [j.D.U <- j.U; j.U.D <- j.D], and the decrement of [j.col.size]. *)
Definition unlinkV (j : nat) (p : Pool) : Pool :=
  let p1 := set p FU (get p FD j) (get p FU j) in
  let p2 := set p1 FD (get p1 FU j) (get p1 FD j) in
  set p2 FSize (colOf p2 j) (get p2 FSize (colOf p2 j) - 1)%nat.

(** Modelled from the spec: the vertical relink of [DLX],
    [j.D.U <- j; j.U.D <- j], and the increment of [j.col.size]. *)
Definition relinkV (j : nat) (p : Pool) : Pool :=
  let p1 := set p FU (get p FD j) j in
  let p2 := set p1 FD (get p1 FU j) j in
  set p2 FSize (colOf p2 j) (get p2 FSize (colOf p2 j) + 1)%nat.

(** Modelled from the spec: the loops of [DLX] of the form for each node
    walking [dir] from [start], excluding [start].  The link followed is read
    after the body has run.  [fuel] bounds the walk. *)
Fixpoint walkFrom (fuel : nat) (dir : Field) (start cur : nat)
    (body : nat -> Pool -> Pool) (p : Pool) : Pool :=
  match fuel with
  | O => p
  | S fuel' =>
      if (cur =? start)%nat then p
      else let p' := body cur p in walkFrom fuel' dir start (get p' dir cur) body p'
  end.

(** Modelled from the spec: a walk of [DLX] around a ring of the pool, which
    has no more nodes than the pool. *)
Definition forEach (dir : Field) (start : nat) (body : nat -> Pool -> Pool) (p : Pool) : Pool :=
  walkFrom (length p) dir start (get p dir start) body p.

(** Modelled from the spec: [cover(h)] of [DLX] on the pool. *)
Definition coverP (h : nat) (p : Pool) : Pool :=
  forEach FD h (fun i => forEach FR i unlinkV) (unlinkH h p).

(** Modelled from the spec: [uncover(h)] of [DLX] on the pool, the rows
    bottom to top and the nodes of a row right to left. *)
Definition uncoverP (h : nat) (p : Pool) : Pool :=
  relinkH h (forEach FU h (fun i => forEach FL i relinkV) p).

(** Modelled from the spec: [cover(j.col)] of the search of [DLX]. *)
Definition coverCol : nat -> Pool -> Pool := fun j q => coverP (colOf q j) q.

(** Modelled from the spec: [uncover(j.col)] of the search of [DLX]. *)
Definition uncoverCol : nat -> Pool -> Pool := fun j q => uncoverP (colOf q j) q.

(** Modelled from the spec: the walk of [DLX] to the right from the root
    that keeps the header of minimum size, the first one met on a tie. *)
Fixpoint minColumn (fuel : nat) (p : Pool) (best cur : nat) : nat :=
  match fuel with
  | O => best
  | S fuel' =>
      if (cur =? root)%nat then best
      else minColumn fuel' p
             (if (get p FSize cur <? get p FSize best)%nat then cur else best)
             (get p FR cur)
  end.

(** Modelled from the spec: the column choice of [DLX] on the pool. *)
Definition chooseColumnP (p : Pool) : nat :=
  minColumn (length p) p (get p FR root) (get p FR root).

(** Modelled from the spec: the loop of the search of [DLX] over the rows
    [r] walking down from [h]: push [r], cover the columns of [r] walking
    right, search; on FOUND return, else pop [r] and uncover the columns of
    [r] walking left. *)
Fixpoint tryRowsP (fuel : nat) (attempt : Pool -> option (list Z) * Pool)
    (h r : nat) (p : Pool) : option (list Z) * Pool :=
  match fuel with
  | O => (None, p)
  | S fuel' =>
      if (r =? h)%nat then (None, p)
      else
        let p1 := forEach FR r coverCol p in
        match attempt p1 with
        | (Some sol, p2) => (Some (rowOf p r :: sol), p2)
        | (None, p2) =>
            let p3 := forEach FL r uncoverCol p2 in
            tryRowsP fuel' attempt h (get p3 FD r) p3
        end
  end.

(** Modelled from the spec: [search()] of [DLX] on the pool.  The result is
    the pushed candidate ids for FOUND and [None] for NOT_FOUND, with the
    pool as the search leaves it. *)
Fixpoint searchP (fuel : nat) (p : Pool) : option (list Z) * Pool :=
  match fuel with
  | O => (None, p)
  | S fuel' =>
      if (get p FR root =? root)%nat then (Some [], p)
      else
        let h := chooseColumnP p in
        if (get p FSize h =? 0)%nat then (None, p)
        else
          let p1 := coverP h p in
          match tryRowsP (length p) (searchP fuel') h (get p1 FD h) p1 with
          | (Some sol, p2) => (Some sol, p2)
          | (None, p2) => (None, uncoverP h p2)
          end
  end.

(** Modelled from the spec: the header of column [k] as [DLX] builds it, at
    index [k + 1], linked to its neighbours in the root's ring, alone in its
    column, of size 0. *)
Definition headerNode (ncols k : nat) : Node :=
  mkNode k (if (k + 1 =? ncols)%nat then 0 else k + 2)%nat (k + 1) (k + 1) (k + 1) (-1) 0.

(** Modelled from the spec: the root of [DLX] as built. *)
Definition rootNode (ncols : nat) : Node :=
  mkNode ncols (if (ncols =? 0)%nat then 0 else 1)%nat 0 0 0 (-1) 0.

(** Modelled from the spec: the root and the headers of [DLX], linked into a
    horizontal ring. *)
Definition headerPool (ncols : nat) : Pool :=
  rootNode ncols :: map (headerNode ncols) (seq 0 ncols).

(** Modelled from the spec: the creation in [DLX] of the body node at
    position [q] of a candidate of [w] nodes whose first node is at index
    [base], spliced into the bottom of column [k], with the increment of the
    column's size. *)
Definition addNode (id : Z) (base w q : nat) (k : Z) (p : Pool) : Pool :=
  let h := S (Z.to_nat k) in
  let new := length p in
  let node := mkNode (base + (q + w - 1) mod w) (base + (q + 1) mod w)
                (get p FU h) h h id 0 in
  let p1 := p ++ [node] in
  let p2 := set p1 FD (get p1 FU h) new in
  let p3 := set p2 FU h new in
  set p3 FSize h (get p3 FSize h + 1)%nat.

(** Modelled from the spec: the body nodes of one candidate of [DLX], one
    per column it touches, in a horizontal ring among themselves. *)
Definition addCandidate (p : Pool) (r : Candidate) : Pool :=
  let base := length p in
  let w := length (ccols r) in
  fold_left (fun p qk => addNode (cid r) base w qk.1 qk.2 p)
    (imap (fun q k => (q, k)) (ccols r)) p.

(** Modelled from the spec: the build of the pool of [DLX], the candidates
    in insertion order. *)
Definition buildPool (ncols : nat) (cands : list Candidate) : Pool :=
  fold_left addCandidate cands (headerPool ncols).

(** Modelled from the spec: the solve entry point of [DLX] on the pool:
    build the candidates, build the pool, run the search, and on FOUND decode
    each pushed id into a fresh grid. *)
Definition solveP (G : Grid) : option Grid :=
  let N := size G in
  let p := buildPool (Z.to_nat (4 * (N * N))) (buildCandidates G) in
  match searchP (S (Z.to_nat (4 * (N * N)))) p with
  | (Some sol, _) => Some (decodeInto N sol (emptyGrid N))
  | (None, _) => None
  end.

(** Modelled from the spec: the 4 N^2 constraint columns of [DLX] for a
    grid of side N. *)
Definition columnsOf (G : Grid) : nat := Z.to_nat (4 * (size G * size G)).

(** ** The links of a pool

    The invariants of section 3 of the specification, stated on the indices
    of the pool. *)

#[global] Instance In_decision {A} `{EqDecision A} (x : A) (l : list A) : Decision (In x l).
Proof.
  destruct (decide (elem_of x l)) as [Hin|Hnot].
  - left. apply list_elem_of_In, Hin.
  - right. intros Hin. apply Hnot, list_elem_of_In, Hin.
Defined.

(** The consecutive pairs of the ring [x, ys, z]. *)
Fixpoint adj (x : nat) (ys : list nat) (z : nat) : list (nat * nat) :=
  match ys with
  | [] => [(x, z)]
  | y :: ys' => (x, y) :: adj y ys' z
  end.

(** Following [dir] from [x] leads through [ys] to [z]. *)
Definition fpath (p : Pool) (dir : Field) (x : nat) (ys : list nat) (z : nat) : Prop :=
  Forall (fun ab => get p dir ab.1 = ab.2) (adj x ys z).

(** [ys] is doubly linked between [x] and [z]: [n.fwd.bwd = n = n.bwd.fwd]
    along it. *)
Definition chain (p : Pool) (fwd bwd : Field) (x : nat) (ys : list nat) (z : nat) : Prop :=
  Forall (fun ab => get p fwd ab.1 = ab.2 /\ get p bwd ab.2 = ab.1) (adj x ys z).

(** A walk from [cur] meets exactly [ys] before it is back at [start], the
    body run at each node. *)
Fixpoint follows (dir : Field) (start : nat) (body : nat -> Pool -> Pool)
    (cur : nat) (ys : list nat) (p : Pool) : Prop :=
  match ys with
  | [] => cur = start
  | y :: ys' =>
      cur = y /\ y <> start /\
      follows dir start body (get (body y p) dir y) ys' (body y p)
  end.

(** The body of a loop run at each node of a list. *)
Definition runBody (body : nat -> Pool -> Pool) (ys : list nat) (p : Pool) : Pool :=
  fold_left (fun q y => body y q) ys p.

(** The body of [cover(h)] for one row, and of [uncover(h)]. *)
Definition coverBody : nat -> Pool -> Pool := fun i => forEach FR i unlinkV.
Definition uncoverBody : nat -> Pool -> Pool := fun i => forEach FL i relinkV.

(** The index of the header of column [k]. *)
Definition hidx (k : Z) : nat := S (Z.to_nat k).

(** Row [t] of the candidates has a node in column [k]. *)
Definition touchesCol (cands : list Candidate) (k : Z) (t : nat) : Prop :=
  exists r, cands !! t = Some r /\ In k (ccols r).

#[global] Instance touchesCol_dec (cands : list Candidate) (k : Z) (t : nat) :
  Decision (touchesCol cands k t).
Proof.
  unfold touchesCol. destruct (cands !! t) as [r|].
  - destruct (decide (In k (ccols r))) as [Hin|Hout].
    + left. exists r. auto.
    + right. intros (r' & Heq & Hin). inversion Heq; subst r'. exact (Hout Hin).
  - right. intros (r' & Heq & _). discriminate.
Defined.

Section PoolLayout.
Variable ncols : nat.
Variable cands : list Candidate.

(** The index of the first body node, and the number of body nodes. *)
Definition base : nat := S ncols.
Definition nbody : nat := 4 * length cands.

Definition validCol (k : Z) : Prop := 0 <= k < Z.of_nat ncols.

(** Every candidate touches four distinct columns of the pool. *)
Definition wfCands : Prop :=
  Forall (fun r => length (ccols r) = 4%nat /\ List.NoDup (ccols r) /\
                   Forall validCol (ccols r)) cands.

(** The candidate and the column of the body node at index [i]. *)
Definition nodeCand (i : nat) : option Candidate :=
  if decide (base <= i)%nat then cands !! ((i - base) / 4)%nat else None.

Definition nodeCol (i : nat) : option Z :=
  match nodeCand i with
  | Some r => ccols r !! ((i - base) mod 4)%nat
  | None => None
  end.

(** The row of a body node: its number, its first node, the position of the
    node in it, and the node [q] steps to the right. *)
Definition rowOfNode (i : nat) : nat := ((i - base) / 4)%nat.
Definition rowBase (i : nat) : nat := (base + 4 * ((i - base) / 4))%nat.
Definition rowPos (i : nat) : nat := ((i - base) mod 4)%nat.
Definition rowNode (i : nat) (q : nat) : nat := (rowBase i + (rowPos i + q) mod 4)%nat.

(** The other nodes of the row of [i], walking right from [i]. *)
Definition others (i : nat) : list nat := [rowNode i 1; rowNode i 2; rowNode i 3].

(** The other nodes of the rows of a list of nodes. *)
Definition othersOf (A : list nat) : list nat := concat (map others A).

(** The nodes of row [t], left to right. *)
Definition rowNodes (t : nat) : list nat :=
  [(base + (4 * t + 0))%nat; (base + (4 * t + 1))%nat;
   (base + (4 * t + 2))%nat; (base + (4 * t + 3))%nat].

(** The body nodes of column [k], top to bottom, and those among the first
    [m] body nodes. *)
Definition colAll (k : Z) : list nat :=
  filter (fun i => nodeCol i = Some k) (seq base nbody).

Definition colUpTo (m : nat) (k : Z) : list nat :=
  filter (fun i => nodeCol i = Some k) (seq base m).

(** What the search never writes: the size of the pool, and for a body node
    its candidate id, its header and its horizontal links. *)
Definition Static (p : Pool) : Prop :=
  length p = (base + nbody)%nat /\
  forall i r, nodeCand i = Some r ->
    rowOf p i = cid r /\
    get p FR i = rowNode i 1 /\ get p FL i = rowNode i 3 /\
    forall k, nodeCol i = Some k -> colOf p i = hidx k.

(** Invariants 1 to 3 of the pool: the root's ring holds the headers of
    [ring], and each column of [cols] is the doubly-linked list of its alive
    nodes, of which its header's [size] is the number. *)
Definition Linked (p : Pool) (ring cols : list Z) (alive : nat -> Prop)
    {decAlive : forall i, Decision (alive i)} : Prop :=
  chain p FR FL root (map hidx ring) root /\
  forall k, In k cols ->
    chain p FD FU (hidx k) (filter alive (colAll k)) (hidx k) /\
    get p FSize (hidx k) = length (filter alive (colAll k)).

(** A node is alive when its row is. *)
Definition rowAlive (lv : nat -> Prop) (i : nat) : Prop := lv (rowOfNode i).

(** The columns of the live rows are in the ring. *)
Definition Closed (hs : list Z) (lv : nat -> Prop) : Prop :=
  forall t r c, lv t -> cands !! t = Some r -> In c (ccols r) -> In c hs.

(** The pool outside an active cover or uncover: the columns [hs] are in the
    ring and hold the nodes of the live rows. *)
Definition Stable (p : Pool) (hs : list Z) (lv : nat -> Prop)
    {decLv : forall t, Decision (lv t)} : Prop :=
  Static p /\ Linked p hs hs (rowAlive lv) /\ List.NoDup hs /\
  (forall c, In c hs -> validCol c) /\ Closed hs lv.

(** Nodes of distinct columns of the ring. *)
Definition distinctCols (hs : list Z) (js : list nat) : Prop :=
  List.NoDup js /\
  (forall i j, In i js -> In j js -> nodeCol i = nodeCol j -> i = j) /\
  (forall j, In j js -> exists c, nodeCol j = Some c /\ In c hs).

(** The ring of the pool as built. *)
Definition ring0 : list Z := seqZ 0 (Z.of_nat ncols).

(** The pool after the first [m] body nodes have been created. *)
Definition Built (m : nat) (p : Pool) : Prop :=
  length p = (base + m)%nat /\
  chain p FR FL root (map hidx ring0) root /\
  (forall i r, (i < base + m)%nat -> nodeCand i = Some r ->
     rowOf p i = cid r /\ get p FR i = rowNode i 1 /\ get p FL i = rowNode i 3 /\
     forall k, nodeCol i = Some k -> colOf p i = hidx k) /\
  (forall k, validCol k ->
     chain p FD FU (hidx k) (colUpTo m k) (hidx k) /\
     get p FSize (hidx k) = length (colUpTo m k)).

(** Every row is alive in the pool as built. *)
Definition allRows (t : nat) : Prop := (t < length cands)%nat.

(** The candidates at a list of row indices. *)
Definition candsAt (ts : list nat) : list Candidate := omap (fun t => cands !! t) ts.

(** The indices of the live rows, in insertion order, and of those that
    touch a column. *)
Definition liveIdx (lv : nat -> Prop) {decLv : forall t, Decision (lv t)} : list nat :=
  filter lv (seq 0 (length cands)).

Definition rowsIdx (lv : nat -> Prop) {decLv : forall t, Decision (lv t)} (c : Z) : list nat :=
  filter (fun t => lv t /\ touchesCol cands c t) (seq 0 (length cands)).

(** The pool [p] holds the active matrix [M]. *)
Definition Represents (p : Pool) (M : Matrix) : Prop :=
  exists (lv : nat -> Prop) (decLv : forall t, Decision (lv t)),
    Stable p (headers M) lv /\ live M = candsAt (liveIdx lv).

(** The candidate of a body node. *)
Definition candOf (i : nat) : Candidate := default (mkCandidate 0 []) (nodeCand i).

Section ColumnCover.
Variable p : Pool.
Variable lv : nat -> Prop.
Context {decLv : forall t, Decision (lv t)}.
Variable k : Z.

(** The rows that stay live when column [k] is covered. *)
Definition stillLive (t : nat) : Prop := lv t /\ ~ touchesCol cands k t.

(** The live nodes of column [k], top to bottom. *)
Definition liveNodes : list nat := filter (rowAlive lv) (colAll k).

(** The pool during [cover(k)]: after the header has left the ring, and
    after the rows of the nodes [A] of the column have left the other
    columns. *)
Definition headerOut : Pool := unlinkH (hidx k) p.
Definition rowsOut (A : list nat) : Pool := runBody unlinkV (othersOf A) headerOut.

End ColumnCover.
End PoolLayout.

#[global] Instance stillLive_dec (cands : list Candidate) (lv : nat -> Prop)
    {decLv : forall t, Decision (lv t)} (k : Z) (t : nat) :
  Decision (stillLive cands lv k t).
Proof. unfold stillLive. apply _. Defined.

#[global] Instance allRows_dec (cands : list Candidate) (t : nat) : Decision (allRows cands t).
Proof. unfold allRows. apply _. Defined.

(** The spec's grid: N rows of N values, each 0 (empty) or in 1..N. *)
Definition validSudoku (n : nat) (G : Grid) : Prop :=
  square n G /\ Forall (Forall (fun v => 0 <= v <= Z.of_nat n)) G.

(** The grid of a string with one character per cell, as in the source's
    test vectors. *)
Definition sudokuOfString (n : nat) (s : string) : Grid :=
  (fix chunks (k : nat) (l : list Z) : Grid :=
     match k with
     | O => []
     | S k' => take n l :: chunks k' (drop n l)
     end) n (map (fun c => Z.max 0 (digitValue c)) (qstr s)).

Definition sudoku4x4 : Grid := sudokuOfString 4 "1.3..4.22.4..3.1".

(** * Properties *)

Example number_16 : number 16 = qstr "16".
Proof. reflexivity. Qed.

Example toInt_16 : toInt (qstr " 16 ") = 16.
Proof. reflexivity. Qed.

Example load_4 :
  stringGridToUIGrid (repeat (repeat [] 4) 4) (qstr "12..3.x.0...9..4")
  = Ok [[qstr "1"; qstr "2"; []; []]; [qstr "3"; []; []; []];
        [[]; []; []; []]; [qstr "9"; []; []; qstr "4"]].
Proof. reflexivity. Qed.

Example generate_4 :
  (generateGrid newWindow 4).1 = true /\
  grid (generateGrid newWindow 4).2 = repeat (repeat [] 4) 4.
Proof. split; reflexivity. Qed.

Example generate_5 : (generateGrid newWindow 5).1 = false.
Proof. reflexivity. Qed.

(** ** Square grids and their cells *)

Lemma square_repeat {A} (n : nat) (x : A) : square n (repeat (repeat x n) n).
Proof.
  split; [apply repeat_length|].
  apply List.Forall_forall. intros row Hin.
  apply repeat_spec in Hin. subst row. apply repeat_length.
Qed.

Lemma square_row {A} n (g : list (list A)) a row :
  square n g -> g !! a = Some row -> length row = n.
Proof.
  intros [_ Hrows] Ha. rewrite Forall_forall in Hrows.
  apply Hrows. eapply list_elem_of_lookup_2; eauto.
Qed.

Lemma square_lookup {A} n (g : list (list A)) a :
  square n g -> (a < n)%nat -> exists row, g !! a = Some row /\ length row = n.
Proof.
  intros Hsq Ha. destruct (lookup_lt_is_Some_2 g a) as [row Hrow].
  { destruct Hsq as [-> _]. exact Ha. }
  exists row. split; [exact Hrow|]. eapply square_row; eauto.
Qed.

Lemma cell_is_Some {A} n (g : list (list A)) a b :
  square n g -> (a < n)%nat -> (b < n)%nat -> is_Some (cellAt g a b).
Proof.
  intros Hsq Ha Hb. destruct (square_lookup n g a Hsq Ha) as (row & Hrow & Hlen).
  unfold cellAt. rewrite Hrow. apply lookup_lt_is_Some_2. lia.
Qed.

Lemma cell_None_row {A} n (g : list (list A)) a b :
  square n g -> (n <= a)%nat -> cellAt g a b = None.
Proof.
  intros [Hlen _] Ha. unfold cellAt. rewrite lookup_ge_None_2; [reflexivity|lia].
Qed.

(** Two square grids with the same cells are the same grid. *)
Lemma square_ext {A} n (g1 g2 : list (list A)) :
  square n g1 -> square n g2 ->
  (forall a b, (a < n)%nat -> (b < n)%nat -> cellAt g1 a b = cellAt g2 a b) ->
  g1 = g2.
Proof.
  intros H1 H2 Hcells. apply list_eq. intros a.
  destruct (decide (a < n)%nat) as [Ha|Ha].
  - destruct (square_lookup n g1 a H1 Ha) as (r1 & Hr1 & Hl1).
    destruct (square_lookup n g2 a H2 Ha) as (r2 & Hr2 & Hl2).
    rewrite Hr1, Hr2. f_equal. apply list_eq. intros b.
    destruct (decide (b < n)%nat) as [Hb|Hb].
    + specialize (Hcells a b Ha Hb). unfold cellAt in Hcells.
      rewrite Hr1, Hr2 in Hcells. exact Hcells.
    + rewrite !lookup_ge_None_2; [reflexivity|lia|lia].
  - destruct H1 as [H1 _], H2 as [H2 _].
    rewrite !lookup_ge_None_2; [reflexivity|lia|lia].
Qed.

Lemma square_map {A B} (f : A -> B) n (g : list (list A)) :
  square n g -> square n (map (map f) g).
Proof.
  intros [Hlen Hrows]. split; [rewrite length_map; exact Hlen|].
  apply List.Forall_forall. intros row Hin. apply in_map_iff in Hin.
  destruct Hin as (r & <- & Hr). rewrite length_map.
  rewrite List.Forall_forall in Hrows. apply Hrows, Hr.
Qed.

Lemma cell_map {A B} (f : A -> B) (g : list (list A)) a b :
  cellAt (map (map f) g) a b = f <$> cellAt g a b.
Proof.
  unfold cellAt. change (map (map f) g) with (fmap (map f) g).
  rewrite list_lookup_fmap. destruct (g !! a) as [row|]; simpl; [|reflexivity].
  change (map f row) with (fmap f row). apply list_lookup_fmap.
Qed.

(** The cells of a square grid in row-major order. *)
Lemma concat_lookup {A} n (g : list (list A)) a b :
  Forall (fun row => length row = n) g -> (b < n)%nat ->
  concat g !! (a * n + b)%nat = cellAt g a b.
Proof.
  intros Hrows Hb. revert a. induction Hrows as [|row g' Hrow Hrows IH]; intros a.
  - simpl. unfold cellAt. rewrite !lookup_nil. reflexivity.
  - destruct a as [|a]; simpl.
    + unfold cellAt. simpl. apply lookup_app_l. lia.
    + unfold cellAt at 1. simpl. fold (cellAt g' a b). rewrite <- IH.
      rewrite lookup_app_r by lia. f_equal. lia.
Qed.

Lemma concat_square_length {A} n (g : list (list A)) :
  square n g -> length (concat g) = (n * n)%nat.
Proof.
  intros [Hlen Hrows]. rewrite <- Hlen at 1. clear Hlen.
  induction Hrows as [|row g' Hrow Hrows IH]; simpl.
  - reflexivity.
  - rewrite length_app, Hrow, IH. reflexivity.
Qed.

(** ** Writing one cell *)

Lemma size_square {A} n (g : list (list A)) : square n g -> size g = Z.of_nat n.
Proof. intros [Hlen _]. unfold size. rewrite Hlen. reflexivity. Qed.

Lemma setCellAt_ok n (g : UIGrid) i j v :
  square n g -> 0 <= i < Z.of_nat n -> 0 <= j < Z.of_nat n ->
  exists g', setCellAt g i j v = Ok g' /\ square n g' /\
    forall a b, cellAt g' a b =
      if decide (a = Z.to_nat i /\ b = Z.to_nat j) then Some (setCellValue v)
      else cellAt g a b.
Proof.
  intros Hsq Hi Hj.
  destruct (square_lookup n g (Z.to_nat i) Hsq) as (row & Hrow & Hlen); [lia|].
  unfold setCellAt, inRange. rewrite (size_square n g Hsq), Hrow.
  unfold size. rewrite Hlen.
  replace ((0 <=? i) && (i <? Z.of_nat n)) with true
    by (symmetry; apply andb_true_iff; split; [apply Z.leb_le|apply Z.ltb_lt]; lia).
  replace ((0 <=? j) && (j <? Z.of_nat n)) with true
    by (symmetry; apply andb_true_iff; split; [apply Z.leb_le|apply Z.ltb_lt]; lia).
  eexists. split; [reflexivity|]. split.
  - destruct Hsq as [Hg Hrows]. split; [rewrite length_insert; exact Hg|].
    apply Forall_insert; [exact Hrows|]. rewrite length_insert. exact Hlen.
  - intros a b. unfold cellAt. case_decide as Hab.
    + destruct Hab as [-> ->].
      rewrite list_lookup_insert_eq by (eapply lookup_lt_Some; eauto).
      apply list_lookup_insert_eq. lia.
    + destruct (decide (a = Z.to_nat i)) as [->|Ha].
      * rewrite list_lookup_insert_eq by (eapply lookup_lt_Some; eauto).
        rewrite Hrow. apply list_lookup_insert_ne. intros <-. apply Hab. auto.
      * rewrite list_lookup_insert_ne by auto. reflexivity.
Qed.

Lemma setCellAt_row_out (g : UIGrid) i j v :
  ~ (0 <= i < size g) -> setCellAt g i j v = OutOfRange i j.
Proof.
  intros Hi. unfold setCellAt, inRange.
  destruct ((0 <=? i) && (i <? size g)) eqn:E; [|reflexivity].
  apply andb_true_iff in E. destruct E as [E1 E2].
  apply Z.leb_le in E1. apply Z.ltb_lt in E2. lia.
Qed.

(** ** Loading a string, one character per cell *)

Lemma cursor_next n i j :
  0 <= i < Z.of_nat n -> 0 <= j < Z.of_nat n ->
  if j + 1 >=? Z.of_nat n
  then cursor n (i + 1) 0 /\ (i + 1) * Z.of_nat n + 0 = i * Z.of_nat n + j + 1
  else cursor n i (j + 1).
Proof.
  intros Hi Hj. destruct (j + 1 >=? Z.of_nat n) eqn:E.
  - apply Z.geb_le in E. split; [|nia]. unfold cursor.
    destruct (decide (i + 1 = Z.of_nat n)); [right|left]; lia.
  - rewrite Z.geb_leb in E. apply Z.leb_gt in E. left. lia.
Qed.

Lemma cursor_inside n i j (len : nat) :
  cursor n i j ->
  i * Z.of_nat n + j + Z.of_nat (S len) <= Z.of_nat n * Z.of_nat n ->
  0 <= i < Z.of_nat n /\ 0 <= j < Z.of_nat n.
Proof. intros [H|[-> ->]] Hlen; [exact H|lia]. Qed.

Lemma cell_index_eq (n a b : nat) (i j : Z) :
  (b < n)%nat -> 0 <= i -> 0 <= j < Z.of_nat n ->
  (a = Z.to_nat i /\ b = Z.to_nat j) <->
  Z.of_nat a * Z.of_nat n + Z.of_nat b = i * Z.of_nat n + j.
Proof.
  intros Hb Hi Hj. split.
  - intros [-> ->]. rewrite !Z2Nat.id by lia. reflexivity.
  - intros H. assert (Z.of_nat a = i) as Ha.
    { destruct (Z.lt_trichotomy (Z.of_nat a) i) as [Hlt|[Heq|Hgt]]; [nia|exact Heq|nia]. }
    subst i. split; [lia|nia].
Qed.

Lemma stringGridToUIGrid_from_ok n (s : QString) :
  forall (g : UIGrid) i j,
    square n g -> cursor n i j ->
    i * Z.of_nat n + j + size s <= Z.of_nat n * Z.of_nat n ->
    exists g', stringGridToUIGrid_from s i j g = Ok g' /\ square n g' /\
      forall a b, (b < n)%nat ->
        cellAt g' a b =
          let k := Z.of_nat a * Z.of_nat n + Z.of_nat b in
          let k0 := i * Z.of_nat n + j in
          if decide (k0 <= k < k0 + size s)
          then loadChar <$> s !! Z.to_nat (k - k0)
          else cellAt g a b.
Proof.
  induction s as [|c rest IH]; intros g i j Hsq Hcur Hlen.
  - exists g. split; [reflexivity|]. split; [exact Hsq|].
    intros a b Hb. simpl. unfold size. simpl. case_decide; [lia|reflexivity].
  - unfold size in Hlen. simpl length in Hlen.
    destruct (cursor_inside n i j (length rest) Hcur Hlen) as [Hi Hj].
    destruct (setCellAt_ok n g i j (digitValue c) Hsq Hi Hj) as (g1 & Hset & Hsq1 & Hcell1).
    simpl. rewrite Hset. simpl. rewrite (size_square n g Hsq).
    pose proof (cursor_next n i j Hi Hj) as Hnext.
    assert (exists i' j', cursor n i' j' /\
              i' * Z.of_nat n + j' = i * Z.of_nat n + j + 1 /\
              (if j + 1 >=? Z.of_nat n
               then stringGridToUIGrid_from rest (i + 1) 0 g1
               else stringGridToUIGrid_from rest i (j + 1) g1)
              = stringGridToUIGrid_from rest i' j' g1) as (i' & j' & Hcur' & Hk & ->).
    { destruct (j + 1 >=? Z.of_nat n).
      - exists (i + 1), 0. destruct Hnext. auto.
      - exists i, (j + 1). split; [exact Hnext|]. split; [lia|reflexivity]. }
    destruct (IH g1 i' j' Hsq1 Hcur') as (g' & Hrun & Hsq' & Hcell').
    { unfold size. lia. }
    exists g'. split; [exact Hrun|]. split; [exact Hsq'|].
    intros a b Hb. rewrite (Hcell' a b Hb), Hcell1. cbv zeta.
    pose proof (cell_index_eq n a b i j Hb (proj1 Hi) Hj) as Hiff.
    rewrite Hk. unfold size. simpl length.
    set (K := Z.of_nat a * Z.of_nat n + Z.of_nat b) in *.
    set (K0 := i * Z.of_nat n + j) in *.
    clearbody K K0.
    destruct (decide (K = K0)) as [->|Hne].
    + rewrite decide_False by lia.
      rewrite (decide_True (P := a = Z.to_nat i /\ b = Z.to_nat j))
        by (apply Hiff; reflexivity).
      rewrite decide_True by lia. rewrite Z.sub_diag. reflexivity.
    + rewrite (decide_False (P := a = Z.to_nat i /\ b = Z.to_nat j))
        by (intros H; apply Hne, Hiff, H).
      repeat case_decide; try lia; [|reflexivity].
      replace (Z.to_nat (K - K0)) with (S (Z.to_nat (K - (K0 + 1)))) by lia.
      reflexivity.
Qed.

Lemma stringGridToUIGrid_from_overflow n (s : QString) :
  forall (g : UIGrid) i j,
    square n g -> cursor n i j ->
    Z.of_nat n * Z.of_nat n < i * Z.of_nat n + j + size s ->
    stringGridToUIGrid_from s i j g = OutOfRange (Z.of_nat n) 0.
Proof.
  induction s as [|c rest IH]; intros g i j Hsq Hcur Hlen.
  - exfalso. unfold size in Hlen. simpl in Hlen. destruct Hcur as [[Hi Hj]|[-> ->]]; nia.
  - destruct Hcur as [[Hi Hj]|[-> ->]].
    + destruct (setCellAt_ok n g i j (digitValue c) Hsq Hi Hj) as (g1 & Hset & Hsq1 & _).
      simpl. rewrite Hset. simpl. rewrite (size_square n g Hsq).
      pose proof (cursor_next n i j Hi Hj) as Hnext.
      unfold size in Hlen. simpl length in Hlen.
      destruct (j + 1 >=? Z.of_nat n).
      * destruct Hnext as [Hcur' Hk]. apply IH; [exact Hsq1|exact Hcur'|].
        unfold size. lia.
      * apply IH; [exact Hsq1|exact Hnext|]. unfold size. lia.
    + simpl. rewrite setCellAt_row_out; [reflexivity|].
      rewrite (size_square n g Hsq). lia.
Qed.

Lemma cursor_start n : cursor n 0 0.
Proof. unfold cursor. destruct n; [right|left]; lia. Qed.

(** A string of at most [n * n] characters is loaded without fault: the
    cell at row-major position [k] takes the [k]-th character and the cells
    past the end of the string keep their text. *)
Lemma stringGridToUIGrid_ok n (g : UIGrid) (s : QString) :
  square n g -> size s <= Z.of_nat n * Z.of_nat n ->
  exists g', stringGridToUIGrid g s = Ok g' /\ square n g' /\
    forall a b, (b < n)%nat ->
      cellAt g' a b =
        if decide (a * n + b < length s)%nat
        then loadChar <$> s !! (a * n + b)%nat
        else cellAt g a b.
Proof.
  intros Hsq Hlen.
  destruct (stringGridToUIGrid_from_ok n s g 0 0 Hsq (cursor_start n)) as (g' & Hrun & Hsq' & Hcell).
  { lia. }
  exists g'. split; [exact Hrun|]. split; [exact Hsq'|].
  intros a b Hb. rewrite (Hcell a b Hb). cbv zeta. unfold size.
  repeat case_decide; try lia; [|reflexivity].
  f_equal. f_equal. lia.
Qed.

Lemma stringGridToUIGrid_exact n (g : UIGrid) (s : QString) :
  square n g -> length s = (n * n)%nat ->
  exists g', stringGridToUIGrid g s = Ok g' /\ square n g' /\
    forall a b, (a < n)%nat -> (b < n)%nat ->
      cellAt g' a b = loadChar <$> s !! (a * n + b)%nat.
Proof.
  intros Hsq Hlen.
  destruct (stringGridToUIGrid_ok n g s Hsq) as (g' & Hrun & Hsq' & Hcell).
  { unfold size. lia. }
  exists g'. split; [exact Hrun|]. split; [exact Hsq'|].
  intros a b Ha Hb. rewrite (Hcell a b Hb). apply decide_True. nia.
Qed.

Lemma stringGridToUIGrid_overflow n (g : UIGrid) (s : QString) :
  square n g -> Z.of_nat n * Z.of_nat n < size s ->
  stringGridToUIGrid g s = OutOfRange (Z.of_nat n) 0.
Proof.
  intros Hsq Hlen.
  apply stringGridToUIGrid_from_overflow; [exact Hsq|apply cursor_start|lia].
Qed.

(** C9: the string loader is total only when the string has at most N*N
    characters.  On an N-by-N grid, a string longer than N*N makes it
    evaluate [grid.at(i)] with the row index i = N, which is outside the
    grid; a string of at most N*N characters is loaded without fault, and
    when it is shorter than N*N the cells past its end keep their text and
    no error is reported. *)
Theorem stringGridToUIGrid_length_precondition
    (n : nat) (g : UIGrid) (s : QString) :
  square n g ->
  (Z.of_nat n * Z.of_nat n < size s ->
     stringGridToUIGrid g s = OutOfRange (Z.of_nat n) 0 /\
     Z.of_nat n >= size g /\ inRange g (Z.of_nat n) = false) /\
  (size s <= Z.of_nat n * Z.of_nat n -> isOk (stringGridToUIGrid g s) = true) /\
  (size s < Z.of_nat n * Z.of_nat n ->
     exists g', stringGridToUIGrid g s = Ok g' /\ square n g' /\
       forall a b, (a < n)%nat -> (b < n)%nat -> (length s <= a * n + b)%nat ->
         cellAt g' a b = cellAt g a b).
Proof.
  intros Hsq. split; [|split].
  - intros Hlen. split; [apply stringGridToUIGrid_overflow; assumption|].
    rewrite (size_square n g Hsq). split; [lia|].
    unfold inRange. rewrite (size_square n g Hsq), Z.ltb_irrefl.
    apply andb_false_r.
  - intros Hlen.
    destruct (stringGridToUIGrid_ok n g s Hsq Hlen) as (g' & -> & _). reflexivity.
  - intros Hlen.
    destruct (stringGridToUIGrid_ok n g s Hsq) as (g' & Hrun & Hsq' & Hcell); [lia|].
    exists g'. split; [exact Hrun|]. split; [exact Hsq'|].
    intros a b Ha Hb Hk. rewrite (Hcell a b Hb). apply decide_False. lia.
Qed.

Lemma square_grid2x2 : square 2 grid2x2.
Proof. split; [reflexivity|]. repeat constructor. Qed.

Lemma stringGridToUIGrid_length_precondition_witness :
  stringGridToUIGrid grid2x2 (qstr "2112.") = OutOfRange 2 0 /\
  isOk (stringGridToUIGrid grid2x2 (qstr "..")) = true /\
  exists g', stringGridToUIGrid grid2x2 (qstr "..") = Ok g' /\
             cellAt g' 1 0 = Some (qstr "2").
Proof.
  split; [|split].
  - apply (stringGridToUIGrid_length_precondition 2 grid2x2 (qstr "2112.")
             square_grid2x2).
    vm_compute. reflexivity.
  - apply (stringGridToUIGrid_length_precondition 2 grid2x2 (qstr "..")
             square_grid2x2).
    vm_compute. discriminate.
  - destruct (stringGridToUIGrid_length_precondition 2 grid2x2 (qstr "..")
                square_grid2x2) as (_ & _ & Hshort).
    destruct Hshort as (g' & Hrun & _ & Hkeep); [vm_compute; reflexivity|].
    exists g'. split; [exact Hrun|].
    rewrite (Hkeep 1%nat 0%nat); [reflexivity|lia|lia|simpl; lia].
Defined.

(** ** Numbers and their decimal text *)

Lemma digit_cases (d : Z) :
  0 <= d <= 9 ->
  d = 0 \/ d = 1 \/ d = 2 \/ d = 3 \/ d = 4 \/ d = 5 \/ d = 6 \/ d = 7 \/ d = 8 \/ d = 9.
Proof. lia. Qed.

Ltac each_digit d H :=
  destruct (digit_cases d H) as [->|[->|[->|[->|[->|[->|[->|[->|[->| ->]]]]]]]]].

Lemma digitValue_digitChar (d : Z) : 0 <= d <= 9 -> digitValue (digitChar d) = d.
Proof. intros H. each_digit d H; reflexivity. Qed.

Lemma digitValue_range (c : ascii) : -1 <= digitValue c <= 9.
Proof.
  unfold digitValue. cbv zeta.
  destruct ((48 <=? Z.of_nat (nat_of_ascii c)) && (Z.of_nat (nat_of_ascii c) <=? 57)) eqn:E; [|lia].
  apply andb_true_iff in E. destruct E as [E1 E2].
  apply Z.leb_le in E1. apply Z.leb_le in E2. lia.
Qed.

Lemma digitChar_digitValue (c : ascii) : 0 <= digitValue c -> digitChar (digitValue c) = c.
Proof.
  unfold digitValue, digitChar. cbv zeta.
  destruct ((48 <=? Z.of_nat (nat_of_ascii c)) && (Z.of_nat (nat_of_ascii c) <=? 57)) eqn:E; [|lia].
  intros _. replace (Z.to_nat (48 + (Z.of_nat (nat_of_ascii c) - 48))) with (nat_of_ascii c) by lia.
  apply ascii_nat_embedding.
Qed.

Lemma digit_not_space (c : ascii) : 0 <= digitValue c -> isSpace c = false.
Proof.
  unfold digitValue, isSpace. cbv zeta.
  destruct ((48 <=? Z.of_nat (nat_of_ascii c)) && (Z.of_nat (nat_of_ascii c) <=? 57)) eqn:E; [|lia].
  intros _. apply andb_true_iff in E. destruct E as [E1 E2].
  apply Z.leb_le in E1. apply Z.leb_le in E2.
  apply orb_false_iff. split.
  - apply andb_false_iff. right. apply Nat.leb_gt. lia.
  - apply Nat.eqb_neq. lia.
Qed.

Lemma number_digits_app fuel : forall n acc,
  number_digits fuel n acc = number_digits fuel n [] ++ acc.
Proof.
  induction fuel as [|fuel IH]; intros n acc; simpl; [reflexivity|].
  destruct (n <? 10); [reflexivity|].
  rewrite IH. rewrite (IH _ [_]). rewrite <- app_assoc. reflexivity.
Qed.

Lemma digitsValue_app (xs ys : QString) : forall a,
  digitsValue (xs ++ ys) a =
  match digitsValue xs a with Some v => digitsValue ys v | None => None end.
Proof.
  induction xs as [|c xs IH]; intros a; simpl; [reflexivity|].
  destruct (0 <=? digitValue c); [apply IH|reflexivity].
Qed.

Lemma digitsValue_digitChar (d a : Z) :
  0 <= d <= 9 -> digitsValue [digitChar d] a = Some (10 * a + d).
Proof.
  intros H. simpl. rewrite digitValue_digitChar by exact H.
  destruct (0 <=? d) eqn:E; [reflexivity|]. apply Z.leb_gt in E. lia.
Qed.

Lemma digitsValue_number_digits fuel : forall n,
  0 <= n < 10 ^ Z.of_nat fuel ->
  digitsValue (number_digits fuel n []) 0 = Some n.
Proof.
  induction fuel as [|fuel IH]; intros n Hn.
  - simpl in Hn. replace n with 0 by lia. reflexivity.
  - simpl number_digits. destruct (n <? 10) eqn:E.
    + apply Z.ltb_lt in E. rewrite Z.mod_small by lia.
      rewrite digitsValue_digitChar by lia. f_equal; lia.
    + apply Z.ltb_ge in E. rewrite number_digits_app, digitsValue_app.
      rewrite IH.
      * rewrite digitsValue_digitChar by (pose proof (Z.mod_pos_bound n 10); lia).
        f_equal; pose proof (Z.div_mod n 10); lia.
      * rewrite Nat2Z.inj_succ, Z.pow_succ_r in Hn by lia.
        split; [apply Z.div_pos; lia|]. apply Z.div_lt_upper_bound; lia.
Qed.

Lemma number_digits_isDigit fuel : forall n acc,
  0 <= n -> Forall isDigit acc -> Forall isDigit (number_digits fuel n acc).
Proof.
  induction fuel as [|fuel IH]; intros n acc Hn Hacc; simpl; [exact Hacc|].
  assert (Forall isDigit (digitChar (n mod 10) :: acc)) as Hacc'.
  { constructor; [|exact Hacc]. unfold isDigit.
    pose proof (Z.mod_pos_bound n 10). rewrite digitValue_digitChar; lia. }
  destruct (n <? 10); [exact Hacc'|].
  apply IH; [apply Z.div_pos; lia|exact Hacc'].
Qed.

Lemma number_digits_nonempty fuel n :
  number_digits (S fuel) n [] <> [].
Proof.
  simpl. destruct (n <? 10); [discriminate|].
  rewrite number_digits_app. intros H. apply app_eq_nil in H.
  destruct H as [_ H]. discriminate.
Qed.

Lemma dropSpaces_digit (c : ascii) (s : QString) :
  isSpace c = false -> dropSpaces (c :: s) = c :: s.
Proof. intros H. simpl. rewrite H. reflexivity. Qed.

Lemma trimmed_no_space (s : QString) :
  Forall (fun c => isSpace c = false) s -> trimmed s = s.
Proof.
  intros H. unfold trimmed.
  assert (forall t, Forall (fun c => isSpace c = false) t -> dropSpaces t = t) as Hdrop.
  { intros t Ht. destruct Ht as [|c t Hc _]; [reflexivity|].
    apply dropSpaces_digit, Hc. }
  rewrite (Hdrop s H). rewrite Hdrop; [apply rev_involutive|].
  apply List.Forall_rev. exact H.
Qed.

(** [toInt] reads back what [number] writes. *)
Lemma toInt_number (v : Z) : INT_MIN <= v <= INT_MAX -> toInt (number v) = v.
Proof.
  unfold INT_MIN, INT_MAX. intros Hv. unfold number.
  destruct (v <? 0) eqn:Hneg.
  - apply Z.ltb_lt in Hneg.
    pose proof (number_digits_isDigit 10 (- v) [] ltac:(lia) (List.Forall_nil _)) as Hdig.
    pose proof (number_digits_nonempty 9 (- v)) as Hne.
    pose proof (digitsValue_number_digits 10 (- v) ltac:(simpl; lia)) as Hval.
    unfold toInt. rewrite trimmed_no_space.
    + simpl Ascii.eqb. cbv iota.
      destruct (number_digits 10 (- v) []) as [|c r]; [congruence|].
      rewrite Hval. cbv iota. unfold INT_MIN, INT_MAX. rewrite Z.opp_involutive.
      destruct ((-2147483648 <=? v) && (v <=? 2147483647)) eqn:E; [reflexivity|].
      apply andb_false_iff in E. destruct E as [E|E]; apply Z.leb_gt in E; lia.
    + constructor; [reflexivity|].
      eapply Forall_impl; [exact Hdig|]. intros c. apply digit_not_space.
  - apply Z.ltb_ge in Hneg.
    pose proof (number_digits_isDigit 10 v [] Hneg (List.Forall_nil _)) as Hdig.
    pose proof (number_digits_nonempty 9 v) as Hne.
    pose proof (digitsValue_number_digits 10 v ltac:(simpl; lia)) as Hval.
    unfold toInt. rewrite trimmed_no_space.
    + destruct (number_digits 10 v []) as [|c r]; [congruence|].
      assert (isDigit c) as Hc by (inversion Hdig; assumption).
      assert (Ascii.eqb c "-" = false) as ->.
      { apply Ascii.eqb_neq. intros ->. unfold isDigit in Hc. vm_compute in Hc. congruence. }
      assert (Ascii.eqb c "+" = false) as ->.
      { apply Ascii.eqb_neq. intros ->. unfold isDigit in Hc. vm_compute in Hc. congruence. }
      rewrite Hval. cbv iota. unfold INT_MIN, INT_MAX.
      destruct ((-2147483648 <=? v) && (v <=? 2147483647)) eqn:E; [reflexivity|].
      apply andb_false_iff in E. destruct E as [E|E]; apply Z.leb_gt in E; lia.
    + eapply Forall_impl; [exact Hdig|]. intros c. apply digit_not_space.
Qed.

(** ** Cells and their text *)

Lemma number_one_digit (v : Z) : 0 <= v <= 9 -> number v = [digitChar v].
Proof. intros H. each_digit v H; reflexivity. Qed.

Lemma number_two_digits (v : Z) :
  10 <= v <= 99 -> number v = [digitChar (v / 10); digitChar (v mod 10)].
Proof.
  intros H. unfold number.
  replace (v <? 0) with false by (symmetry; apply Z.ltb_ge; lia).
  change (number_digits 10 v []) with
    (if v <? 10 then [digitChar (v mod 10)]
     else number_digits 9 (v / 10) [digitChar (v mod 10)]).
  replace (v <? 10) with false by (symmetry; apply Z.ltb_ge; lia).
  change (number_digits 9 (v / 10) [digitChar (v mod 10)]) with
    (if v / 10 <? 10 then [digitChar ((v / 10) mod 10); digitChar (v mod 10)]
     else number_digits 8 (v / 10 / 10)
            [digitChar ((v / 10) mod 10); digitChar (v mod 10)]).
  assert (1 <= v / 10 <= 9) as Hq.
  { split; [apply Z.div_le_lower_bound; lia|].
    apply Z.lt_succ_r, Z.div_lt_upper_bound; lia. }
  replace (v / 10 <? 10) with true by (symmetry; apply Z.ltb_lt; lia).
  rewrite (Z.mod_small (v / 10)) by lia. reflexivity.
Qed.

Lemma number_nonempty (v : Z) : number v <> [].
Proof.
  unfold number. destruct (v <? 0); [discriminate|]. apply number_digits_nonempty.
Qed.

Lemma cellValue_empty : cellValue [] = -1.
Proof. reflexivity. Qed.

Lemma cellValue_number (v : Z) :
  INT_MIN <= v <= INT_MAX -> cellValue (number v) = v.
Proof.
  intros Hv. unfold cellValue. rewrite decide_False by apply number_nonempty.
  apply toInt_number, Hv.
Qed.

Lemma cellValue_setCellValue (v : Z) :
  v <= INT_MAX -> cellValue (setCellValue v) = if v <? 1 then -1 else v.
Proof.
  intros Hv. unfold setCellValue. destruct (v <? 1) eqn:E; [reflexivity|].
  apply Z.ltb_ge in E. apply cellValue_number. unfold INT_MIN. lia.
Qed.

Lemma loadChar_spec (c : ascii) :
  loadChar c = if digitValue c <? 1 then [] else [c].
Proof.
  unfold loadChar, setCellValue. pose proof (digitValue_range c) as Hr.
  destruct (digitValue c <? 1) eqn:E; [reflexivity|].
  apply Z.ltb_ge in E. rewrite number_one_digit by lia.
  rewrite digitChar_digitValue by lia. reflexivity.
Qed.

Lemma cellToString_narrow (x : Cell) :
  holdsUpTo 9 x -> cellToString x = [cellChar x].
Proof.
  intros [->|Hv]; [reflexivity|]. unfold cellToString, cellChar. cbv zeta.
  replace (cellValue x <? 1) with false by (symmetry; apply Z.ltb_ge; lia).
  apply number_one_digit. lia.
Qed.

Lemma loadChar_cellChar (x : Cell) :
  holdsUpTo 9 x -> loadChar (cellChar x) = setCellValue (cellValue x).
Proof.
  intros [->|Hv]; [reflexivity|]. unfold cellChar.
  replace (cellValue x <? 1) with false by (symmetry; apply Z.ltb_ge; lia).
  unfold loadChar. rewrite digitValue_digitChar by lia. reflexivity.
Qed.

Lemma cellValue_loadChar_cellChar (x : Cell) :
  holdsUpTo 9 x -> cellValue (loadChar (cellChar x)) = cellValue x.
Proof.
  intros H. rewrite (loadChar_cellChar x H).
  destruct H as [->|Hv]; [reflexivity|].
  rewrite cellValue_setCellValue by (unfold INT_MAX; lia).
  replace (cellValue x <? 1) with false by (symmetry; apply Z.ltb_ge; lia).
  reflexivity.
Qed.

Lemma cellToString_length (x : Cell) : (1 <= length (cellToString x))%nat.
Proof.
  unfold cellToString. cbv zeta. destruct (cellValue x <? 1); [simpl; lia|].
  pose proof (number_nonempty (cellValue x)) as H.
  destruct (number (cellValue x)); [congruence|simpl; lia].
Qed.

Lemma number_digits_length fuel : forall n acc,
  (length acc <= length (number_digits fuel n acc))%nat.
Proof.
  induction fuel as [|fuel IH]; intros n acc; simpl; [lia|].
  destruct (n <? 10); [simpl; lia|].
  etransitivity; [|apply IH]. simpl. lia.
Qed.

Lemma cellToString_wide (x : Cell) :
  10 <= cellValue x -> (2 <= length (cellToString x))%nat.
Proof.
  intros Hv. unfold cellToString. cbv zeta.
  replace (cellValue x <? 1) with false by (symmetry; apply Z.ltb_ge; lia).
  unfold number.
  replace (cellValue x <? 0) with false by (symmetry; apply Z.ltb_ge; lia).
  change (number_digits 10 (cellValue x) []) with
    (if cellValue x <? 10 then [digitChar (cellValue x mod 10)]
     else number_digits 9 (cellValue x / 10) [digitChar (cellValue x mod 10)]).
  replace (cellValue x <? 10) with false by (symmetry; apply Z.ltb_ge; lia).
  change (number_digits 9 (cellValue x / 10) [digitChar (cellValue x mod 10)]) with
    (if cellValue x / 10 <? 10
     then [digitChar ((cellValue x / 10) mod 10); digitChar (cellValue x mod 10)]
     else number_digits 8 (cellValue x / 10 / 10)
            [digitChar ((cellValue x / 10) mod 10); digitChar (cellValue x mod 10)]).
  destruct (cellValue x / 10 <? 10); [simpl; lia|].
  etransitivity; [|apply number_digits_length]. simpl. lia.
Qed.

(** ** The string of a grid *)

Lemma UIGridToStringGrid_flat (g : UIGrid) :
  UIGridToStringGrid g = concat (map cellToString (concat g)).
Proof.
  unfold UIGridToStringGrid. induction g as [|row g IH]; simpl; [reflexivity|].
  rewrite map_app, concat_app, IH. reflexivity.
Qed.

Lemma concat_singletons {A B} (f : A -> list B) (h : A -> B) (l : list A) :
  Forall (fun x => f x = [h x]) l -> concat (map f l) = map h l.
Proof.
  induction 1 as [|x l Hx _ IH]; simpl; [reflexivity|].
  rewrite Hx, IH. reflexivity.
Qed.

Lemma Forall_concat_rows {A} (P : A -> Prop) (g : list (list A)) :
  Forall (Forall P) g -> Forall P (concat g).
Proof.
  induction 1 as [|row g Hrow _ IH]; simpl; [constructor|].
  apply Forall_app. split; assumption.
Qed.

Lemma Forall_rows_cellAt {A} (P : A -> Prop) (g : list (list A)) a b x :
  Forall (Forall P) g -> cellAt g a b = Some x -> P x.
Proof.
  intros Hg Hx. unfold cellAt in Hx. destruct (g !! a) as [row|] eqn:Hrow; [|discriminate].
  rewrite Forall_forall in Hg. specialize (Hg row (list_elem_of_lookup_2 _ _ _ Hrow)).
  rewrite Forall_forall in Hg. apply Hg. eapply list_elem_of_lookup_2; eauto.
Qed.

Lemma UIGridToStringGrid_narrow (g : UIGrid) :
  Forall (Forall (holdsUpTo 9)) g ->
  UIGridToStringGrid g = map cellChar (concat g).
Proof.
  intros Hg. rewrite UIGridToStringGrid_flat. apply concat_singletons.
  eapply Forall_impl; [apply Forall_concat_rows, Hg|].
  intros x. apply cellToString_narrow.
Qed.

Lemma concat_length_ge {A B} (f : A -> list B) (l : list A) :
  (forall x, (1 <= length (f x))%nat) ->
  (length l <= length (concat (map f l)))%nat.
Proof.
  intros Hf. induction l as [|x l IH]; simpl; [lia|].
  rewrite length_app. specialize (Hf x). lia.
Qed.

Lemma concat_length_gt {A B} (f : A -> list B) (l : list A) x :
  (forall y, (1 <= length (f y))%nat) -> In x l -> (2 <= length (f x))%nat ->
  (length l < length (concat (map f l)))%nat.
Proof.
  intros Hf Hin Hx. induction l as [|y l IH]; simpl; [destruct Hin|].
  rewrite length_app. destruct Hin as [->|Hin].
  - pose proof (concat_length_ge f l Hf). lia.
  - specialize (IH Hin). specialize (Hf y). lia.
Qed.

(** ** Serializing and loading back *)

Lemma cellAt_bounds {A} n (g : list (list A)) a b x :
  square n g -> cellAt g a b = Some x -> (a < n)%nat /\ (b < n)%nat.
Proof.
  intros Hsq Hx. unfold cellAt in Hx.
  destruct (g !! a) as [row|] eqn:Hrow; [|discriminate].
  pose proof (square_row n g a row Hsq Hrow) as Hlen.
  apply lookup_lt_Some in Hrow. apply lookup_lt_Some in Hx.
  destruct Hsq as [Hg _]. lia.
Qed.

Lemma cellAt_In_concat {A} n (g : list (list A)) a b x :
  square n g -> cellAt g a b = Some x -> In x (concat g).
Proof.
  intros Hsq Hx. destruct (cellAt_bounds n g a b x Hsq Hx) as [_ Hb].
  rewrite <- (concat_lookup n g a b (proj2 Hsq) Hb) in Hx.
  apply list_elem_of_In. eapply list_elem_of_lookup_2; eauto.
Qed.

(** When every cell holds at most 9, loading the grid's string into any
    grid of the same size restores each cell to what [setCellValue] writes
    for its value. *)
Lemma roundtrip_cells n (g g0 : UIGrid) :
  square n g -> square n g0 -> Forall (Forall (holdsUpTo 9)) g ->
  exists g', stringGridToUIGrid g0 (UIGridToStringGrid g) = Ok g' /\ square n g' /\
    forall a b x, cellAt g a b = Some x ->
      cellAt g' a b = Some (setCellValue (cellValue x)).
Proof.
  intros Hsq Hsq0 Hnarrow. rewrite (UIGridToStringGrid_narrow g Hnarrow).
  destruct (stringGridToUIGrid_exact n g0 (map cellChar (concat g)) Hsq0)
    as (g' & Hrun & Hsq' & Hcell).
  { rewrite length_map. apply concat_square_length, Hsq. }
  exists g'. split; [exact Hrun|]. split; [exact Hsq'|].
  intros a b x Hx. destruct (cellAt_bounds n g a b x Hsq Hx) as [Ha Hb].
  rewrite (Hcell a b Ha Hb).
  change (map cellChar (concat g)) with (cellChar <$> concat g).
  rewrite list_lookup_fmap, (concat_lookup n g a b (proj2 Hsq) Hb), Hx. simpl.
  f_equal. apply loadChar_cellChar. eapply Forall_rows_cellAt; eauto.
Qed.

Lemma roundtrip_values n (g g0 : UIGrid) :
  square n g -> square n g0 -> Forall (Forall (holdsUpTo 9)) g ->
  exists g', stringGridToUIGrid g0 (UIGridToStringGrid g) = Ok g' /\
    UIGridToGrid g' = UIGridToGrid g /\
    (Forall (Forall canonical) g -> g' = g).
Proof.
  intros Hsq Hsq0 Hnarrow.
  destruct (roundtrip_cells n g g0 Hsq Hsq0 Hnarrow) as (g' & Hrun & Hsq' & Hcell).
  exists g'. split; [exact Hrun|]. split.
  - apply (square_ext n); [apply square_map, Hsq'|apply square_map, Hsq|].
    intros a b Ha Hb. unfold UIGridToGrid. rewrite !cell_map.
    destruct (cell_is_Some n g a b Hsq Ha Hb) as [x Hx].
    rewrite (Hcell a b x Hx), Hx. simpl. f_equal.
    rewrite <- loadChar_cellChar by (eapply Forall_rows_cellAt; eauto).
    apply cellValue_loadChar_cellChar. eapply Forall_rows_cellAt; eauto.
  - intros Hcanon. apply (square_ext n); [exact Hsq'|exact Hsq|].
    intros a b Ha Hb. destruct (cell_is_Some n g a b Hsq Ha Hb) as [x Hx].
    rewrite (Hcell a b x Hx), Hx. f_equal. symmetry.
    apply (Forall_rows_cellAt canonical g a b x Hcanon Hx).
Qed.

Lemma holdsUpTo_mono (m m' : Z) (x : Cell) : m <= m' -> holdsUpTo m x -> holdsUpTo m' x.
Proof. intros Hm [->|Hv]; [left; reflexivity|right; lia]. Qed.

Lemma validGrid_narrow n (g : UIGrid) :
  (n <= 9)%nat -> validGrid n g -> Forall (Forall (holdsUpTo 9)) g.
Proof.
  intros Hn [_ Hg]. eapply Forall_impl; [exact Hg|]. intros row Hrow.
  eapply Forall_impl; [exact Hrow|]. intros x. apply holdsUpTo_mono. lia.
Qed.

(** With a cell holding 10 or more the string has more than [n * n]
    characters, and loading it runs past the last row. *)
Lemma roundtrip_wide_overflow n (g g0 : UIGrid) a b x :
  square n g -> square n g0 -> cellAt g a b = Some x -> 10 <= cellValue x ->
  stringGridToUIGrid g0 (UIGridToStringGrid g) = OutOfRange (Z.of_nat n) 0.
Proof.
  intros Hsq Hsq0 Hx Hv. apply stringGridToUIGrid_overflow; [exact Hsq0|].
  rewrite UIGridToStringGrid_flat. unfold size.
  pose proof (concat_length_gt cellToString (concat g) x cellToString_length
                (cellAt_In_concat n g a b x Hsq Hx) (cellToString_wide x Hv)) as Hlen.
  rewrite (concat_square_length n g Hsq) in Hlen. lia.
Qed.

(** C1 (as amended): for every valid grid G of side N whose cells hold at
    most 9 (every valid grid when N <= 9), loading the string produced by
    [UIGridToStringGrid] into any grid of the same size succeeds and yields
    a grid with the same cell values as G, and the very same grid when the
    cells of G carry the text that [setCellValue] writes; every empty cell
    is rendered as a dot. *)
Theorem string_roundtrip (n : nat) (g g0 : UIGrid) :
  validGrid n g -> square n g0 ->
  (n <= 9)%nat \/ Forall (Forall (holdsUpTo 9)) g ->
  (exists g', stringGridToUIGrid g0 (UIGridToStringGrid g) = Ok g' /\
     UIGridToGrid g' = UIGridToGrid g /\
     (Forall (Forall canonical) g -> g' = g)) /\
  (forall a b, cellAt g a b = Some [] ->
     UIGridToStringGrid g !! (a * n + b)%nat = Some "."%char).
Proof.
  intros Hvalid Hsq0 Hsmall.
  assert (Forall (Forall (holdsUpTo 9)) g) as Hnarrow.
  { destruct Hsmall as [Hn|H]; [apply (validGrid_narrow n g Hn Hvalid)|exact H]. }
  destruct Hvalid as [Hsq _]. split.
  - apply (roundtrip_values n); assumption.
  - intros a b Hx. destruct (cellAt_bounds n g a b _ Hsq Hx) as [_ Hb].
    rewrite (UIGridToStringGrid_narrow g Hnarrow).
    change (map cellChar (concat g)) with (cellChar <$> concat g).
    rewrite list_lookup_fmap, (concat_lookup n g a b (proj2 Hsq) Hb), Hx.
    reflexivity.
Qed.

Ltac cells_ok :=
  repeat first [apply List.Forall_nil | apply List.Forall_cons];
  first [left; reflexivity | right; vm_compute; split; discriminate].

Ltac square_ok := split; [reflexivity|repeat constructor].

Lemma validGrid_grid4x4 : validGrid 4 grid4x4.
Proof. split; [square_ok|cells_ok]. Qed.

Lemma string_roundtrip_witness :
  (exists g', stringGridToUIGrid (repeat (repeat [] 4%nat) 4%nat)
                (UIGridToStringGrid grid4x4) = Ok g' /\
     UIGridToGrid g' = UIGridToGrid grid4x4 /\
     (Forall (Forall canonical) grid4x4 -> g' = grid4x4)) /\
  (forall a b, cellAt grid4x4 a b = Some [] ->
     UIGridToStringGrid grid4x4 !! (a * 4 + b)%nat = Some "."%char).
Proof.
  apply (string_roundtrip 4 grid4x4 (repeat (repeat [] 4%nat) 4%nat)).
  - exact validGrid_grid4x4.
  - apply square_repeat.
  - left. lia.
Defined.

(** C1, counterexample: the valid 16-by-16 grid whose first cell holds 12
    is serialized to 257 characters, and loading that string back does not
    give the grid: the loader runs past the last row. *)
Lemma string_roundtrip_fails_wide :
  validGrid 16 grid16wide /\
  stringGridToUIGrid grid16wide (UIGridToStringGrid grid16wide) = OutOfRange 16 0 /\
  ~ (exists g', stringGridToUIGrid grid16wide (UIGridToStringGrid grid16wide) = Ok g' /\
                UIGridToGrid g' = UIGridToGrid grid16wide).
Proof.
  assert (stringGridToUIGrid grid16wide (UIGridToStringGrid grid16wide)
          = OutOfRange 16 0) as Hrun by (vm_compute; reflexivity).
  split; [split; [square_ok|cells_ok]|]. split; [exact Hrun|].
  intros (g' & Hok & _). rewrite Hrun in Hok. discriminate.
Qed.

(** C3 (as amended): for a grid of side N > 9 the string is the
    concatenation, without separators, of one piece per cell in row-major
    order: a dot for an empty cell, one decimal digit for a value 1-9 and
    two decimal digits for a value 10-16.  The loader does not decode by
    longest match: it gives each cell exactly one character, so no loaded
    cell holds more than 9.  Serializing and then loading a grid of that
    side recovers every cell value when no cell holds more than 9. *)
Theorem string_format_wide (n : nat) (g g0 : UIGrid) :
  (9 < n)%nat -> validGrid n g -> square n g0 ->
  UIGridToStringGrid g = concat (map cellToString (concat g)) /\
  (forall x : Cell,
     (x = [] -> cellToString x = ["."%char]) /\
     (1 <= cellValue x <= 9 -> cellToString x = [digitChar (cellValue x)]) /\
     (10 <= cellValue x <= 16 ->
        cellToString x = ["1"%char; digitChar (cellValue x - 10)])) /\
  (forall s : QString, length s = (n * n)%nat ->
     exists g', stringGridToUIGrid g0 s = Ok g' /\ square n g' /\
       forall a b, (a < n)%nat -> (b < n)%nat ->
         cellAt g' a b = loadChar <$> s !! (a * n + b)%nat) /\
  (forall c : ascii, cellValue (loadChar c) <= 9) /\
  (Forall (Forall (holdsUpTo 9)) g ->
     exists g', stringGridToUIGrid g0 (UIGridToStringGrid g) = Ok g' /\
       UIGridToGrid g' = UIGridToGrid g).
Proof.
  intros Hn [Hsq Hvalid] Hsq0. split; [apply UIGridToStringGrid_flat|].
  split; [|split; [|split]].
  - intros x. split; [|split].
    + intros ->. reflexivity.
    + intros Hv. rewrite cellToString_narrow by (right; exact Hv). unfold cellChar.
      replace (cellValue x <? 1) with false by (symmetry; apply Z.ltb_ge; lia).
      reflexivity.
    + intros Hv. unfold cellToString. cbv zeta.
      replace (cellValue x <? 1) with false by (symmetry; apply Z.ltb_ge; lia).
      rewrite number_two_digits by lia.
      replace (cellValue x / 10) with 1
        by (apply Z.div_unique with (r := cellValue x - 10); lia).
      replace (cellValue x mod 10) with (cellValue x - 10)
        by (apply Z.mod_unique with (q := 1); lia).
      reflexivity.
  - intros s Hs. apply stringGridToUIGrid_exact; assumption.
  - intros c. rewrite loadChar_spec. pose proof (digitValue_range c) as Hr.
    destruct (digitValue c <? 1) eqn:E; [rewrite cellValue_empty; lia|].
    apply Z.ltb_ge in E.
    rewrite <- (digitChar_digitValue c) by lia.
    rewrite <- number_one_digit by lia.
    rewrite cellValue_number by (unfold INT_MIN, INT_MAX; lia). lia.
  - intros Hnarrow.
    destruct (roundtrip_values n g g0 Hsq Hsq0 Hnarrow) as (g' & Hrun & Hval & _).
    exists g'. split; assumption.
Qed.

Lemma string_format_wide_witness :
  UIGridToStringGrid grid16narrow = concat (map cellToString (concat grid16narrow)) /\
  exists g', stringGridToUIGrid (repeat (repeat [] 16%nat) 16%nat)
               (UIGridToStringGrid grid16narrow) = Ok g' /\
             UIGridToGrid g' = UIGridToGrid grid16narrow.
Proof.
  destruct (string_format_wide 16 grid16narrow (repeat (repeat [] 16%nat) 16%nat))
    as (Hflat & _ & _ & _ & Hback).
  - lia.
  - split; [square_ok|cells_ok].
  - apply square_repeat.
  - split; [exact Hflat|]. apply Hback. cells_ok.
Defined.

(** C3, counterexample: a solved 16-by-16 grid is serialized with two
    characters for each value 10-16 (368 characters in all); loading the
    string does not decode them and does not recover the grid. *)
Lemma string_format_wide_no_longest_match :
  validGrid 16 solved16 /\
  length (UIGridToStringGrid solved16) = 368%nat /\
  stringGridToUIGrid (repeat (repeat [] 16%nat) 16%nat) (UIGridToStringGrid solved16)
    = OutOfRange 16 0 /\
  ~ (exists g', stringGridToUIGrid (repeat (repeat [] 16%nat) 16%nat)
                  (UIGridToStringGrid solved16) = Ok g' /\
                UIGridToGrid g' = UIGridToGrid solved16).
Proof.
  assert (stringGridToUIGrid (repeat (repeat [] 16%nat) 16%nat)
            (UIGridToStringGrid solved16) = OutOfRange 16 0) as Hrun
    by (vm_compute; reflexivity).
  split; [split; [square_ok|cells_ok]|].
  split; [vm_compute; reflexivity|]. split; [exact Hrun|].
  intros (g' & Hok & _). rewrite Hrun in Hok. discriminate.
Qed.

(** ** Generating the grid *)

Lemma extendBy_ext (f h : nat -> nat) (g : UIGrid) :
  (forall r, (r < length g)%nat -> f r = h r) -> extendBy f g = extendBy h g.
Proof.
  intros Hfh. apply list_eq. intros r. unfold extendBy. rewrite !list_lookup_imap.
  destruct (g !! r) as [row|] eqn:Hrow; simpl; [|reflexivity].
  rewrite Hfh by (eapply lookup_lt_Some; eauto). reflexivity.
Qed.

Lemma extendBy_zero (g : UIGrid) : extendBy (fun _ => 0%nat) g = g.
Proof.
  apply list_eq. intros r. unfold extendBy. rewrite list_lookup_imap.
  destruct (g !! r); simpl; [|reflexivity]. rewrite app_nil_r. reflexivity.
Qed.

Lemma extendBy_length (f : nat -> nat) (g : UIGrid) : length (extendBy f g) = length g.
Proof. apply length_imap. Qed.

Lemma extendBy_extendBy (f h : nat -> nat) (g : UIGrid) :
  extendBy f (extendBy h g) = extendBy (fun r => (h r + f r)%nat) g.
Proof.
  apply list_eq. intros r. unfold extendBy. rewrite !list_lookup_imap.
  destruct (g !! r); simpl; [|reflexivity].
  rewrite <- app_assoc, <- repeat_app. reflexivity.
Qed.

Lemma alter_extendBy (ri : nat) (g : UIGrid) :
  alter (fun row => row ++ [[]]) ri g
  = extendBy (fun r => if decide (r = ri) then 1%nat else 0%nat) g.
Proof.
  apply list_eq. intros r. unfold extendBy. rewrite list_lookup_imap.
  destruct (decide (r = ri)) as [->|Hne].
  - rewrite list_lookup_alter_eq. reflexivity.
  - rewrite list_lookup_alter_ne by auto.
    destruct (g !! r); simpl; [|reflexivity]. rewrite app_nil_r. reflexivity.
Qed.

Lemma forLoop_rows (n : nat) (s : UIGrid * list Widget) :
  forLoop n (fun _ s => (s.1 ++ [[]], s.2)) s = (s.1 ++ repeat [] n, s.2).
Proof.
  induction n as [|n IH]; simpl.
  - rewrite app_nil_r. destruct s; reflexivity.
  - rewrite IH. simpl. rewrite <- app_assoc. f_equal. f_equal.
    symmetry. apply repeat_cons.
Qed.

Section RegionLoops.
(** [c] is [columnsInRegion]. *)
Variable c : nat.

Lemma forLoop_cells (ri : Z) (m : nat) (s : UIGrid * list Widget) :
  (forLoop m (fun _ : Z => addCell ri) s).1
  = extendBy (fun r => if decide (r = Z.to_nat ri) then m else 0%nat) s.1.
Proof.
  induction m as [|m IH]; simpl.
  - rewrite <- (extendBy_zero s.1) at 1. apply extendBy_ext.
    intros r _. case_decide; reflexivity.
  - rewrite IH, alter_extendBy, extendBy_extendBy. apply extendBy_ext.
    intros r _. case_decide; lia.
Qed.

Lemma forLoop_region_rows (si : Z) (m : nat) (s : UIGrid * list Widget) :
  0 <= si ->
  (forLoop m (fun i => forLoop c (fun _ : Z => addCell (i + si * Z.of_nat c))) s).1
  = extendBy (fun r => if decide (Z.to_nat si * c <= r < Z.to_nat si * c + m)%nat
                       then c else 0%nat) s.1.
Proof.
  intros Hsi. induction m as [|m IH].
  - simpl. rewrite <- (extendBy_zero s.1) at 1. apply extendBy_ext.
    intros r _. case_decide; [lia|reflexivity].
  - change (forLoop (S m) ?body s) with (body (Z.of_nat m) (forLoop m body s)).
    cbv beta.
    rewrite forLoop_cells, IH, extendBy_extendBy. apply extendBy_ext.
    intros r _.
    replace (Z.to_nat (Z.of_nat m + si * Z.of_nat c)) with (Z.to_nat si * c + m)%nat by nia.
    repeat case_decide; lia.
Qed.

Lemma forLoop_region_band (si : Z) (m : nat) (s : UIGrid * list Widget) :
  0 <= si ->
  (forLoop m (fun (sj : Z) s =>
     addFrame (forLoop c (fun i =>
       forLoop c (fun _ : Z => addCell (i + si * Z.of_nat c))) s)) s).1
  = extendBy (fun r => if decide (Z.to_nat si * c <= r < Z.to_nat si * c + c)%nat
                       then (m * c)%nat else 0%nat) s.1.
Proof.
  intros Hsi. induction m as [|m IH].
  - simpl. rewrite <- (extendBy_zero s.1) at 1. apply extendBy_ext.
    intros r _. case_decide; reflexivity.
  - change (forLoop (S m) ?body s) with (body (Z.of_nat m) (forLoop m body s)).
    cbv beta.
    unfold addFrame at 1. cbn [fst].
    rewrite forLoop_region_rows, IH, extendBy_extendBy by exact Hsi.
    apply extendBy_ext. intros r _. repeat case_decide; lia.
Qed.

Lemma forLoop_regions (k m : nat) (s : UIGrid * list Widget) :
  (forLoop m (fun si =>
     forLoop k (fun (sj : Z) s =>
       addFrame (forLoop c (fun i =>
         forLoop c (fun _ : Z => addCell (i + si * Z.of_nat c))) s))) s).1
  = extendBy (fun r => if decide (r < m * c)%nat then (k * c)%nat else 0%nat) s.1.
Proof.
  induction m as [|m IH].
  - simpl. rewrite <- (extendBy_zero s.1) at 1. apply extendBy_ext.
    intros r _. reflexivity.
  - change (forLoop (S m) ?body s) with (body (Z.of_nat m) (forLoop m body s)).
    cbv beta.
    rewrite forLoop_region_band, IH, extendBy_extendBy by lia.
    apply extendBy_ext. intros r _. rewrite Nat2Z.id.
    repeat case_decide; lia.
Qed.
End RegionLoops.

Lemma sqrtHasFraction_false (n : Z) :
  sqrtHasFraction n = false <-> exists r, r * r = n.
Proof.
  unfold sqrtHasFraction. rewrite negb_false_iff, Z.eqb_eq. split.
  - intros H. exists (Z.sqrt n). exact H.
  - intros [r Hr]. subst n. rewrite <- (Z.abs_square r) at 1 2 3.
    rewrite Z.sqrt_square by apply Z.abs_nonneg. reflexivity.
Qed.

Lemma lookup_repeat {A} (x : A) (n r : nat) :
  repeat x n !! r = if decide (r < n)%nat then Some x else None.
Proof.
  revert r. induction n as [|n IH]; intros r.
  - rewrite decide_False by lia. apply lookup_nil.
  - destruct r as [|r].
    + rewrite decide_True by lia. reflexivity.
    + change (repeat x (S n) !! S r) with (repeat x n !! r). rewrite IH.
      destruct (decide (r < n)%nat).
      * rewrite decide_True by lia. reflexivity.
      * rewrite decide_False by lia. reflexivity.
Qed.

Lemma extendBy_repeat (n : nat) :
  extendBy (fun r => if decide (r < n)%nat then n else 0%nat) (repeat [] n)
  = repeat (repeat [] n) n.
Proof.
  apply list_eq. intros r. unfold extendBy.
  rewrite list_lookup_imap, !lookup_repeat.
  case_decide; simpl; reflexivity.
Qed.

Lemma generateGrid_success (w : MainWindow) (size : Z) :
  wellFormed w -> 4 <= size -> (exists r, r * r = size) ->
  (generateGrid w size).1 = true /\
  grid (generateGrid w size).2 = repeat (repeat [] (Z.to_nat size)) (Z.to_nat size) /\
  sudokuGridWidgets (generateGrid w size).2 <> [] /\
  statusBar (generateGrid w size).2 = statusBar w.
Proof.
  intros Hwf Hsize Hsq. unfold generateGrid.
  replace (size <? 4) with false by (symmetry; apply Z.ltb_ge; lia).
  rewrite (proj2 (sqrtHasFraction_false size) Hsq).
  apply sqrtHasFraction_false in Hsq. unfold sqrtHasFraction in Hsq.
  rewrite negb_false_iff, Z.eqb_eq in Hsq.
  assert (2 <= Z.sqrt size) as Hroot.
  { pose proof (Z.sqrt_nonneg size). nia. }
  assert (size / Z.sqrt size = Z.sqrt size) as ->.
  { rewrite <- Hsq at 1. apply Z.div_mul. lia. }
  assert (match sudokuGridWidgets w with
          | [] => (grid w, [])
          | _ :: _ => ([], [])
          end = (([] : UIGrid), ([] : list Widget))) as ->.
  { unfold wellFormed in Hwf. destruct (sudokuGridWidgets w); [|reflexivity].
    rewrite Hwf by reflexivity. reflexivity. }
  cbv zeta. rewrite forLoop_rows. cbn [fst snd app].
  split; [reflexivity|]. cbn [fst snd grid sudokuGridWidgets statusBar].
  assert (Z.to_nat size = (Z.to_nat (Z.sqrt size) * Z.to_nat (Z.sqrt size))%nat) as Hn by nia.
  assert (Z.sqrt size = Z.of_nat (Z.to_nat (Z.sqrt size))) as Hk by lia.
  assert (Z.to_nat (Z.sqrt size) <> 0%nat) as Hpos by lia.
  rewrite Hn. rewrite Hk. generalize dependent (Z.to_nat (Z.sqrt size)). clear Hroot Hsq.
  intros k _ _ Hpos. rewrite Nat2Z.id.
  split; [|split; [|reflexivity]].
  - rewrite forLoop_regions. cbn [fst]. apply extendBy_repeat.
  - destruct k as [|k]; [congruence|].
    cbn [forLoop addFrame snd]. intros H. apply app_eq_nil in H.
    destruct H as [_ H]. discriminate.
Qed.

Lemma generateGrid_failure (w : MainWindow) (size : Z) :
  size < 4 \/ ~ (exists r, r * r = size) -> generateGrid w size = (false, w).
Proof.
  intros H. unfold generateGrid. destruct (size <? 4) eqn:E; [reflexivity|].
  apply Z.ltb_ge in E. destruct H as [H|H]; [lia|].
  destruct (sqrtHasFraction size) eqn:Hs; [reflexivity|].
  apply sqrtHasFraction_false in Hs. contradiction.
Qed.

Lemma wellFormed_newWindow : wellFormed newWindow.
Proof. intros _. reflexivity. Qed.

Lemma perfect_square_dec (size : Z) : {exists r, r * r = size} + {~ exists r, r * r = size}.
Proof.
  destruct (sqrtHasFraction size) eqn:E.
  - right. intros H. apply sqrtHasFraction_false in H. congruence.
  - left. apply sqrtHasFraction_false, E.
Qed.

(** C6: generating the grid for a size N fails exactly when N < 4 or N is
    not the square of an integer, and then leaves the window as it was; for
    every other N it succeeds and the window holds an N-by-N grid of empty
    cells. *)
Theorem generateGrid_spec (w : MainWindow) (size : Z) :
  wellFormed w ->
  ((generateGrid w size).1 = false <-> size < 4 \/ ~ (exists r, r * r = size)) /\
  ((generateGrid w size).1 = false -> (generateGrid w size).2 = w) /\
  ((generateGrid w size).1 = true ->
     grid (generateGrid w size).2
     = repeat (repeat [] (Z.to_nat size)) (Z.to_nat size) /\
     square (Z.to_nat size) (grid (generateGrid w size).2) /\
     UIGridToGrid (grid (generateGrid w size).2)
     = repeat (repeat (-1) (Z.to_nat size)) (Z.to_nat size) /\
     wellFormed (generateGrid w size).2).
Proof.
  intros Hwf.
  destruct (Z_lt_ge_dec size 4) as [Hlt|Hge].
  - rewrite (generateGrid_failure w size) by (left; exact Hlt). cbn [fst snd].
    split; [split; [left; exact Hlt|reflexivity]|]. split; [reflexivity|discriminate].
  - destruct (perfect_square_dec size) as [Hsq|Hnsq].
    + destruct (generateGrid_success w size Hwf ltac:(lia) Hsq) as (Hok & Hgrid & Hws & _).
      rewrite Hok. split; [split; [discriminate|]|].
      { intros [H|H]; [lia|contradiction]. }
      split; [discriminate|]. intros _. rewrite Hgrid.
      split; [reflexivity|]. split; [apply square_repeat|]. split.
      * unfold UIGridToGrid. rewrite map_repeat, map_repeat. reflexivity.
      * intros H. contradiction.
    + rewrite (generateGrid_failure w size) by (right; exact Hnsq). cbn [fst snd].
      split; [split; [right; exact Hnsq|reflexivity]|].
      split; [reflexivity|discriminate].
Qed.

Lemma generateGrid_spec_witness :
  (generateGrid newWindow 9).1 = true /\
  grid (generateGrid newWindow 9).2 = repeat (repeat [] 9%nat) 9%nat /\
  (generateGrid newWindow 8).1 = false.
Proof.
  destruct (generateGrid_spec newWindow 9 wellFormed_newWindow) as (Hiff & _ & Hok).
  destruct (generateGrid_spec newWindow 8 wellFormed_newWindow) as (Hiff8 & _ & _).
  assert ((generateGrid newWindow 9).1 = true) as H9 by (vm_compute; reflexivity).
  split; [exact H9|]. split; [apply Hok, H9|].
  apply Hiff8. right. intros H. apply sqrtHasFraction_false in H.
  vm_compute in H. discriminate.
Defined.

(** ** Import *)

Lemma import_cancelled (w : MainWindow) (ok : bool) (text : QString) :
  ok = false \/ text = [] ->
  on_pushButtonImport_clicked w ok text = Ok (showMessage w "Failed to import! Wrong data.").
Proof.
  intros [->| ->]; unfold on_pushButtonImport_clicked; [reflexivity|].
  rewrite bool_decide_eq_true_2 by reflexivity. rewrite andb_false_r. reflexivity.
Qed.

Lemma import_same_size (w : MainWindow) (text : QString) (n : nat) :
  square n (grid w) -> text <> [] -> length text = (n * n)%nat ->
  exists g', stringGridToUIGrid (grid w) text = Ok g' /\
    on_pushButtonImport_clicked w true text = Ok (showMessage (withGrid w g') "Imported!") /\
    square n g' /\
    forall a b, (a < n)%nat -> (b < n)%nat ->
      cellAt g' a b = loadChar <$> text !! (a * n + b)%nat.
Proof.
  intros Hsq Hne Hlen.
  destruct (stringGridToUIGrid_exact n (grid w) text Hsq Hlen) as (g' & Hrun & Hsq' & Hcell).
  exists g'. split; [exact Hrun|]. split; [|split; assumption].
  unfold on_pushButtonImport_clicked.
  rewrite (bool_decide_eq_false_2 (text = [])) by exact Hne. cbn [andb negb].
  rewrite bool_decide_eq_false_2.
  - rewrite Hrun. reflexivity.
  - intros H. apply H. rewrite (size_square n _ Hsq). unfold size. lia.
Qed.

Lemma import_resized (w : MainWindow) (text : QString) (n m : nat) :
  wellFormed w -> square n (grid w) -> length text <> (n * n)%nat ->
  length text = (m * m)%nat -> validSize (Z.of_nat m) ->
  exists g', on_pushButtonImport_clicked w true text
             = Ok (showMessage (withGrid (generateGrid w (Z.of_nat m)).2 g') "Imported!") /\
    square m g' /\
    forall a b, (a < m)%nat -> (b < m)%nat ->
      cellAt g' a b = loadChar <$> text !! (a * m + b)%nat.
Proof.
  intros Hwf Hsq Hlen Hm [Hm4 Hmsq].
  destruct (generateGrid_success w (Z.of_nat m) Hwf Hm4 Hmsq) as (Hok & Hgrid & _ & _).
  rewrite Nat2Z.id in Hgrid.
  destruct (stringGridToUIGrid_exact m (grid (generateGrid w (Z.of_nat m)).2) text)
    as (g' & Hrun & Hsq' & Hcell).
  { rewrite Hgrid. apply square_repeat. }
  { exact Hm. }
  exists g'. split; [|split; assumption].
  unfold on_pushButtonImport_clicked.
  assert (text <> []) as Hne by (intros ->; simpl in Hm; lia).
  rewrite (bool_decide_eq_false_2 (text = [])) by exact Hne. cbn [andb negb].
  rewrite bool_decide_eq_true_2
    by (rewrite (size_square n _ Hsq); unfold size; lia).
  assert (size text = Z.of_nat m * Z.of_nat m) as Hsize by (unfold size; lia).
  rewrite (proj2 (sqrtHasFraction_false (size text))) by (exists (Z.of_nat m); lia).
  cbn [negb]. rewrite Hsize, Z.sqrt_square by lia.
  destruct (generateGrid w (Z.of_nat m)) as [generated w1]. cbn [fst snd] in *.
  subst generated. rewrite Hrun. reflexivity.
Qed.

Lemma import_invalid_size (w : MainWindow) (text : QString) (n : nat) :
  square n (grid w) -> text <> [] -> length text <> (n * n)%nat ->
  ~ (exists m : nat, length text = (m * m)%nat /\ validSize (Z.of_nat m)) ->
  on_pushButtonImport_clicked w true text
  = Ok (showMessage w "Invalid grid size! Only NxN grids supported.").
Proof.
  intros Hsq Hne Hlen Hnone. unfold on_pushButtonImport_clicked.
  rewrite (bool_decide_eq_false_2 (text = [])) by exact Hne. cbn [andb negb].
  rewrite bool_decide_eq_true_2
    by (rewrite (size_square n _ Hsq); unfold size; lia).
  destruct (sqrtHasFraction (size text)) eqn:Hfrac; [reflexivity|]. cbn [negb].
  rewrite generateGrid_failure; [reflexivity|].
  unfold sqrtHasFraction in Hfrac. rewrite negb_false_iff, Z.eqb_eq in Hfrac.
  pose proof (Z.sqrt_nonneg (size text)) as Hnn.
  destruct (Z_lt_ge_dec (Z.sqrt (size text)) 4) as [Hlt|Hge]; [left; exact Hlt|].
  right. intros Hsqr. apply Hnone. exists (Z.to_nat (Z.sqrt (size text))).
  rewrite Z2Nat.id by lia. split; [unfold size in *; nia|]. split; [lia|exact Hsqr].
Qed.

Lemma importSize_dec (len : nat) :
  {m : nat | len = (m * m)%nat /\ validSize (Z.of_nat m)} +
  {~ exists m : nat, len = (m * m)%nat /\ validSize (Z.of_nat m)}.
Proof.
  set (m := Z.to_nat (Z.sqrt (Z.of_nat len))).
  assert (forall m' : nat, len = (m' * m')%nat -> m' = m) as Huniq.
  { intros m' ->. unfold m. rewrite Nat2Z.inj_mul, Z.sqrt_square by lia. lia. }
  destruct (decide (len = (m * m)%nat)) as [Hlen|Hlen].
  - destruct (Z_lt_ge_dec (Z.of_nat m) 4) as [Hlt|Hge].
    + right. intros (m' & Hm' & [H4 _]). rewrite (Huniq m' Hm') in H4. lia.
    + destruct (perfect_square_dec (Z.of_nat m)) as [Hsq|Hnsq].
      * left. exists m. split; [exact Hlen|]. split; [lia|exact Hsq].
      * right. intros (m' & Hm' & [_ Hsq]). rewrite (Huniq m' Hm') in Hsq. contradiction.
  - right. intros (m' & Hm' & _). rewrite (Huniq m' Hm') in Hm'. contradiction.
Qed.


Lemma wellFormed_window4 : wellFormed window4.
Proof. intros H. vm_compute in H. discriminate. Qed.

Lemma square_window4 : square 4 (grid window4).
Proof. square_ok. Qed.



(** ** Writing a solution to the grid *)

Lemma gridToUIGrid_row_ok n (row : GridRow) :
  forall (g : UIGrid) i j,
    square n g -> 0 <= i < Z.of_nat n -> 0 <= j -> j + size row <= Z.of_nat n ->
    exists g', gridToUIGrid_row i j row g = Ok g' /\ square n g' /\
      forall a b, cellAt g' a b =
        if decide (a = Z.to_nat i /\ (Z.to_nat j <= b < Z.to_nat j + length row)%nat)
        then setCellValue <$> row !! (b - Z.to_nat j)%nat
        else cellAt g a b.
Proof.
  induction row as [|v rest IH]; intros g i j Hsq Hi Hj Hlen.
  - exists g. split; [reflexivity|]. split; [exact Hsq|].
    intros a b. simpl. rewrite decide_False by lia. reflexivity.
  - unfold size in Hlen. simpl length in Hlen.
    destruct (setCellAt_ok n g i j v Hsq Hi ltac:(lia)) as (g1 & Hset & Hsq1 & Hcell1).
    destruct (IH g1 i (j + 1) Hsq1 Hi ltac:(lia)) as (g' & Hrun & Hsq' & Hcell').
    { unfold size. lia. }
    exists g'. simpl. rewrite Hset. simpl. split; [exact Hrun|]. split; [exact Hsq'|].
    intros a b. rewrite Hcell', Hcell1. simpl length.
    destruct (decide (a = Z.to_nat i)) as [->|Ha].
    + destruct (decide (b = Z.to_nat j)) as [->|Hb].
      * rewrite decide_False by lia. rewrite decide_True by auto.
        rewrite decide_True by lia. rewrite Nat.sub_diag. reflexivity.
      * rewrite (decide_False (P := Z.to_nat i = Z.to_nat i /\ b = Z.to_nat j)) by tauto.
        destruct (decide (Z.to_nat (j + 1) <= b < Z.to_nat (j + 1) + length rest)%nat).
        -- rewrite decide_True by lia. rewrite decide_True by lia.
           replace (b - Z.to_nat j)%nat with (S (b - Z.to_nat (j + 1))) by lia.
           reflexivity.
        -- rewrite decide_False by lia. rewrite decide_False by lia. reflexivity.
    + rewrite !decide_False by tauto. reflexivity.
Qed.

Lemma gridToUIGrid_rows_ok n (sudoku : Grid) :
  forall (g : UIGrid) i,
    square n g -> 0 <= i -> i + size sudoku <= Z.of_nat n ->
    Forall (fun row => length row = n) sudoku ->
    exists g', gridToUIGrid_rows i sudoku g = Ok g' /\ square n g' /\
      forall a b, (b < n)%nat -> cellAt g' a b =
        if decide (Z.to_nat i <= a < Z.to_nat i + length sudoku)%nat
        then setCellValue <$> cellAt sudoku (a - Z.to_nat i) b
        else cellAt g a b.
Proof.
  induction sudoku as [|row rest IH]; intros g i Hsq Hi Hlen Hrows.
  - exists g. split; [reflexivity|]. split; [exact Hsq|].
    intros a b _. simpl. rewrite decide_False by lia. reflexivity.
  - unfold size in Hlen. simpl length in Hlen.
    apply Forall_cons in Hrows. destruct Hrows as [Hrow Hrows].
    destruct (gridToUIGrid_row_ok n row g i 0 Hsq ltac:(lia) ltac:(lia))
      as (g1 & Hrun1 & Hsq1 & Hcell1).
    { unfold size. lia. }
    destruct (IH g1 (i + 1) Hsq1 ltac:(lia)) as (g' & Hrun & Hsq' & Hcell'); [unfold size; lia|exact Hrows|].
    exists g'. simpl. rewrite Hrun1. simpl. split; [exact Hrun|]. split; [exact Hsq'|].
    intros a b Hb. rewrite (Hcell' a b Hb), Hcell1. simpl length.
    destruct (decide (a = Z.to_nat i)) as [->|Ha].
    + rewrite decide_False by lia. rewrite decide_True by (split; [reflexivity|]; lia).
      rewrite decide_True by lia. rewrite Nat.sub_diag, Nat.sub_0_r. reflexivity.
    + rewrite (decide_False (P := a = Z.to_nat i /\ _)) by tauto.
      destruct (decide (Z.to_nat (i + 1) <= a < Z.to_nat (i + 1) + length rest)%nat).
      * rewrite decide_True by lia.
        replace (a - Z.to_nat i)%nat with (S (a - Z.to_nat (i + 1))) by lia.
        reflexivity.
      * rewrite decide_False by lia. reflexivity.
Qed.

(** A solution of the grid's size replaces every cell. *)
Lemma gridToUIGrid_ok n (g : UIGrid) (sudoku : Grid) :
  square n g -> square n sudoku ->
  gridToUIGrid g sudoku = Ok (map (map setCellValue) sudoku).
Proof.
  intros Hsq Hsol. unfold gridToUIGrid.
  destruct (gridToUIGrid_rows_ok n sudoku (resetGrid g) 0) as (g' & Hrun & Hsq' & Hcell).
  { apply square_map, Hsq. }
  { lia. }
  { rewrite (size_square n _ Hsol). lia. }
  { apply Hsol. }
  rewrite Hrun. f_equal. apply (square_ext n); [exact Hsq'|apply square_map, Hsol|].
  intros a b Ha Hb. rewrite (Hcell a b Hb), cell_map.
  destruct Hsol as [Hlen _]. rewrite decide_True by lia.
  rewrite Nat.sub_0_r. reflexivity.
Qed.

(** ** The solve facade *)

Lemma solveGrid_unsolved (dlx : DLX) {double : Type} (w : MainWindow)
    (bench elapsed : double) :
  dlx_solve dlx (UIGridToGrid (grid w)) = false ->
  solveGrid dlx w bench elapsed = Ok (false, w, bench).
Proof. intros H. unfold solveGrid. rewrite H. reflexivity. Qed.

Lemma solveGrid_solved (dlx : DLX) {double : Type} (w : MainWindow)
    (bench elapsed : double) (g : UIGrid) :
  dlx_solve dlx (UIGridToGrid (grid w)) = true ->
  gridToUIGrid (grid w) (dlx_solution dlx (UIGridToGrid (grid w))) = Ok g ->
  solveGrid dlx w bench elapsed = Ok (true, withGrid w g, elapsed).
Proof. intros H Hg. unfold solveGrid. rewrite H, Hg. reflexivity. Qed.

(** C10: when the solver reports no solution, [solveGrid] returns false and
    leaves the window, its grid included, and the caller's [bench] as they
    were; whenever the grid differs afterwards the solver had found a
    solution, and the grid is that solution written by [gridToUIGrid]. *)
Theorem solveGrid_atomic (dlx : DLX) {double : Type} (w : MainWindow)
    (bench elapsed : double) :
  (dlx_solve dlx (UIGridToGrid (grid w)) = false ->
     solveGrid dlx w bench elapsed = Ok (false, w, bench)) /\
  (forall solved w' bench',
     solveGrid dlx w bench elapsed = Ok (solved, w', bench') ->
     grid w' <> grid w ->
     solved = true /\ dlx_solve dlx (UIGridToGrid (grid w)) = true /\
     gridToUIGrid (grid w) (dlx_solution dlx (UIGridToGrid (grid w))) = Ok (grid w')).
Proof.
  split; [apply solveGrid_unsolved|].
  intros solved w' bench' Hrun Hchanged. unfold solveGrid in Hrun.
  destruct (dlx_solve dlx (UIGridToGrid (grid w))).
  - destruct (gridToUIGrid (grid w) (dlx_solution dlx (UIGridToGrid (grid w))))
      as [g|i j]; simpl in Hrun; [|discriminate].
    inversion Hrun; subst. auto.
  - inversion Hrun; subst. contradiction.
Qed.

Lemma solveGrid_atomic_witness :
  solveGrid (constDLX false []) window4 0 5 = Ok (false, window4, 0).
Proof.
  apply (solveGrid_atomic (constDLX false []) window4 0 5). reflexivity.
Defined.

(** C8 (as amended): [solveGrid] returns the solver's verdict.  The elapsed
    milliseconds are stored in the caller's [bench] when the verdict is
    solved; when it is unsolvable [bench] keeps the value it had and the
    elapsed time is not reported. *)
Theorem solveGrid_timed (dlx : DLX) {double : Type} (w : MainWindow)
    (bench elapsed : double) :
  match solveGrid dlx w bench elapsed with
  | Ok (solved, w', bench') =>
      solved = dlx_solve dlx (UIGridToGrid (grid w)) /\
      bench' = (if solved then elapsed else bench)
  | OutOfRange i j =>
      dlx_solve dlx (UIGridToGrid (grid w)) = true /\
      gridToUIGrid (grid w) (dlx_solution dlx (UIGridToGrid (grid w))) = OutOfRange i j
  end.
Proof.
  unfold solveGrid. destruct (dlx_solve dlx (UIGridToGrid (grid w))).
  - destruct (gridToUIGrid (grid w) (dlx_solution dlx (UIGridToGrid (grid w))));
      simpl; split; reflexivity.
  - split; reflexivity.
Qed.

(** C8, counterexample: the solver finds no solution of the empty 4-by-4
    grid, the clock measured 5 ms, and the caller's variable still holds
    its initial 0 afterwards: the elapsed time is not part of the result. *)
Lemma solveGrid_unsolvable_drops_elapsed :
  exists w' bench',
    solveGrid (constDLX false []) window4 0 5 = Ok (false, w', bench') /\
    bench' = 0 /\ bench' <> 5.
Proof. exists window4, 0. split; [reflexivity|]. split; [reflexivity|discriminate]. Qed.

(** ** The test harness *)

(** C4 (as amended): for a test case whose expected string is "any" and on
    which the solver reports a solution, the harness classifies the case as
    passed and leaves [allPassed] as it was, whatever grid the solver
    returned: it rechecks neither uniqueness nor the givens. *)
Theorem runTest_any_passes (dlx : DLX) {double : Type} (dzero : double)
    (dadd : double -> double -> double) (w : MainWindow) (title input : QString)
    (benchSum0 : double) (allPassed0 : bool) (elapsed : double) (g g' : UIGrid) :
  stringGridToUIGrid (grid w) input = Ok g ->
  dlx_solve dlx (UIGridToGrid g) = true ->
  gridToUIGrid g (dlx_solution dlx (UIGridToGrid g)) = Ok g' ->
  runTest dlx dzero dadd w (title, input, qstr "any") benchSum0 allPassed0 elapsed
  = Ok (mkTestRun Passed (dadd benchSum0 elapsed) allPassed0 (withGrid w g')).
Proof.
  intros Hload Hsolved Hshow. unfold runTest. rewrite Hload. cbn [bind].
  rewrite (solveGrid_solved dlx (withGrid w g) dzero elapsed g' Hsolved Hshow).
  cbn [bind]. rewrite (bool_decide_eq_false_2 (qstr "any" = qstr "none")) by discriminate.
  cbn [andb negb orb]. rewrite (bool_decide_eq_true_2 (qstr "any" = qstr "any")) by reflexivity.
  rewrite orb_true_r. reflexivity.
Qed.

Lemma runTest_any_passes_witness :
  runTest (constDLX true ones4) 0 Z.add window4
    (qstr "Given", qstr "2...............", qstr "any") 0 true 5
  = Ok (mkTestRun Passed 5 true (withGrid window4 (map (map setCellValue) ones4))).
Proof.
  apply (runTest_any_passes (constDLX true ones4) 0 Z.add window4
           (qstr "Given") (qstr "2...............") 0 true 5
           (<[0%nat := [qstr "2"; []; []; []]]> (grid window4))
           (map (map setCellValue) ones4)); reflexivity.
Defined.

(** C4, counterexample: the case expects "any", its input has the given 2
    in the first cell, and the solver reports a solution that shows 1 in
    every cell.  Rows repeat a value and the given is lost, yet the case is
    classified as passed and [allPassed] stays true. *)
Lemma runTest_any_no_recheck :
  exists r,
    runTest (constDLX true ones4) 0 Z.add window4
      (qstr "Given", qstr "2...............", qstr "any") 0 true 5 = Ok r /\
    verdict r = Passed /\ allPassed r = true /\
    ~ rowsDistinct (UIGridToGrid (grid (window r))) /\
    ~ givensKept [[2; -1; -1; -1]; [-1; -1; -1; -1]; [-1; -1; -1; -1]; [-1; -1; -1; -1]]
        (UIGridToGrid (grid (window r))).
Proof.
  eexists. split; [vm_compute; reflexivity|]. cbn [verdict allPassed window].
  split; [reflexivity|]. split; [reflexivity|]. split.
  - intros H. apply Forall_cons in H. destruct H as [H _].
    vm_compute in H. inversion H as [|x l Hnotin _]. apply Hnotin. left.
  - intros H. specialize (H 0%nat 0%nat 2 eq_refl ltac:(lia)). vm_compute in H. discriminate.
Qed.

(** ** The values handed to the solver *)

Lemma cellValue_valid (m : Z) (x : Cell) :
  holdsUpTo m x ->
  (cellValue x = -1 \/ 1 <= cellValue x <= m) /\ (cellValue x = -1 <-> x = []).
Proof.
  intros [->|Hv].
  - split; [left; reflexivity|]. split; reflexivity.
  - split; [right; exact Hv|]. split; [lia|]. intros ->. rewrite cellValue_empty in Hv. lia.
Qed.

(** C7 (as amended): in the grid that [UIGridToGrid] hands to the solver,
    built from a window grid of side N whose cells are empty or hold a
    number 1..N, each value is -1 or lies in 1..N; -1, and only -1, stands
    for an empty cell, and 0 does not occur.  On the way back every value
    below 1 empties its cell, and reading a written cell gives -1 for such
    a value and the value itself otherwise. *)
Theorem UIGridToGrid_domain (n : nat) (g : UIGrid) :
  validGrid n g ->
  (forall a b v, cellAt (UIGridToGrid g) a b = Some v ->
     (v = -1 \/ 1 <= v <= Z.of_nat n) /\ v <> 0 /\
     (v = -1 <-> cellAt g a b = Some [])) /\
  (forall v, v <= INT_MAX ->
     (v < 1 -> setCellValue v = []) /\
     cellValue (setCellValue v) = if v <? 1 then -1 else v).
Proof.
  intros [Hsq Hvalid]. split.
  - intros a b v Hv. unfold UIGridToGrid in Hv. rewrite cell_map in Hv.
    destruct (cellAt g a b) as [x|] eqn:Hx; [|discriminate].
    simpl in Hv. inversion Hv; subst v. clear Hv.
    pose proof (Forall_rows_cellAt _ g a b x Hvalid Hx) as Hcell.
    destruct (cellValue_valid _ x Hcell) as [Hrange Hempty].
    split; [exact Hrange|]. split; [lia|].
    rewrite Hempty. split; [intros ->; reflexivity|congruence].
  - intros v Hv. split.
    + intros Hlt. unfold setCellValue.
      replace (v <? 1) with true by (symmetry; apply Z.ltb_lt; lia). reflexivity.
    + apply cellValue_setCellValue, Hv.
Qed.

Lemma UIGridToGrid_domain_witness :
  (-1 = -1 \/ 1 <= -1 <= Z.of_nat 4) /\ -1 <> 0 /\
  (-1 = -1 <-> cellAt grid4x4 0 1 = Some []).
Proof.
  apply (proj1 (UIGridToGrid_domain 4 grid4x4 validGrid_grid4x4) 0%nat 1%nat (-1)).
  reflexivity.
Defined.

(** C7, counterexample: the empty 4-by-4 grid is converted to a grid whose
    cells all hold -1, a value outside {0} and 1..4; the empty cell is not
    denoted by 0. *)
Lemma UIGridToGrid_empty_is_minus_one :
  validGrid 4 (grid window4) /\
  cellAt (grid window4) 0 0 = Some [] /\
  cellAt (UIGridToGrid (grid window4)) 0 0 = Some (-1) /\
  ~ (0 <= -1 <= 4).
Proof.
  split; [split; [square_ok|cells_ok]|].
  split; [reflexivity|]. split; [reflexivity|lia].
Qed.

Example solve_4x4 :
  solve (sudokuOfString 4 "1.3..4.22.4..3.1") = Some (sudokuOfString 4 "1234341221434321").
Proof. vm_compute. reflexivity. Qed.

Example solve_duplicate_given : solve (sudokuOfString 4 "11..............") = None.
Proof. vm_compute. reflexivity. Qed.

(** The source's test "Last Empty Square". *)
Example solve_last_empty_square :
  solve (sudokuOfString 9
    "2564891733746159829817234565932748617128.6549468591327635147298127958634849362715")
  = Some (sudokuOfString 9
    "256489173374615982981723456593274861712836549468591327635147298127958634849362715").
Proof. vm_compute. reflexivity. Qed.

(** The source's test "Not Unique - 4 Solutions": the solution the source
    records as found first is the one found here. *)
Example solve_first_of_four :
  solve (sudokuOfString 9
    "....9....6..4.7..8.4.812.3.7.......5..4...9..5..371..4.5..6..4.2.17.85.9.........")
  = Some (sudokuOfString 9
    "178693452623457198945812736762984315314526987589371624857169243231748569496235871").
Proof. vm_compute. reflexivity. Qed.

(** ** Covering *)

Lemma touches_In (h : Z) (r : Candidate) : touches h r = true <-> In h (ccols r).
Proof.
  unfold touches. rewrite existsb_exists. split.
  - intros (k & Hk & Heq). apply Z.eqb_eq in Heq. subst k. exact Hk.
  - intros H. exists h. split; [exact H|apply Z.eqb_refl].
Qed.

Lemma rowsOf_In (M : Matrix) (h : Z) (r : Candidate) :
  In r (rowsOf M h) <-> In r (live M) /\ In h (ccols r).
Proof.
  unfold rowsOf. rewrite <- !list_elem_of_In, list_elem_of_filter.
  cbv beta. rewrite touches_In, <- list_elem_of_In. tauto.
Qed.

Lemma cover_headers (h k : Z) (M : Matrix) :
  In k (headers (cover h M)) <-> In k (headers M) /\ k <> h.
Proof.
  unfold cover. cbn [headers]. rewrite <- !list_elem_of_In, list_elem_of_filter. tauto.
Qed.

Lemma cover_live (h : Z) (M : Matrix) (r : Candidate) :
  In r (live (cover h M)) -> In r (live M).
Proof.
  unfold cover. cbn [live]. rewrite <- !list_elem_of_In, list_elem_of_filter. tauto.
Qed.

Lemma cover_all_headers (ks : list Z) : forall (M : Matrix) (k : Z),
  In k (headers (fold_left (fun M k => cover k M) ks M)) <->
  In k (headers M) /\ ~ In k ks.
Proof.
  induction ks as [|k0 ks IH]; intros M k; simpl.
  - tauto.
  - rewrite IH, cover_headers. split.
    + intros [[H1 H2] H3]. split; [exact H1|]. intros [->|H]; auto.
    + intros [H1 H2]. split; [split; [exact H1|]|]; intros H; apply H2; auto.
Qed.

Lemma cover_all_live (ks : list Z) : forall (M : Matrix) (r : Candidate),
  In r (live (fold_left (fun M k => cover k M) ks M)) -> In r (live M).
Proof.
  induction ks as [|k0 ks IH]; intros M r; simpl; [tauto|].
  intros H. apply IH in H. eapply cover_live, H.
Qed.

Lemma ringAfter_In (h : Z) (cols : list Z) : forall before k,
  In k (ringAfter h before cols) -> In k before \/ In k cols.
Proof.
  induction cols as [|k0 rest IH]; intros before k; simpl.
  - rewrite <- in_rev. auto.
  - destruct (k0 =? h).
    + rewrite in_app_iff, <- in_rev. tauto.
    + intros H. apply IH in H. simpl in H. tauto.
Qed.

(** After a row is chosen, the columns it does not touch stay uncovered,
    its own column is covered, and no row comes to life. *)
Lemma coverRow_headers_keep (M : Matrix) (h k : Z) (r : Candidate) :
  In h (ccols r) -> In k (headers M) -> ~ In k (ccols r) ->
  In k (headers (coverRow M h r)).
Proof.
  intros Hh Hk Hnot. unfold coverRow. apply cover_all_headers. split.
  - apply cover_headers. split; [exact Hk|]. intros ->. contradiction.
  - intros H. apply ringAfter_In in H. simpl in H. tauto.
Qed.

Lemma coverRow_headers_sub (M : Matrix) (h k : Z) (r : Candidate) :
  In k (headers (coverRow M h r)) -> In k (headers M) /\ k <> h.
Proof.
  unfold coverRow. intros H. apply cover_all_headers in H.
  destruct H as [H _]. apply cover_headers in H. exact H.
Qed.

Lemma coverRow_live (M : Matrix) (h : Z) (r r' : Candidate) :
  In r' (live (coverRow M h r)) -> In r' (live M).
Proof.
  unfold coverRow. intros H. apply cover_all_live in H. eapply cover_live, H.
Qed.

Lemma tryRows_Some {A} (attempt : Candidate -> option A) (rs : list Candidate) r x :
  tryRows attempt rs = Some (r, x) -> In r rs /\ attempt r = Some x.
Proof.
  induction rs as [|r0 rs IH]; simpl; [discriminate|].
  destruct (attempt r0) as [x0|] eqn:E.
  - intros H. inversion H; subst. auto.
  - intros H. apply IH in H. tauto.
Qed.

(** ** What FOUND means *)

(** Every chosen id is the id of a live row, and every uncovered column is
    touched by a chosen row. *)
Lemma search_found (fuel : nat) : forall (M : Matrix) (sol : list Z),
  search fuel M = Some sol ->
  (forall id, In id sol -> exists r, In r (live M) /\ cid r = id) /\
  (forall k, In k (headers M) ->
     exists r, In r (live M) /\ In (cid r) sol /\ In k (ccols r)).
Proof.
  induction fuel as [|fuel IH]; intros M sol Hrun; [discriminate|].
  simpl in Hrun. destruct (headers M) as [|h0 hs] eqn:Hhs.
  - inversion Hrun; subst. split; [intros id []|intros k []].
  - set (h := chooseColumn_from M h0 (colSize M h0) hs) in *.
    destruct (colSize M h =? 0)%nat; [discriminate|].
    destruct (tryRows (fun r => search fuel (coverRow M h r)) (rowsOf M h))
      as [[r sol']|] eqn:Htry; [|discriminate].
    inversion Hrun; subst sol. clear Hrun.
    apply tryRows_Some in Htry. destruct Htry as [Hr Hsub].
    apply rowsOf_In in Hr. destruct Hr as [Hlive Htouch].
    destruct (IH _ _ Hsub) as [Hids Hcols]. split.
    + intros id [<-|Hid]; [exists r; auto|].
      destruct (Hids id Hid) as (r' & Hr' & Hcid).
      exists r'. split; [eapply coverRow_live; eauto|exact Hcid].
    + intros k Hk. rewrite <- Hhs in Hk.
      destruct (in_dec Z.eq_dec k (ccols r)) as [Hin|Hnot].
      * exists r. split; [exact Hlive|]. split; [left; reflexivity|exact Hin].
      * destruct (Hcols k (coverRow_headers_keep M h k r Htouch Hk Hnot))
          as (r' & Hr' & Hsol & Hk').
        exists r'. split; [eapply coverRow_live; eauto|]. split; [right; exact Hsol|exact Hk'].
Qed.

(** ** The fuel is enough *)

Lemma chooseColumn_from_In (M : Matrix) (hs : list Z) : forall best bestSize,
  In (chooseColumn_from M best bestSize hs) (best :: hs).
Proof.
  induction hs as [|h hs IH]; intros best bestSize; simpl; [auto|].
  destruct (colSize M h <? bestSize)%nat.
  - specialize (IH h (colSize M h)). simpl in IH. tauto.
  - specialize (IH best bestSize). simpl in IH. tauto.
Qed.

Lemma filter_ne_length (h : Z) (l : list Z) :
  In h l -> (length (filter (fun k => k <> h) l) < length l)%nat.
Proof.
  induction l as [|k l IH]; simpl; [tauto|].
  intros Hin. pose proof (length_filter (fun k => k <> h) l) as Hle.
  destruct (decide (k = h)) as [->|Hne].
  - rewrite filter_cons_False by auto. lia.
  - rewrite filter_cons_True by auto. simpl.
    destruct Hin as [->|Hin]; [contradiction|]. specialize (IH Hin). lia.
Qed.

Lemma cover_all_length (ks : list Z) : forall M : Matrix,
  (length (headers (fold_left (fun M k => cover k M) ks M)) <= length (headers M))%nat.
Proof.
  induction ks as [|k ks IH]; intros M; simpl; [lia|].
  etransitivity; [apply IH|]. unfold cover. cbn [headers]. apply length_filter.
Qed.

Lemma coverRow_length (M : Matrix) (h : Z) (r : Candidate) :
  In h (headers M) ->
  (length (headers (coverRow M h r)) < length (headers M))%nat.
Proof.
  intros Hh. unfold coverRow.
  eapply Nat.le_lt_trans; [apply cover_all_length|].
  unfold cover. cbn [headers]. apply filter_ne_length, Hh.
Qed.

Lemma tryRows_ext {A} (f f' : Candidate -> option A) (rs : list Candidate) :
  (forall r, In r rs -> f r = f' r) -> tryRows f rs = tryRows f' rs.
Proof.
  induction rs as [|r rs IH]; intros Hext; simpl; [reflexivity|].
  rewrite (Hext r) by (left; reflexivity).
  destruct (f' r); [reflexivity|]. apply IH. intros r' Hr'. apply Hext. right. exact Hr'.
Qed.

(** With more fuel than columns the search never runs out: its result does
    not depend on the fuel. *)
Lemma search_fuel_enough (fuel : nat) : forall (fuel' : nat) (M : Matrix),
  (length (headers M) < fuel)%nat -> (length (headers M) < fuel')%nat ->
  search fuel M = search fuel' M.
Proof.
  induction fuel as [|fuel IH]; intros fuel' M Hf Hf'; [lia|].
  destruct fuel' as [|fuel']; [lia|]. simpl.
  destruct (headers M) as [|h0 hs] eqn:Hhs; [reflexivity|].
  set (h := chooseColumn_from M h0 (colSize M h0) hs).
  destruct (colSize M h =? 0)%nat; [reflexivity|].
  assert (In h (headers M)) as Hh by (rewrite Hhs; apply chooseColumn_from_In).
  rewrite (tryRows_ext (fun r => search fuel (coverRow M h r))
             (fun r => search fuel' (coverRow M h r))); [reflexivity|].
  intros r _. pose proof (coverRow_length M h r Hh) as Hlt.
  rewrite Hhs in Hlt. simpl in Hf, Hf', Hlt. apply IH; lia.
Qed.

(** The fuel that [solve] passes is enough. *)
Lemma solve_fuel_enough (G : Grid) (fuel : nat) :
  (length (headers (initialMatrix G)) < fuel)%nat ->
  search fuel (initialMatrix G)
  = search (S (length (headers (initialMatrix G)))) (initialMatrix G).
Proof. intros H. apply search_fuel_enough; lia. Qed.

(** ** Candidates of a grid *)

Lemma buildCandidates_In (G : Grid) (x : Candidate) :
  In x (buildCandidates G) ->
  exists (r c : nat) (v : Z),
    cellAt G r c = Some v /\
    In x (cellCandidates (size G) (Z.sqrt (size G)) (Z.of_nat r) (Z.of_nat c) v).
Proof.
  unfold buildCandidates. cbv zeta. intros H.
  apply in_concat in H. destruct H as (xs & Hxs & Hx).
  apply list_elem_of_In, elem_of_lookup_imap in Hxs.
  destruct Hxs as (r & row & -> & Hrow).
  apply in_concat in Hx. destruct Hx as (ys & Hys & Hx).
  apply list_elem_of_In, elem_of_lookup_imap in Hys.
  destruct Hys as (c & v & -> & Hv).
  exists r, c, v. split; [|exact Hx]. unfold cellAt. rewrite Hrow. exact Hv.
Qed.

Lemma cellCandidates_In (N R r c v : Z) (x : Candidate) :
  0 <= v <= N -> In x (cellCandidates N R r c v) ->
  exists d, 1 <= d <= N /\ x = candidate N R r c d /\ (v <> 0 -> d = v).
Proof.
  intros Hv. unfold cellCandidates. destruct (v =? 0) eqn:E.
  - apply Z.eqb_eq in E. intros H. apply in_map_iff in H.
    destruct H as (d & <- & Hd). apply list_elem_of_In, elem_of_seqZ in Hd.
    exists d. split; [lia|]. split; [reflexivity|]. intros Hne. contradiction.
  - apply Z.eqb_neq in E. intros [<-|[]]. exists v. split; [lia|]. auto.
Qed.

Lemma decode_candidateId (N r c d : Z) :
  0 <= r -> 0 <= c < N -> 1 <= d <= N ->
  decodeCandidate N (candidateId N r c d) = (r, c, d).
Proof.
  intros Hr Hc Hd. unfold decodeCandidate, candidateId.
  assert (((r * N + c) * N + (d - 1)) / N = r * N + c) as Hdiv.
  { symmetry. apply Z.div_unique with (r := d - 1); lia. }
  assert (((r * N + c) * N + (d - 1)) mod N = d - 1) as Hmod.
  { symmetry. apply Z.mod_unique with (q := r * N + c); lia. }
  assert (((r * N + c) * N + (d - 1)) / (N * N) = r) as Hrow.
  { assert (c * N <= (N - 1) * N) as Hle by (apply Z.mul_le_mono_nonneg_r; lia).
    assert (0 <= c * N) as Hnn by (apply Z.mul_nonneg_nonneg; lia).
    assert (0 <= c * N + (d - 1) < N * N) as Hrem by lia.
    symmetry. apply Z.div_unique_pos with (r := c * N + (d - 1)); [exact Hrem|ring]. }
  assert ((r * N + c) mod N = c) as Hcol.
  { symmetry. apply Z.mod_unique with (q := r); lia. }
  rewrite Hrow, Hdiv, Hmod, Hcol. f_equal. lia.
Qed.

(** Only the candidates of a cell touch the cell's column. *)
Lemma cell_column_owner (N R r c d r0 c0 : Z) :
  0 <= r -> 0 <= c < N -> 1 <= d -> 0 <= R -> 0 <= r0 < N -> 0 <= c0 < N ->
  In (r0 * N + c0) (candidateColumns N R r c d) -> r = r0 /\ c = c0.
Proof.
  intros Hr Hc Hd HR Hr0 Hc0 Hin.
  assert (r0 * N + c0 < N * N) as Hk by nia.
  assert (0 <= boxOf R r c) as Hbox.
  { unfold boxOf. pose proof (Z_div_nonneg_nonneg r R Hr HR).
    pose proof (Z_div_nonneg_nonneg c R (proj1 Hc) HR). nia. }
  simpl in Hin. destruct Hin as [H|[H|[H|[H|[]]]]]; try nia.
  assert (r = r0) as ->.
  { destruct (Z.lt_trichotomy r r0) as [Hlt|[Heq|Hgt]]; [nia|exact Heq|nia]. }
  split; [reflexivity|lia].
Qed.

(** ** Writing the solution *)

Lemma cellAt_writeCell (G : Grid) (r c d : Z) (a b : nat) :
  cellAt (writeCell G r c d) a b =
  if decide (0 <= r /\ 0 <= c /\ a = Z.to_nat r /\ b = Z.to_nat c)
  then (fun _ => d) <$> cellAt G a b
  else cellAt G a b.
Proof.
  unfold writeCell. destruct ((0 <=? r) && (0 <=? c)) eqn:E.
  - apply andb_true_iff in E. destruct E as [Er Ec].
    apply Z.leb_le in Er. apply Z.leb_le in Ec. unfold cellAt.
    destruct (decide (a = Z.to_nat r)) as [->|Ha].
    + rewrite list_lookup_alter_eq. destruct (G !! Z.to_nat r) as [row|]; simpl.
      * destruct (decide (b = Z.to_nat c)) as [->|Hb].
        -- rewrite decide_True by auto.
           destruct (row !! Z.to_nat c) eqn:Hc.
           ++ rewrite list_lookup_insert_eq by (eapply lookup_lt_Some; eauto). reflexivity.
           ++ rewrite list_insert_ge by (apply lookup_ge_None; exact Hc). rewrite Hc. reflexivity.
        -- rewrite decide_False by tauto. apply list_lookup_insert_ne. auto.
      * case_decide; reflexivity.
    + rewrite list_lookup_alter_ne by auto. rewrite decide_False by tauto. reflexivity.
  - rewrite decide_False; [reflexivity|]. intros (Hr & Hc & _).
    apply andb_false_iff in E. destruct E as [E|E]; apply Z.leb_gt in E; lia.
Qed.

(** A cell that some chosen candidate writes, and that every chosen
    candidate writes with the same digit, ends with that digit. *)
Lemma decodeInto_cell (N r c v : Z) (sol : list Z) : forall G : Grid,
  0 <= r -> 0 <= c ->
  (forall id d, In id sol -> decodeCandidate N id = (r, c, d) -> d = v) ->
  is_Some (cellAt G (Z.to_nat r) (Z.to_nat c)) ->
  cellAt G (Z.to_nat r) (Z.to_nat c) = Some v \/
    (exists id, In id sol /\ decodeCandidate N id = (r, c, v)) ->
  (forall id, In id sol -> 0 <= (decodeCandidate N id).1.1 /\ 0 <= (decodeCandidate N id).1.2) ->
  cellAt (decodeInto N sol G) (Z.to_nat r) (Z.to_nat c) = Some v.
Proof.
  induction sol as [|id sol IH]; intros G Hr Hc Hsame Hsome Hhas Hpos.
  - simpl. destruct Hhas as [H|(id & [] & _)]. exact H.
  - change (decodeInto N (id :: sol) G) with
      (decodeInto N sol (let '(r, c, d) := decodeCandidate N id in writeCell G r c d)).
    destruct (decodeCandidate N id) as [[r1 c1] d1] eqn:Hdec.
    pose proof (Hpos id ltac:(left; reflexivity)) as Hpos1. rewrite Hdec in Hpos1.
    cbn [fst snd] in Hpos1.
    apply IH; try assumption.
    + intros id' d' Hin. apply Hsame. right. exact Hin.
    + rewrite cellAt_writeCell. case_decide; [|exact Hsome].
      destruct Hsome as [x ->]. eexists. reflexivity.
    + rewrite cellAt_writeCell. case_decide as Hhit.
      * left. destruct Hhit as (_ & _ & Hr1 & Hc1).
        assert (r1 = r) as -> by lia. assert (c1 = c) as -> by lia.
        rewrite (Hsame id d1 ltac:(left; reflexivity) Hdec).
        destruct Hsome as [x ->]. reflexivity.
      * destruct Hhas as [H|(id' & [<-|Hin] & Hdec')].
        -- left. exact H.
        -- exfalso. apply Hhit. rewrite Hdec in Hdec'. inversion Hdec'; subst.
           repeat split; auto.
        -- right. exists id'. auto.
    + intros id' Hin. apply Hpos. right. exact Hin.
Qed.

(** ** Givens *)

(** Where a candidate of the grid comes from. *)
Lemma candidate_origin (n : nat) (G : Grid) (x : Candidate) :
  validSudoku n G -> In x (buildCandidates G) ->
  exists (r c : nat) (v d : Z),
    (r < n)%nat /\ (c < n)%nat /\ cellAt G r c = Some v /\
    1 <= d <= Z.of_nat n /\ (v <> 0 -> d = v) /\
    x = candidate (Z.of_nat n) (Z.sqrt (Z.of_nat n)) (Z.of_nat r) (Z.of_nat c) d /\
    decodeCandidate (Z.of_nat n) (cid x) = (Z.of_nat r, Z.of_nat c, d).
Proof.
  intros [Hsq Hrange] Hx. apply buildCandidates_In in Hx.
  destruct Hx as (r & c & v & Hv & Hx). rewrite (size_square n G Hsq) in Hx.
  destruct (cellAt_bounds n G r c v Hsq Hv) as [Hr Hc].
  pose proof (Forall_rows_cellAt _ G r c v Hrange Hv) as Hvr. cbv beta in Hvr.
  destruct (cellCandidates_In _ _ _ _ v x Hvr Hx) as (d & Hd & -> & Hgiven).
  exists r, c, v, d. repeat (split; [assumption|]). split; [reflexivity|].
  unfold candidate. cbn [cid]. apply decode_candidateId; lia.
Qed.

(** Given preservation on the active matrix. *)
Lemma solve_matrix_preserves_givens (n : nat) (G G' : Grid) :
  validSudoku n G -> solve G = Some G' ->
  forall r c v, cellAt G r c = Some v -> v <> 0 -> cellAt G' r c = Some v.
Proof.
  intros Hvalid Hsolve r c v Hv Hgiven. pose proof Hvalid as [Hsq Hrange].
  unfold solve in Hsolve. cbv zeta in Hsolve.
  destruct (search (S (length (headers (initialMatrix G)))) (initialMatrix G))
    as [sol|] eqn:Hsearch; [|discriminate].
  inversion Hsolve; subst G'. clear Hsolve.
  destruct (search_found _ _ _ Hsearch) as [Hids Hcols].
  cbn [initialMatrix headers live] in Hids, Hcols.
  rewrite (size_square n G Hsq) in *.
  destruct (cellAt_bounds n G r c v Hsq Hv) as [Hr Hc].
  assert (forall id, In id sol ->
            exists (r' c' : nat) (v' d' : Z),
              cellAt G r' c' = Some v' /\ (v' <> 0 -> d' = v') /\
              decodeCandidate (Z.of_nat n) id = (Z.of_nat r', Z.of_nat c', d')) as Hdec.
  { intros id Hid. destruct (Hids id Hid) as (x & Hx & <-).
    destruct (candidate_origin n G x Hvalid Hx)
      as (r' & c' & v' & d' & _ & _ & Hv' & _ & Hg & _ & Hd).
    exists r', c', v', d'. auto. }
  rewrite <- (Nat2Z.id r), <- (Nat2Z.id c).
  apply decodeInto_cell; try lia.
  - intros id d Hid Hd. destruct (Hdec id Hid) as (r' & c' & v' & d' & Hv' & Hg & Hd').
    rewrite Hd' in Hd. inversion Hd as [[Hr' Hc' Hdd]].
    apply Nat2Z.inj in Hr', Hc'. subst r' c' d'.
    rewrite Hv in Hv'. inversion Hv'; subst v'. apply Hg, Hgiven.
  - rewrite !Nat2Z.id. unfold emptyGrid. rewrite Nat2Z.id.
    apply (cell_is_Some n); [apply square_repeat|exact Hr|exact Hc].
  - right.
    destruct (Hcols (Z.of_nat r * Z.of_nat n + Z.of_nat c)) as (x & Hx & Hsol & Hk).
    { apply list_elem_of_In, elem_of_seqZ. nia. }
    destruct (candidate_origin n G x Hvalid Hx)
      as (r' & c' & v' & d' & Hr' & Hc' & Hv' & Hd' & Hg & -> & Hdec').
    cbn [candidate ccols] in Hk.
    destruct (cell_column_owner (Z.of_nat n) (Z.sqrt (Z.of_nat n))
                (Z.of_nat r') (Z.of_nat c') d' (Z.of_nat r) (Z.of_nat c)) as [Hrr Hcc];
      [lia|lia|lia|apply Z.sqrt_nonneg|lia|lia|exact Hk|].
    apply Nat2Z.inj in Hrr, Hcc. subst r' c'.
    rewrite Hv in Hv'. inversion Hv'; subst v'.
    exists (cid (candidate (Z.of_nat n) (Z.sqrt (Z.of_nat n)) (Z.of_nat r) (Z.of_nat c) d')).
    split; [exact Hsol|]. rewrite Hdec'. rewrite (Hg Hgiven). reflexivity.
  - intros id Hid. destruct (Hdec id Hid) as (r' & c' & v' & d' & _ & _ & ->).
    cbn [fst snd]. lia.
Qed.

(** ** The node pool and the active matrix

    The pool of [DLX] and the active matrix: covering a column of the pool
    keeps the invariants of the links, uncovering restores the pool, the pool
    as built holds the initial matrix, and the search on the pool returns what
    the search on the matrix returns. *)

(** ** The node pool: reading and writing fields *)

Lemma length_set p f i v : length (set p f i v) = length p.
Proof. apply length_alter. Qed.

Lemma getF_setF f g v x : getF g (setF f v x) = if decide (f = g) then v else getF g x.
Proof. destruct f, g, x; reflexivity. Qed.

Lemma ncol_setF f v x : ncol (setF f v x) = ncol x.
Proof. destruct f, x; reflexivity. Qed.

Lemma nrow_setF f v x : nrow (setF f v x) = nrow x.
Proof. destruct f, x; reflexivity. Qed.

Lemma get_set p f i v g k :
  get (set p f i v) g k =
  if decide (f = g /\ k = i /\ (i < length p)%nat) then v else get p g k.
Proof.
  unfold get, set. destruct (decide (k = i)) as [->|Hne].
  - rewrite list_lookup_alter_eq. destruct (p !! i) as [x|] eqn:Hx; simpl.
    + rewrite getF_setF. apply lookup_lt_Some in Hx.
      destruct (decide (f = g)); [rewrite decide_True by auto|rewrite decide_False by tauto];
        reflexivity.
    + apply lookup_ge_None in Hx. rewrite decide_False by lia. reflexivity.
  - rewrite list_lookup_alter_ne by auto. rewrite decide_False by tauto. reflexivity.
Qed.

Lemma get_set_other p f i v g k :
  f <> g \/ k <> i -> get (set p f i v) g k = get p g k.
Proof. intros H. rewrite get_set. apply decide_False. tauto. Qed.

Lemma get_set_same p f i v :
  (i < length p)%nat -> get (set p f i v) f i = v.
Proof. intros H. rewrite get_set. apply decide_True. auto. Qed.

Lemma colOf_set p f i v k : colOf (set p f i v) k = colOf p k.
Proof.
  unfold colOf, set. destruct (decide (k = i)) as [->|Hne].
  - rewrite list_lookup_alter_eq. destruct (p !! i); simpl; [apply ncol_setF|reflexivity].
  - rewrite list_lookup_alter_ne by auto. reflexivity.
Qed.

Lemma rowOf_set p f i v k : rowOf (set p f i v) k = rowOf p k.
Proof.
  unfold rowOf, set. destruct (decide (k = i)) as [->|Hne].
  - rewrite list_lookup_alter_eq. destruct (p !! i); simpl; [apply nrow_setF|reflexivity].
  - rewrite list_lookup_alter_ne by auto. reflexivity.
Qed.

(** Pools with the same fields are equal. *)
Lemma node_ext (x y : Node) :
  (forall f, getF f x = getF f y) -> ncol x = ncol y -> nrow x = nrow y -> x = y.
Proof.
  intros Hf Hc Hr. destruct x, y. simpl in *.
  pose proof (Hf FL). pose proof (Hf FR). pose proof (Hf FU). pose proof (Hf FD).
  pose proof (Hf FSize). simpl in *. congruence.
Qed.

Lemma pool_ext (p q : Pool) :
  length p = length q ->
  (forall f i, get p f i = get q f i) ->
  (forall i, colOf p i = colOf q i) -> (forall i, rowOf p i = rowOf q i) ->
  p = q.
Proof.
  intros Hlen Hget Hcol Hrow. apply list_eq. intros i.
  destruct (p !! i) as [x|] eqn:Hx, (q !! i) as [y|] eqn:Hy.
  - f_equal. apply node_ext.
    + intros f. specialize (Hget f i). unfold get in Hget. rewrite Hx, Hy in Hget. exact Hget.
    + specialize (Hcol i). unfold colOf in Hcol. rewrite Hx, Hy in Hcol. exact Hcol.
    + specialize (Hrow i). unfold rowOf in Hrow. rewrite Hx, Hy in Hrow. exact Hrow.
  - apply lookup_lt_Some in Hx. apply lookup_ge_None in Hy. lia.
  - apply lookup_ge_None in Hx. apply lookup_lt_Some in Hy. lia.
  - reflexivity.
Qed.

Ltac lia_div := zify; Z.to_euclidean_division_equations; lia.

(** ** The node pool: paths, chains and walks *)

Lemma adj_fst : forall ys x z, map fst (adj x ys z) = x :: ys.
Proof. induction ys as [|y ys IH]; intros x z; simpl; [reflexivity|]. rewrite IH. reflexivity. Qed.

Lemma adj_snd : forall ys x z, map snd (adj x ys z) = ys ++ [z].
Proof. induction ys as [|y ys IH]; intros x z; simpl; [reflexivity|]. rewrite IH. reflexivity. Qed.

Lemma adj_app : forall xs x j ys z,
  adj x (xs ++ j :: ys) z = adj x xs j ++ adj j ys z.
Proof. induction xs as [|y xs IH]; intros x j ys z; simpl; [reflexivity|]. rewrite IH. reflexivity. Qed.

Lemma adj_head : forall ys j z, exists d B, adj j ys z = (j, d) :: B /\ ys ++ [z] = d :: map snd B.
Proof.
  intros [|y ys] j z; simpl.
  - exists z, []. auto.
  - exists y, (adj y ys z). split; [reflexivity|]. rewrite adj_snd. reflexivity.
Qed.

Lemma adj_retarget ys j z d B x :
  adj j ys z = (j, d) :: B -> adj x ys z = (x, d) :: B.
Proof. destruct ys as [|y ys]; simpl; intros H; inversion H; reflexivity. Qed.

Lemma adj_splice : forall xs x j,
  exists u A, adj x xs j = A ++ [(u, j)] /\ x :: xs = map fst A ++ [u] /\
    forall ys z d B, adj j ys z = (j, d) :: B -> adj x (xs ++ ys) z = A ++ (u, d) :: B.
Proof.
  induction xs as [|y xs IH]; intros x j.
  - exists x, []. split; [reflexivity|]. split; [reflexivity|].
    intros ys z d B H. simpl. eapply adj_retarget, H.
  - destruct (IH y j) as (u & A & HA & Hfst & Hsplice).
    exists u, ((x, y) :: A). simpl. rewrite HA. split; [reflexivity|].
    split; [rewrite Hfst; reflexivity|].
    intros ys z d B H. rewrite (Hsplice ys z d B H). reflexivity.
Qed.

(** Taking [j] out of a path. *)
Lemma adj_remove xs x j ys z :
  exists u d A B,
    adj x (xs ++ j :: ys) z = A ++ (u, j) :: (j, d) :: B /\
    adj x (xs ++ ys) z = A ++ (u, d) :: B /\
    x :: xs = map fst A ++ [u] /\ ys ++ [z] = d :: map snd B.
Proof.
  destruct (adj_splice xs x j) as (u & A & HA & Hfst & Hsplice).
  destruct (adj_head ys j z) as (d & B & HB & Hsnd).
  exists u, d, A, B. rewrite adj_app, HA, HB, <- app_assoc.
  split; [reflexivity|]. split; [apply Hsplice, HB|]. split; assumption.
Qed.

Lemma walkFrom_follows dir start body : forall ys fuel cur p,
  follows dir start body cur ys p -> (length ys < fuel)%nat ->
  walkFrom fuel dir start cur body p = runBody body ys p.
Proof.
  induction ys as [|y ys IH]; intros fuel cur p Hf Hfuel.
  - simpl in Hf. subst cur. destruct fuel; [simpl in Hfuel; lia|].
    simpl. rewrite Nat.eqb_refl. reflexivity.
  - destruct Hf as (-> & Hne & Hf). destruct fuel; [simpl in Hfuel; lia|].
    simpl. rewrite (proj2 (Nat.eqb_neq y start) Hne).
    apply IH; [exact Hf|simpl in Hfuel; lia].
Qed.

Lemma fpath_frame p q dir ys x z :
  (forall k, In k (x :: ys) -> get q dir k = get p dir k) ->
  fpath p dir x ys z -> fpath q dir x ys z.
Proof.
  unfold fpath. intros Hsame Hp. rewrite List.Forall_forall in *.
  intros ab Hab. rewrite Hsame; [apply Hp, Hab|].
  rewrite <- (adj_fst ys x z). apply in_map, Hab.
Qed.

Lemma chain_frame p q fwd bwd ys x z :
  (forall k, In k (x :: ys) -> get q fwd k = get p fwd k) ->
  (forall k, In k (ys ++ [z]) -> get q bwd k = get p bwd k) ->
  chain p fwd bwd x ys z -> chain q fwd bwd x ys z.
Proof.
  unfold chain. intros Hf Hb Hp. rewrite List.Forall_forall in *.
  intros ab Hab. destruct (Hp ab Hab) as [H1 H2]. split.
  - rewrite Hf; [exact H1|]. rewrite <- (adj_fst ys x z). apply in_map, Hab.
  - rewrite Hb; [exact H2|]. rewrite <- (adj_snd ys x z). apply in_map, Hab.
Qed.

Lemma chain_fpath p fwd bwd ys x z : chain p fwd bwd x ys z -> fpath p fwd x ys z.
Proof.
  unfold chain, fpath. apply List.Forall_impl. intros ab [H _]. exact H.
Qed.

Lemma adj_rev : forall ys x z,
  adj z (rev ys) x = rev (map (fun ab => (ab.2, ab.1)) (adj x ys z)).
Proof.
  induction ys as [|y ys IH]; intros x z; simpl; [reflexivity|].
  rewrite adj_app, IH. reflexivity.
Qed.

Lemma chain_rev p fwd bwd ys x z :
  chain p fwd bwd x ys z -> chain p bwd fwd z (rev ys) x.
Proof.
  unfold chain. rewrite adj_rev. intros H. apply List.Forall_rev.
  rewrite List.Forall_map. eapply List.Forall_impl; [|exact H].
  intros ab [H1 H2]. simpl. auto.
Qed.

Lemma follows_gen dir start body (S : list nat) : forall ys x p,
  (forall pre y post, ys = pre ++ y :: post ->
     forall k, In k S ->
       get (body y (runBody body pre p)) dir k = get (runBody body pre p) dir k) ->
  fpath p dir x ys start -> In x S -> (forall y, In y ys -> In y S) -> ~ In start ys ->
  follows dir start body (get p dir x) ys p.
Proof.
  induction ys as [|y ys IH]; intros x p Hframe Hpath Hx Hys Hstart.
  - unfold fpath in Hpath. simpl in *. inversion Hpath; subst. assumption.
  - unfold fpath in Hpath. simpl in Hpath. apply Forall_cons in Hpath.
    destruct Hpath as [Hxy Hpath]. simpl in Hxy. simpl. split; [exact Hxy|].
    split; [intros ->; apply Hstart; left; reflexivity|].
    apply IH.
    + intros pre y' post Heq k Hk.
      apply (Hframe (y :: pre) y' post); [rewrite Heq; reflexivity|exact Hk].
    + apply (fpath_frame p); [|exact Hpath].
      intros k Hk. apply (Hframe [] y ys eq_refl).
      destruct Hk as [<-|Hk]; [apply Hys; left; reflexivity|apply Hys; right; exact Hk].
    + apply Hys. left. reflexivity.
    + intros y' Hy'. apply Hys. right. exact Hy'.
    + intros H. apply Hstart. right. exact H.
Qed.

(** A loop whose body leaves the links it walks along in place runs the
    body on the nodes of the path, in order. *)
Lemma forEach_fold_gen dir start body ys p :
  (forall pre y post, ys = pre ++ y :: post ->
     forall k, In k (start :: ys) ->
       get (body y (runBody body pre p)) dir k = get (runBody body pre p) dir k) ->
  fpath p dir start ys start -> ~ In start ys -> (length ys < length p)%nat ->
  forEach dir start body p = runBody body ys p.
Proof.
  intros Hframe Hpath Hstart Hlen. unfold forEach.
  apply walkFrom_follows; [|exact Hlen].
  apply (follows_gen dir start body (start :: ys)); auto with datatypes.
Qed.

Lemma forEach_fold_static dir start body ys p :
  (forall y q k, get (body y q) dir k = get q dir k) ->
  fpath p dir start ys start -> ~ In start ys -> (length ys < length p)%nat ->
  forEach dir start body p = runBody body ys p.
Proof.
  intros Hstatic. apply forEach_fold_gen. intros pre y post _ k _. apply Hstatic.
Qed.

(** Unlinking a node of a chain. *)
Lemma links_unlink p fwd bwd (A B : list (nat * nat)) u j d :
  fwd <> bwd ->
  Forall (fun ab => get p fwd ab.1 = ab.2 /\ get p bwd ab.2 = ab.1)
    (A ++ (u, j) :: (j, d) :: B) ->
  List.NoDup (map fst (A ++ (u, j) :: (j, d) :: B)) ->
  List.NoDup (map snd (A ++ (u, j) :: (j, d) :: B)) ->
  (u < length p)%nat -> (d < length p)%nat ->
  Forall (fun ab => get (set (set p bwd d u) fwd u d) fwd ab.1 = ab.2 /\
                    get (set (set p bwd d u) fwd u d) bwd ab.2 = ab.1)
    (A ++ (u, d) :: B).
Proof.
  intros Hfb Hl Hnd1 Hnd2 Hu Hd.
  rewrite map_app in Hnd1, Hnd2. simpl in Hnd1, Hnd2.
  assert (forall ab, In ab (A ++ B) -> ab.1 <> u /\ ab.2 <> d) as Hother.
  { intros ab Hab. split; intros Heq.
    - apply NoDup_remove_2 in Hnd1. apply Hnd1. rewrite <- Heq.
      apply in_app_or in Hab. apply in_or_app.
      destruct Hab as [H|H]; [left|right; right]; apply in_map, H.
    - change (map snd A ++ j :: d :: map snd B)
        with (map snd A ++ [j] ++ d :: map snd B) in Hnd2.
      rewrite app_assoc in Hnd2. apply NoDup_remove_2 in Hnd2. apply Hnd2. rewrite <- Heq.
      apply in_app_or in Hab. apply in_or_app.
      destruct Hab as [H|H]; [left; apply in_or_app; left|right]; apply in_map, H. }
  assert (forall ab, In ab (A ++ B) ->
            get (set (set p bwd d u) fwd u d) fwd ab.1 = ab.2 /\
            get (set (set p bwd d u) fwd u d) bwd ab.2 = ab.1) as Hkeep.
  { intros ab Hab. destruct (Hother ab Hab) as [H1 H2].
    rewrite List.Forall_forall in Hl.
    destruct (Hl ab) as [Hf Hb].
    { apply in_app_or in Hab. apply in_or_app. destruct Hab; [left|right; right; right]; assumption. }
    split.
    - rewrite get_set_other by (right; exact H1).
      rewrite get_set_other by (left; auto). exact Hf.
    - rewrite get_set_other by (left; exact Hfb).
      rewrite get_set_other by (right; exact H2). exact Hb. }
  apply Forall_app. split; [|apply Forall_cons; split].
  - apply List.Forall_forall. intros ab Hab. apply Hkeep, in_or_app. left. exact Hab.
  - simpl. split.
    + apply get_set_same. rewrite length_set. exact Hu.
    + rewrite get_set_other by (left; exact Hfb). apply get_set_same. exact Hd.
  - apply List.Forall_forall. intros ab Hab. apply Hkeep, in_or_app. right. exact Hab.
Qed.

Lemma chain_unlink p fwd bwd x xs j ys z :
  fwd <> bwd ->
  chain p fwd bwd x (xs ++ j :: ys) z ->
  List.NoDup (x :: xs ++ j :: ys) -> List.NoDup (xs ++ j :: ys ++ [z]) ->
  (forall k, In k (x :: xs ++ j :: ys ++ [z]) -> (k < length p)%nat) ->
  let u := get p bwd j in
  let d := get p fwd j in
  In u (x :: xs) /\ In d (ys ++ [z]) /\
  chain (set (set p bwd d u) fwd u d) fwd bwd x (xs ++ ys) z.
Proof.
  intros Hfb Hchain Hnd1 Hnd2 Hlen.
  destruct (adj_remove xs x j ys z) as (u & d & A & B & Hadj & Hadj' & Hfst & Hsnd).
  unfold chain in Hchain. rewrite Hadj in Hchain.
  assert (get p bwd j = u /\ get p fwd j = d) as [-> ->].
  { apply Forall_app in Hchain. destruct Hchain as [_ Hrest].
    apply Forall_cons in Hrest. destruct Hrest as [[_ Hju] Hrest].
    apply Forall_cons in Hrest. destruct Hrest as [[Hjd _] _]. auto. }
  assert (In u (x :: xs)) as Hu by (rewrite Hfst; apply in_or_app; right; left; reflexivity).
  assert (In d (ys ++ [z])) as Hd by (rewrite Hsnd; left; reflexivity).
  cbv zeta. split; [exact Hu|]. split; [exact Hd|].
  unfold chain. rewrite Hadj'. apply (links_unlink p fwd bwd A B u j d Hfb Hchain).
  - rewrite <- Hadj, adj_fst. exact Hnd1.
  - rewrite <- Hadj, adj_snd, <- app_assoc. exact Hnd2.
  - apply Hlen. destruct Hu as [<-|Hu]; [left; reflexivity|].
    right. apply in_or_app. left. exact Hu.
  - apply Hlen. right. apply in_or_app. right. right. exact Hd.
Qed.

(** ** The node pool: layout and invariants *)

Section PoolFacts.
Variable ncols : nat.
Variable cands : list Candidate.

Local Abbreviation base := (base ncols).
Local Abbreviation nbody := (nbody cands).
Local Abbreviation validCol := (validCol ncols).
Local Abbreviation wfCands := (wfCands ncols cands).
Local Abbreviation nodeCand := (nodeCand ncols cands).
Local Abbreviation nodeCol := (nodeCol ncols cands).
Local Abbreviation rowOfNode := (rowOfNode ncols).
Local Abbreviation rowBase := (rowBase ncols).
Local Abbreviation rowPos := (rowPos ncols).
Local Abbreviation rowNode := (rowNode ncols).
Local Abbreviation others := (others ncols).
Local Abbreviation othersOf := (othersOf ncols).
Local Abbreviation rowNodes := (rowNodes ncols).
Local Abbreviation colAll := (colAll ncols cands).
Local Abbreviation colUpTo := (colUpTo ncols cands).
Local Abbreviation Static := (Static ncols cands).
Local Abbreviation Linked := (Linked ncols cands).
Local Abbreviation rowAlive := (rowAlive ncols).
Local Abbreviation touchesCol := (touchesCol cands).
Local Abbreviation Closed := (Closed cands).
Local Abbreviation Stable := (Stable ncols cands).
Local Abbreviation distinctCols := (distinctCols ncols cands).
Local Abbreviation ring0 := (ring0 ncols).
Local Abbreviation Built := (Built ncols cands).
Local Abbreviation allRows := (allRows cands).
Local Abbreviation candsAt := (candsAt cands).
Local Abbreviation liveIdx := (liveIdx cands).
Local Abbreviation rowsIdx := (rowsIdx cands).
Local Abbreviation Represents := (Represents ncols cands).
Local Abbreviation candOf := (candOf ncols cands).

(** *** Facts about the layout *)

Lemma nodeCand_bounds i r :
  nodeCand i = Some r -> (base <= i < base + nbody)%nat.
Proof.
  unfold nodeCand, nbody. case_decide as Hb; [|discriminate]. intros Hr.
  apply lookup_lt_Some in Hr. split; [assumption|].
  pose proof (Nat.div_mod_eq (i - base) 4). pose proof (Nat.mod_upper_bound (i - base) 4). lia.
Qed.

Lemma nodeCol_nodeCand i k : nodeCol i = Some k -> exists r, nodeCand i = Some r /\ In k (ccols r).
Proof.
  unfold nodeCol. destruct (nodeCand i) as [r|]; [|discriminate].
  intros H. exists r. split; [reflexivity|].
  apply list_elem_of_In. eapply list_elem_of_lookup_2, H.
Qed.

Lemma nodeCol_bounds i k : nodeCol i = Some k -> (base <= i < base + nbody)%nat.
Proof. intros H. destruct (nodeCol_nodeCand i k H) as (r & Hr & _). eapply nodeCand_bounds, Hr. Qed.

Lemma colAll_In k i : In i (colAll k) <-> nodeCol i = Some k.
Proof.
  unfold colAll. rewrite <- list_elem_of_In, list_elem_of_filter, list_elem_of_In, in_seq.
  split; [tauto|]. intros H. split; [exact H|]. eapply nodeCol_bounds, H.
Qed.

Lemma colAll_NoDup k : List.NoDup (colAll k).
Proof.
  unfold colAll. apply NoDup_ListNoDup, NoDup_filter, NoDup_ListNoDup, seq_NoDup.
Qed.

Lemma hidx_lt_base k : validCol k -> (0 < hidx k < base)%nat.
Proof. unfold validCol, hidx, base. lia. Qed.

Lemma hidx_inj k k' : validCol k -> validCol k' -> hidx k = hidx k' -> k = k'.
Proof. unfold validCol, hidx. lia. Qed.

Lemma filter_NoDup_list {A} (P : A -> Prop) {decP : forall x, Decision (P x)} (l : list A) :
  List.NoDup l -> List.NoDup (filter P l).
Proof. intros H. apply NoDup_ListNoDup, NoDup_filter, NoDup_ListNoDup, H. Qed.

Lemma filter_In_list {A} (P : A -> Prop) {decP : forall x, Decision (P x)} (l : list A) x :
  In x (filter P l) <-> P x /\ In x l.
Proof. rewrite <- !list_elem_of_In. apply list_elem_of_filter. Qed.

Lemma filter_ext_in {A} (P Q : A -> Prop) {decP : forall x, Decision (P x)}
    {decQ : forall x, Decision (Q x)} (l : list A) :
  (forall x, In x l -> (P x <-> Q x)) -> filter P l = filter Q l.
Proof.
  induction l as [|a l IH]; intros Hext; [reflexivity|].
  assert (filter P l = filter Q l) as IH' by (apply IH; intros x Hx; apply Hext; right; exact Hx).
  destruct (decide (P a)) as [Ha|Ha].
  - rewrite filter_cons_True by exact Ha.
    rewrite filter_cons_True by (apply Hext; [left; reflexivity|exact Ha]).
    rewrite IH'. reflexivity.
  - rewrite filter_cons_False by exact Ha.
    rewrite filter_cons_False by (intros HQ; apply Ha, Hext; [left; reflexivity|exact HQ]).
    exact IH'.
Qed.

(** Taking one element out of a filtered list. *)
Lemma filter_remove {A} `{EqDecision A} (P : A -> Prop) {decP : forall x, Decision (P x)}
    (l : list A) j :
  List.NoDup l -> In j (filter P l) ->
  exists xs ys, filter P l = xs ++ j :: ys /\
                filter (fun i => P i /\ i <> j) l = xs ++ ys.
Proof.
  induction l as [|a l IH]; intros Hnd Hj; [destruct Hj|].
  inversion Hnd as [|? ? Ha Hnd']; subst.
  destruct (decide (a = j)) as [->|Hne].
  - assert (P j) as HP by (apply filter_In_list in Hj; tauto).
    exists [], (filter P l). rewrite filter_cons_True by exact HP.
    rewrite filter_cons_False by tauto. split; [reflexivity|].
    simpl. apply filter_ext_in. intros x Hx. split; [tauto|].
    intros HPx. split; [exact HPx|]. intros ->. contradiction.
  - assert (In j (filter P l)) as Hj'.
    { apply filter_In_list in Hj. apply filter_In_list. destruct Hj as [HP [Heq|Hin]]; [congruence|auto]. }
    destruct (IH Hnd' Hj') as (xs & ys & H1 & H2).
    destruct (decide (P a)) as [HPa|HPa].
    + exists (a :: xs), ys. rewrite filter_cons_True by exact HPa.
      rewrite filter_cons_True by tauto. rewrite H1, H2. auto.
    + exists xs, ys. rewrite filter_cons_False by exact HPa.
      rewrite filter_cons_False by tauto. auto.
Qed.

(** *** The primitive link operations *)

Lemma unlinkV_eq p j u d c :
  get p FU j = u -> get p FD j = d -> colOf p j = c -> j <> d ->
  unlinkV j p = set (set (set p FU d u) FD u d) FSize c (get p FSize c - 1)%nat.
Proof.
  intros Hu Hd Hc Hjd. unfold unlinkV. cbv zeta. rewrite Hu, Hd.
  rewrite (get_set_other p FU d u FU j) by (right; exact Hjd).
  rewrite (get_set_other p FU d u FD j) by (left; discriminate).
  rewrite Hu, Hd. rewrite !colOf_set, Hc.
  rewrite (get_set_other _ FD u d FSize c) by (left; discriminate).
  rewrite (get_set_other _ FU d u FSize c) by (left; discriminate).
  reflexivity.
Qed.

Lemma relinkV_eq p j u d c :
  get p FU j = u -> get p FD j = d -> colOf p j = c -> j <> d ->
  relinkV j p = set (set (set p FU d j) FD u j) FSize c (get p FSize c + 1)%nat.
Proof.
  intros Hu Hd Hc Hjd. unfold relinkV. cbv zeta. rewrite Hd.
  rewrite (get_set_other p FU d j FU j) by (right; exact Hjd).
  rewrite Hu. rewrite !colOf_set, Hc.
  rewrite (get_set_other _ FD u j FSize c) by (left; discriminate).
  rewrite (get_set_other _ FU d j FSize c) by (left; discriminate).
  reflexivity.
Qed.

Lemma unlinkH_eq p h l r :
  get p FL h = l -> get p FR h = r -> h <> r ->
  unlinkH h p = set (set p FL r l) FR l r.
Proof.
  intros Hl Hr Hne. unfold unlinkH. cbv zeta. rewrite Hl, Hr.
  rewrite (get_set_other p FL r l FL h) by (right; exact Hne).
  rewrite (get_set_other p FL r l FR h) by (left; discriminate).
  rewrite Hl, Hr. reflexivity.
Qed.

Lemma relinkH_eq p h l r :
  get p FL h = l -> get p FR h = r -> h <> r ->
  relinkH h p = set (set p FL r h) FR l h.
Proof.
  intros Hl Hr Hne. unfold relinkH. cbv zeta. rewrite Hr.
  rewrite (get_set_other p FL r h FL h) by (right; exact Hne).
  rewrite Hl. reflexivity.
Qed.

(** Relinking undoes unlinking. *)
Lemma relinkV_unlinkV p j u d c :
  get p FU j = u -> get p FD j = d -> colOf p j = c ->
  get p FU d = j -> get p FD u = j -> j <> u -> j <> d ->
  (u < length p)%nat -> (d < length p)%nat -> (c < length p)%nat ->
  (1 <= get p FSize c)%nat ->
  relinkV j (unlinkV j p) = p.
Proof.
  intros Hu Hd Hc Hdu Hud Hju Hjd Hlu Hld Hlc Hsz.
  rewrite (unlinkV_eq p j u d c) by auto.
  rewrite (relinkV_eq _ j u d c).
  - apply pool_ext.
    + rewrite !length_set. reflexivity.
    + intros f i. rewrite !get_set, !length_set.
      repeat case_decide; try reflexivity; destruct_and?; simplify_eq; try lia;
        try (exfalso; intuition (congruence || lia)).
      all: idtac.
    + intros i. rewrite !colOf_set. reflexivity.
    + intros i. rewrite !rowOf_set. reflexivity.
  - rewrite !get_set_other by (left; discriminate).
    rewrite get_set_other by (right; exact Hjd). exact Hu.
  - rewrite get_set_other by (left; discriminate).
    rewrite get_set_other by (right; exact Hju).
    rewrite get_set_other by (left; discriminate). exact Hd.
  - rewrite !colOf_set. exact Hc.
  - exact Hjd.
Qed.

Lemma relinkH_unlinkH p h l r :
  get p FL h = l -> get p FR h = r -> get p FL r = h -> get p FR l = h ->
  h <> l -> h <> r -> (l < length p)%nat -> (r < length p)%nat ->
  relinkH h (unlinkH h p) = p.
Proof.
  intros Hl Hr Hrl Hlr Hhl Hhr Hll Hlr'.
  rewrite (unlinkH_eq p h l r) by auto.
  rewrite (relinkH_eq _ h l r).
  - apply pool_ext.
    + rewrite !length_set. reflexivity.
    + intros f i. rewrite !get_set, !length_set.
      repeat case_decide; try reflexivity; destruct_and?; simplify_eq; try lia;
        try (exfalso; intuition (congruence || lia)).
      all: idtac.
    + intros i. rewrite !colOf_set. reflexivity.
    + intros i. rewrite !rowOf_set. reflexivity.
  - rewrite get_set_other by (left; discriminate).
    rewrite get_set_other by (right; exact Hhr). exact Hl.
  - rewrite get_set_other by (right; exact Hhl).
    rewrite get_set_other by (left; discriminate). exact Hr.
  - exact Hhr.
Qed.

(** *** One vertical unlink *)

Lemma Static_frame p q :
  Static p -> length q = length p ->
  (forall i, colOf q i = colOf p i) -> (forall i, rowOf q i = rowOf p i) ->
  (forall i, (base <= i)%nat -> get q FR i = get p FR i /\ get q FL i = get p FL i) ->
  Static q.
Proof.
  intros [Hlen Hst] Hl Hc Hr Hlr. split; [congruence|].
  intros i r Hi. destruct (Hst i r Hi) as (H1 & H2 & H3 & H4).
  pose proof (nodeCand_bounds i r Hi) as Hb.
  destruct (Hlr i ltac:(lia)) as [HR HL].
  rewrite Hr, HR, HL. repeat (split; [assumption|]). intros k Hk. rewrite Hc. auto.
Qed.

Lemma NoDup_snoc {A} (l : list A) (x : A) :
  List.NoDup l -> ~ In x l -> List.NoDup (l ++ [x]).
Proof.
  intros Hnd Hx. apply NoDup_ListNoDup, NoDup_app.
  split; [apply NoDup_ListNoDup, Hnd|]. split.
  - intros y Hy Hy'. apply list_elem_of_In in Hy, Hy'. destruct Hy' as [<-|[]]. contradiction.
  - apply NoDup_singleton.
Qed.

Lemma unlinkV_Linked p ring cols (alive : nat -> Prop)
    {decAlive : forall i, Decision (alive i)} j k :
  Static p -> (forall c, In c cols -> validCol c) ->
  Linked p ring cols alive -> nodeCol j = Some k -> In k cols -> alive j ->
  Linked (unlinkV j p) ring cols (fun i => alive i /\ i <> j) /\
  Static (unlinkV j p) /\
  relinkV j (unlinkV j p) = p /\
  (forall i, get (unlinkV j p) FL i = get p FL i /\ get (unlinkV j p) FR i = get p FR i) /\
  (forall f i, i <> hidx k -> nodeCol i <> Some k -> get (unlinkV j p) f i = get p f i).
Proof.
  intros Hst Hvalid [Hring Hcols] Hjk Hk Hj.
  pose proof Hst as [Hlen Hstat].
  destruct (Hcols k Hk) as [Hchain Hsize].
  pose proof (Hvalid k Hk) as Hvk. pose proof (hidx_lt_base k Hvk) as Hhk.
  assert (In j (filter alive (colAll k))) as Hjin.
  { apply filter_In_list. split; [exact Hj|]. apply colAll_In, Hjk. }
  destruct (filter_remove alive (colAll k) j (colAll_NoDup k) Hjin) as (xs & ys & Hsplit & Hrest).
  assert (forall i, In i (xs ++ j :: ys) -> nodeCol i = Some k) as Hcolk.
  { intros i Hi. rewrite <- Hsplit in Hi. apply filter_In_list in Hi. apply colAll_In. tauto. }
  assert (forall i, In i (xs ++ j :: ys) -> (base <= i < length p)%nat) as Hbody.
  { intros i Hi. rewrite Hlen. eapply nodeCol_bounds, Hcolk, Hi. }
  assert (~ In (hidx k) (xs ++ j :: ys)) as Hhnot.
  { intros H. apply Hbody in H. lia. }
  assert (List.NoDup (xs ++ j :: ys)) as Hnd.
  { rewrite <- Hsplit. apply filter_NoDup_list, colAll_NoDup. }
  rewrite Hsplit in Hchain, Hsize.
  destruct (chain_unlink p FD FU (hidx k) xs j ys (hidx k)) as (Hu & Hd & Hchain').
  { discriminate. }
  { exact Hchain. }
  { constructor; assumption. }
  { change (xs ++ j :: ys ++ [hidx k]) with (xs ++ (j :: ys) ++ [hidx k]).
    rewrite app_assoc. apply NoDup_snoc; assumption. }
  { intros i [<-|Hi]; [lia|].
    change (xs ++ j :: ys ++ [hidx k]) with (xs ++ (j :: ys) ++ [hidx k]) in Hi.
    rewrite app_assoc in Hi. apply in_app_or in Hi.
    destruct Hi as [Hi|[<-|[]]]; [apply Hbody, Hi|lia]. }
  set (u := get p FU j) in *. set (d := get p FD j) in *.
  assert (j <> u) as Hju.
  { intros Heq. destruct Hu as [Hu|Hu].
    - apply Hhnot. rewrite Hu, <- Heq. apply in_or_app. right. left. reflexivity.
    - apply NoDup_remove_2 in Hnd. apply Hnd. rewrite Heq. apply in_or_app. left. exact Hu. }
  assert (j <> d) as Hjd.
  { intros Heq. apply in_app_or in Hd. destruct Hd as [Hd|[Hd|[]]].
    - apply NoDup_remove_2 in Hnd. apply Hnd. rewrite Heq. apply in_or_app. right. exact Hd.
    - apply Hhnot. rewrite Hd, <- Heq. apply in_or_app. right. left. reflexivity. }
  assert (forall i, In i (hidx k :: xs ++ j :: ys) -> i = hidx k \/ nodeCol i = Some k) as Hin_col.
  { intros i [<-|Hi]; [left; reflexivity|right; apply Hcolk, Hi]. }
  assert (u = hidx k \/ nodeCol u = Some k) as Hucol.
  { apply Hin_col. destruct Hu as [<-|Hu]; [left; reflexivity|].
    right. apply in_or_app. left. exact Hu. }
  assert (d = hidx k \/ nodeCol d = Some k) as Hdcol.
  { apply Hin_col. apply in_app_or in Hd. destruct Hd as [Hd|[<-|[]]]; [|left; reflexivity].
    right. apply in_or_app. right. right. exact Hd. }
  assert ((u < length p)%nat /\ (d < length p)%nat) as [Hlu Hld].
  { split.
    - destruct Hucol as [->|H]; [lia|]. apply nodeCol_bounds in H. lia.
    - destruct Hdcol as [->|H]; [lia|]. apply nodeCol_bounds in H. lia. }
  destruct (nodeCol_nodeCand j k Hjk) as (r & Hr & _).
  destruct (Hstat j r Hr) as (_ & _ & _ & Hcolj). specialize (Hcolj k Hjk).
  assert (get p FU d = j /\ get p FD u = j) as [Hdu Hud].
  { unfold chain in Hchain. destruct (adj_remove xs (hidx k) j ys (hidx k))
      as (u' & d' & A & B & Hadj & _ & _ & _).
    rewrite Hadj in Hchain. apply Forall_app in Hchain. destruct Hchain as [_ Hc].
    apply Forall_cons in Hc. destruct Hc as [[H1 H2] Hc].
    apply Forall_cons in Hc. destruct Hc as [[H3 H4] _]. simpl in *.
    unfold u, d. rewrite H2, H3. auto. }
  assert (unlinkV j p = set (set (set p FU d u) FD u d) FSize (hidx k)
                          (get p FSize (hidx k) - 1)%nat) as Heq.
  { apply unlinkV_eq; auto. }
  assert (forall f i, i <> hidx k -> nodeCol i <> Some k ->
            get (unlinkV j p) f i = get p f i) as Hframe.
  { intros f i Hi1 Hi2. rewrite Heq.
    rewrite !get_set_other; [reflexivity| | |]; right; intros ->.
    - destruct Hdcol; contradiction.
    - destruct Hucol; contradiction.
    - contradiction. }
  assert (forall i, get (unlinkV j p) FL i = get p FL i /\
                    get (unlinkV j p) FR i = get p FR i) as Hlr.
  { intros i. rewrite Heq. split; rewrite !get_set_other by (left; discriminate); reflexivity. }
  split; [|split; [|split; [|split; assumption]]].
  - split.
    + eapply chain_frame; [| |exact Hring]; intros i _; apply Hlr.
    + intros k' Hk'. destruct (decide (k' = k)) as [->|Hne].
      * assert (filter (fun i => alive i /\ i <> j) (colAll k) = xs ++ ys) as -> by exact Hrest.
        split.
        -- rewrite Heq. eapply chain_frame; [| |exact Hchain'];
             intros i _; apply get_set_other; left; discriminate.
        -- rewrite Heq. rewrite get_set_same by (rewrite !length_set; lia).
           rewrite Hsize, !length_app. simpl. lia.
      * destruct (Hcols k' Hk') as [Hchain2 Hsize2].
        pose proof (Hvalid k' Hk') as Hvk'.
        assert (filter (fun i => alive i /\ i <> j) (colAll k') = filter alive (colAll k')) as ->.
        { apply filter_ext_in. intros i Hi. split; [tauto|]. intros Ha. split; [exact Ha|].
          intros ->. apply colAll_In in Hi. congruence. }
        assert (forall i, In i (hidx k' :: filter alive (colAll k') ++ [hidx k']) ->
                  i <> hidx k /\ nodeCol i <> Some k) as Hother.
        { assert (hidx k' <> hidx k /\ nodeCol (hidx k') <> Some k) as Hh.
          { split; [intros H; apply Hne; eapply hidx_inj; eauto|].
            intros H. apply nodeCol_bounds in H. pose proof (hidx_lt_base k' Hvk'). lia. }
          intros i [<-|Hi]; [exact Hh|]. apply in_app_or in Hi.
          destruct Hi as [Hi|[<-|[]]]; [|exact Hh].
          apply filter_In_list in Hi. destruct Hi as [_ Hi]. apply colAll_In in Hi.
          split; [|congruence]. intros ->. apply nodeCol_bounds in Hi. lia. }
        split.
        -- eapply chain_frame; [| |exact Hchain2]; intros i Hi.
           ++ assert (In i (hidx k' :: filter alive (colAll k') ++ [hidx k'])) as Hi'.
              { destruct Hi as [<-|Hi]; [left; reflexivity|right; apply in_or_app; left; exact Hi]. }
              apply Hframe; apply Hother, Hi'.
           ++ apply Hframe; apply Hother; right; exact Hi.
        -- rewrite Hframe; [exact Hsize2| |]; apply Hother; left; reflexivity.
  - apply (Static_frame p); [exact Hst| | | |].
    + rewrite Heq, !length_set. reflexivity.
    + intros i. rewrite Heq, !colOf_set. reflexivity.
    + intros i. rewrite Heq, !rowOf_set. reflexivity.
    + intros i _. destruct (Hlr i). auto.
  - apply (relinkV_unlinkV p j u d (hidx k)); auto; try lia.
    rewrite Hsize, length_app. simpl. lia.
Qed.

Lemma Linked_ext p ring cols (alive alive' : nat -> Prop)
    {decAlive : forall i, Decision (alive i)} {decAlive' : forall i, Decision (alive' i)} :
  (forall c i, In c cols -> In i (colAll c) -> (alive i <-> alive' i)) ->
  Linked p ring cols alive -> Linked p ring cols alive'.
Proof.
  intros Hext [Hring Hcols]. split; [exact Hring|]. intros k Hk.
  rewrite <- (filter_ext_in alive alive' (colAll k)) by (intros i Hi; eapply Hext; eauto).
  apply Hcols, Hk.
Qed.

Lemma Linked_sub p ring cols cols' (alive : nat -> Prop)
    {decAlive : forall i, Decision (alive i)} :
  (forall c, In c cols' -> In c cols) -> Linked p ring cols alive -> Linked p ring cols' alive.
Proof. intros Hsub [Hring Hcols]. split; [exact Hring|]. intros k Hk. apply Hcols, Hsub, Hk. Qed.

Lemma runBody_app body xs ys p :
  runBody body (xs ++ ys) p = runBody body ys (runBody body xs p).
Proof. unfold runBody. apply fold_left_app. Qed.

(** *** A sequence of vertical unlinks *)

Lemma unlinkV_fold ring cols (JS : list nat) : forall p (alive : nat -> Prop)
    {decAlive : forall i, Decision (alive i)},
  Static p -> (forall c, In c cols -> validCol c) ->
  Linked p ring cols alive -> List.NoDup JS ->
  (forall j, In j JS -> alive j /\ exists k, In k cols /\ nodeCol j = Some k) ->
  Linked (runBody unlinkV JS p) ring cols (fun i => alive i /\ ~ In i JS) /\
  Static (runBody unlinkV JS p) /\
  runBody relinkV (rev JS) (runBody unlinkV JS p) = p /\
  (forall i, get (runBody unlinkV JS p) FL i = get p FL i /\
             get (runBody unlinkV JS p) FR i = get p FR i) /\
  (forall f i,
     (forall j k, In j JS -> nodeCol j = Some k -> i <> hidx k /\ nodeCol i <> Some k) ->
     get (runBody unlinkV JS p) f i = get p f i).
Proof.
  induction JS as [|j JS IH]; intros p alive decAlive Hst Hvalid Hinv Hnd Hall.
  - simpl. split; [|auto].
    eapply Linked_ext; [|exact Hinv]. intros c i _ _. simpl. tauto.
  - inversion Hnd as [|? ? Hj Hnd']; subst.
    destruct (Hall j ltac:(left; reflexivity)) as (Halive & k & Hk & Hjk).
    destruct (unlinkV_Linked p ring cols alive j k Hst Hvalid Hinv Hjk Hk Halive)
      as (Hinv1 & Hst1 & Hback1 & Hlr1 & Hframe1).
    destruct (IH (unlinkV j p) (fun i => alive i /\ i <> j) _ Hst1 Hvalid Hinv1 Hnd')
      as (Hinv2 & Hst2 & Hback2 & Hlr2 & Hframe2).
    { intros j' Hj'. destruct (Hall j' ltac:(right; exact Hj')) as [Ha Hc].
      split; [|exact Hc]. split; [exact Ha|]. intros ->. contradiction. }
    change (runBody unlinkV (j :: JS) p) with (runBody unlinkV JS (unlinkV j p)).
    split; [|split; [exact Hst2|split; [|split]]].
    + eapply Linked_ext; [|exact Hinv2]. intros c i _ _. simpl. split.
      * intros [[Ha Hne] Hn]. split; [exact Ha|]. intros [Heq|Hin]; [congruence|contradiction].
      * intros [Ha Hn]. split; [split; [exact Ha|]|]; intros H; apply Hn; [left|right]; auto.
    + simpl rev. rewrite runBody_app, Hback2. exact Hback1.
    + intros i. destruct (Hlr2 i) as [-> ->]. apply Hlr1.
    + intros f i Hi. rewrite Hframe2.
      * apply Hframe1; eapply Hi; eauto. left. reflexivity.
        left. reflexivity.
      * intros j' k' Hj' Hk'. eapply Hi; eauto. right. exact Hj'.
Qed.

(** *** The ring of a row *)

Lemma rowNode_cand i q r :
  nodeCand i = Some r -> nodeCand (rowNode i q) = Some r.
Proof.
  intros Hi. pose proof (nodeCand_bounds i r Hi) as Hb. revert Hi.
  unfold nodeCand, rowNode, rowBase, rowPos.
  rewrite !decide_True by lia. intros <-. f_equal. lia_div.
Qed.

Lemma rowNode_rowNode i a b :
  (base <= i)%nat -> rowNode (rowNode i a) b = rowNode i (a + b).
Proof. intros Hb. unfold rowNode, rowBase, rowPos. lia_div. Qed.

Lemma rowNode_0 i : (base <= i)%nat -> rowNode i 0 = i.
Proof. intros Hb. unfold rowNode, rowBase, rowPos. lia_div. Qed.

Lemma rowNode_4 i q : rowNode i (q + 4) = rowNode i q.
Proof. unfold rowNode, rowBase, rowPos. lia_div. Qed.

Lemma rowNode_pos i q : (base <= i)%nat -> rowPos (rowNode i q) = ((rowPos i + q) mod 4)%nat.
Proof. intros Hb. unfold rowNode, rowBase, rowPos. lia_div. Qed.

Lemma rowNode_ne i q : (0 < q < 4)%nat -> rowNode i q <> i.
Proof. intros Hq. unfold rowNode, rowBase, rowPos. lia_div. Qed.

Lemma rowNode_inj i a b : (a < 4)%nat -> (b < 4)%nat -> rowNode i a = rowNode i b -> a = b.
Proof. intros Ha Hb. unfold rowNode, rowBase, rowPos. lia_div. Qed.

Lemma others_NoDup i : List.NoDup (i :: others i).
Proof.
  unfold others. repeat constructor; simpl.
  - intros [H|[H|[H|[]]]]; revert H; apply rowNode_ne; lia.
  - intros [H|[H|[]]]; apply rowNode_inj in H; lia.
  - intros [H|[]]; apply rowNode_inj in H; lia.
  - intros [].
Qed.

Lemma others_cand i r j : nodeCand i = Some r -> In j (others i) -> nodeCand j = Some r.
Proof.
  intros Hi [<-|[<-|[<-|[]]]]; apply rowNode_cand, Hi.
Qed.

(** Walking right, or left, from a node of a row visits its other nodes. *)
Lemma row_fpath_R p i r :
  Static p -> nodeCand i = Some r -> fpath p FR i (others i) i.
Proof.
  intros [_ Hst] Hi. pose proof (nodeCand_bounds i r Hi) as Hb.
  unfold fpath, others. simpl.
  repeat (apply List.Forall_cons || apply List.Forall_nil); simpl.
  - apply (Hst i r Hi).
  - destruct (Hst _ r (rowNode_cand i 1 r Hi)) as (_ & -> & _).
    apply rowNode_rowNode. lia.
  - destruct (Hst _ r (rowNode_cand i 2 r Hi)) as (_ & -> & _).
    apply rowNode_rowNode. lia.
  - destruct (Hst _ r (rowNode_cand i 3 r Hi)) as (_ & -> & _).
    rewrite rowNode_rowNode by lia. change (3 + 1)%nat with (0 + 4)%nat.
    rewrite (rowNode_4 i 0). apply rowNode_0. lia.
Qed.

Lemma row_fpath_L p i r :
  Static p -> nodeCand i = Some r -> fpath p FL i (rev (others i)) i.
Proof.
  intros [_ Hst] Hi. pose proof (nodeCand_bounds i r Hi) as Hb.
  unfold fpath, others. simpl.
  repeat (apply List.Forall_cons || apply List.Forall_nil); simpl.
  - apply (Hst i r Hi).
  - destruct (Hst _ r (rowNode_cand i 3 r Hi)) as (_ & _ & -> & _).
    rewrite rowNode_rowNode by lia. apply (rowNode_4 i 2).
  - destruct (Hst _ r (rowNode_cand i 2 r Hi)) as (_ & _ & -> & _).
    rewrite rowNode_rowNode by lia. apply (rowNode_4 i 1).
  - destruct (Hst _ r (rowNode_cand i 1 r Hi)) as (_ & _ & -> & _).
    rewrite rowNode_rowNode by lia. change (1 + 3)%nat with (0 + 4)%nat.
    rewrite (rowNode_4 i 0). apply rowNode_0. lia.
Qed.

Lemma unlinkV_LR j p f i : f = FL \/ f = FR -> get (unlinkV j p) f i = get p f i.
Proof.
  intros Hf. unfold unlinkV. cbv zeta.
  rewrite !get_set_other; [reflexivity| | |]; left; destruct Hf; subst; discriminate.
Qed.

Lemma relinkV_LR j p f i : f = FL \/ f = FR -> get (relinkV j p) f i = get p f i.
Proof.
  intros Hf. unfold relinkV. cbv zeta.
  rewrite !get_set_other; [reflexivity| | |]; left; destruct Hf; subst; discriminate.
Qed.

(** The inner loops of cover and uncover. *)
Lemma forEach_row_unlink p i r :
  Static p -> nodeCand i = Some r ->
  forEach FR i unlinkV p = runBody unlinkV (others i) p.
Proof.
  intros Hst Hi. apply forEach_fold_static.
  - intros y q k. apply unlinkV_LR. auto.
  - eapply row_fpath_R; eauto.
  - pose proof (others_NoDup i) as H. inversion H; assumption.
  - destruct Hst as [-> _]. pose proof (nodeCand_bounds i r Hi) as Hb.
    unfold others, nbody, base in *. simpl. lia.
Qed.

Lemma forEach_row_relink p i r :
  Static p -> nodeCand i = Some r ->
  forEach FL i relinkV p = runBody relinkV (rev (others i)) p.
Proof.
  intros Hst Hi. apply forEach_fold_static.
  - intros y q k. apply relinkV_LR. auto.
  - eapply row_fpath_L; eauto.
  - pose proof (others_NoDup i) as H. inversion H; subst. rewrite <- in_rev. assumption.
  - destruct Hst as [-> _]. pose proof (nodeCand_bounds i r Hi) as Hb.
    unfold others, nbody, base in *. simpl. lia.
Qed.

(** *** Unlinking a header *)

Lemma NoDup_split_filter {A} `{EqDecision A} (l : list A) (k : A) :
  List.NoDup l -> In k l ->
  exists xs ys, l = xs ++ k :: ys /\ filter (fun c => c <> k) l = xs ++ ys.
Proof.
  induction l as [|a l IH]; intros Hnd Hk; [destruct Hk|].
  inversion Hnd as [|? ? Ha Hnd']; subst.
  destruct (decide (a = k)) as [->|Hne].
  - exists [], l. split; [reflexivity|]. rewrite filter_cons_False by tauto. simpl.
    rewrite <- (filter_ext_in (fun _ => True) (fun c => c <> k) l).
    + clear. induction l as [|b l IH]; [reflexivity|].
      rewrite filter_cons_True by exact I. f_equal. exact IH.
    + intros x Hx. split; [|tauto]. intros _ ->. contradiction.
  - destruct Hk as [Hk|Hk]; [contradiction|].
    destruct (IH Hnd' Hk) as (xs & ys & -> & Hf).
    exists (a :: xs), ys. split; [reflexivity|].
    rewrite filter_cons_True by exact Hne. rewrite Hf. reflexivity.
Qed.

Lemma NoDup_map_hidx (l : list Z) :
  List.NoDup l -> (forall c, In c l -> validCol c) -> List.NoDup (map hidx l).
Proof.
  induction l as [|a l IH]; intros Hnd Hv; simpl; [constructor|].
  inversion Hnd as [|? ? Ha Hnd']; subst. constructor.
  - intros H. apply in_map_iff in H. destruct H as (b & Hb & Hin).
    apply hidx_inj in Hb; [subst; contradiction| |]; apply Hv; auto with datatypes.
  - apply IH; [exact Hnd'|]. intros c Hc. apply Hv. right. exact Hc.
Qed.

Lemma unlinkH_Linked p ring cols (alive : nat -> Prop)
    {decAlive : forall i, Decision (alive i)} k :
  Static p -> Linked p ring cols alive -> In k ring -> List.NoDup ring ->
  (forall c, In c ring -> validCol c) ->
  Linked (unlinkH (hidx k) p) (filter (fun c => c <> k) ring) cols alive /\
  Static (unlinkH (hidx k) p) /\
  relinkH (hidx k) (unlinkH (hidx k) p) = p /\
  (forall f i, f <> FL -> f <> FR -> get (unlinkH (hidx k) p) f i = get p f i) /\
  (forall f i, (base <= i)%nat -> get (unlinkH (hidx k) p) f i = get p f i).
Proof.
  intros Hst [Hring Hcols] Hk Hnd Hvalid. pose proof Hst as [Hlen _].
  destruct (NoDup_split_filter ring k Hnd Hk) as (xs & ys & Hsplit & Hfilter).
  rewrite Hfilter. rewrite Hsplit in Hring. rewrite map_app in Hring. simpl in Hring.
  pose proof (NoDup_map_hidx ring Hnd Hvalid) as Hndh.
  rewrite Hsplit, map_app in Hndh. simpl in Hndh.
  assert (forall i, In i (map hidx xs ++ hidx k :: map hidx ys) -> (0 < i < base)%nat) as Hhdr.
  { intros i Hi. assert (In i (map hidx ring)) as Hi'.
    { rewrite Hsplit, map_app. exact Hi. }
    apply in_map_iff in Hi'. destruct Hi' as (c & <- & Hc). apply hidx_lt_base, Hvalid, Hc. }
  assert (~ In root (map hidx xs ++ hidx k :: map hidx ys)) as Hroot.
  { intros H. apply Hhdr in H. unfold root in H. lia. }
  destruct (chain_unlink p FR FL root (map hidx xs) (hidx k) (map hidx ys) root)
    as (Hu & Hd & Hchain').
  { discriminate. }
  { exact Hring. }
  { constructor; assumption. }
  { change (map hidx xs ++ hidx k :: map hidx ys ++ [root])
      with (map hidx xs ++ (hidx k :: map hidx ys) ++ [root]).
    rewrite app_assoc. apply NoDup_snoc; assumption. }
  { intros i [<-|Hi]; [unfold root, base in *; lia|].
    change (map hidx xs ++ hidx k :: map hidx ys ++ [root])
      with (map hidx xs ++ (hidx k :: map hidx ys) ++ [root]) in Hi.
    rewrite app_assoc in Hi. apply in_app_or in Hi.
    destruct Hi as [Hi|[<-|[]]]; [apply Hhdr in Hi|]; unfold root, base in *; lia. }
  set (l := get p FL (hidx k)) in *. set (r := get p FR (hidx k)) in *.
  assert (In (hidx k) (map hidx xs ++ hidx k :: map hidx ys)) as Hkin
    by (apply in_or_app; right; left; reflexivity).
  assert ((l < base)%nat /\ hidx k <> l) as [Hlb Hhl].
  { destruct Hu as [<-|Hu].
    - split; [unfold root, base; lia|]. intros H. apply Hroot. rewrite <- H. exact Hkin.
    - split; [apply Hhdr; apply in_or_app; left; exact Hu|].
      intros H. apply NoDup_remove_2 in Hndh. apply Hndh. rewrite H.
      apply in_or_app. left. exact Hu. }
  assert ((r < base)%nat /\ hidx k <> r) as [Hrb Hhr].
  { apply in_app_or in Hd. destruct Hd as [Hd|[<-|[]]].
    - split; [apply Hhdr; apply in_or_app; right; right; exact Hd|].
      intros H. apply NoDup_remove_2 in Hndh. apply Hndh. rewrite H.
      apply in_or_app. right. exact Hd.
    - split; [unfold root, base; lia|]. intros H. apply Hroot. rewrite <- H. exact Hkin. }
  assert (get p FL r = hidx k /\ get p FR l = hidx k) as [Hrl Hlr].
  { unfold chain in Hring.
    destruct (adj_remove (map hidx xs) root (hidx k) (map hidx ys) root)
      as (u' & d' & A & B & Hadj & _ & _ & _).
    rewrite Hadj in Hring. apply Forall_app in Hring. destruct Hring as [_ Hc].
    apply Forall_cons in Hc. destruct Hc as [[H1 H2] Hc].
    apply Forall_cons in Hc. destruct Hc as [[H3 H4] _]. simpl in *.
    unfold l, r. rewrite H2, H3. auto. }
  assert (unlinkH (hidx k) p = set (set p FL r l) FR l r) as Heq
    by (apply unlinkH_eq; auto).
  assert (forall f i, f <> FL -> f <> FR -> get (unlinkH (hidx k) p) f i = get p f i) as Hf1.
  { intros f i H1 H2. rewrite Heq. rewrite !get_set_other by (left; congruence). reflexivity. }
  assert (forall f i, (base <= i)%nat -> get (unlinkH (hidx k) p) f i = get p f i) as Hf2.
  { intros f i Hi. rewrite Heq. rewrite !get_set_other by (right; lia). reflexivity. }
  split; [|split; [|split; [|split; assumption]]].
  - split.
    + rewrite map_app, Heq. exact Hchain'.
    + intros c Hc. destruct (Hcols c Hc) as [H1 H2]. split.
      * eapply chain_frame; [| |exact H1]; intros i _; apply Hf1; discriminate.
      * rewrite Hf1 by discriminate. exact H2.
  - apply (Static_frame p); [exact Hst| | | |].
    + rewrite Heq, !length_set. reflexivity.
    + intros i. rewrite Heq, !colOf_set. reflexivity.
    + intros i. rewrite Heq, !rowOf_set. reflexivity.
    + intros i Hi. split; apply Hf2, Hi.
  - apply (relinkH_unlinkH p (hidx k) l r); auto; lia.
Qed.

(** *** Stable states *)

Hypothesis Hwf : wfCands.

Lemma wfCands_lookup t r :
  cands !! t = Some r ->
  length (ccols r) = 4%nat /\ List.NoDup (ccols r) /\ Forall validCol (ccols r).
Proof.
  intros Ht. unfold wfCands in Hwf. rewrite List.Forall_forall in Hwf.
  apply Hwf. apply list_elem_of_In. eapply list_elem_of_lookup_2, Ht.
Qed.

Lemma nodeCand_lookup i r : nodeCand i = Some r -> cands !! rowOfNode i = Some r.
Proof. unfold nodeCand, rowOfNode. case_decide; [tauto|discriminate]. Qed.

Lemma others_row i j : (base <= i)%nat -> In j (others i) -> rowOfNode j = rowOfNode i.
Proof.
  intros Hb [<-|[<-|[<-|[]]]]; unfold rowOfNode, rowNode, rowBase, rowPos; lia_div.
Qed.

Lemma nodeCol_pos i k r :
  nodeCand i = Some r -> nodeCol i = Some k -> ccols r !! rowPos i = Some k.
Proof. unfold nodeCol. intros ->. tauto. Qed.

(** Two nodes of the same row in the same column are the same node. *)
Lemma same_row_col i j k :
  nodeCol i = Some k -> nodeCol j = Some k -> rowOfNode i = rowOfNode j -> i = j.
Proof.
  intros Hi Hj Hrow.
  destruct (nodeCol_nodeCand i k Hi) as (r & Hr & _).
  destruct (nodeCol_nodeCand j k Hj) as (r' & Hr' & _).
  pose proof (nodeCand_bounds i r Hr) as Hbi. pose proof (nodeCand_bounds j r' Hr') as Hbj.
  pose proof (nodeCand_lookup i r Hr) as Hl. pose proof (nodeCand_lookup j r' Hr') as Hl'.
  rewrite Hrow in Hl. rewrite Hl in Hl'. inversion Hl'; subst r'.
  destruct (wfCands_lookup _ r Hl) as (_ & Hnd & _).
  pose proof (nodeCol_pos i k r Hr Hi) as Hpi. pose proof (nodeCol_pos j k r Hr' Hj) as Hpj.
  assert (rowPos i = rowPos j) as Hpos.
  { apply NoDup_ListNoDup in Hnd. eapply NoDup_lookup; eauto. }
  unfold rowOfNode, rowPos in *. lia_div.
Qed.

(** The other nodes of a row lie in other columns, which the row's
    candidate lists. *)
Lemma others_col i j k r :
  nodeCand i = Some r -> nodeCol i = Some k -> In j (others i) ->
  exists c, nodeCol j = Some c /\ c <> k /\ In c (ccols r).
Proof.
  intros Hr Hk Hj. pose proof (nodeCand_bounds i r Hr) as Hb.
  pose proof (others_cand i r j Hr Hj) as Hrj.
  destruct (wfCands_lookup _ r (nodeCand_lookup i r Hr)) as (Hlen & Hnd & _).
  assert (rowPos j <> rowPos i /\ (rowPos j < 4)%nat) as [Hpos Hlt].
  { destruct Hb as [Hb _]. clear - Hb Hj.
    destruct Hj as [<-|[<-|[<-|[]]]]; unfold rowNode, rowBase, rowPos; split; lia_div. }
  destruct (lookup_lt_is_Some_2 (ccols r) (rowPos j)) as [c Hc]; [lia|].
  exists c. split; [unfold nodeCol; rewrite Hrj; exact Hc|]. split.
  - intros ->. apply Hpos. apply NoDup_ListNoDup in Hnd.
    eapply NoDup_lookup; eauto. eapply nodeCol_pos; eauto.
  - apply list_elem_of_In. eapply list_elem_of_lookup_2, Hc.
Qed.

Lemma concat_others_NoDup (l : list nat) :
  List.NoDup l -> (forall i, In i l -> (base <= i)%nat) ->
  (forall i j, In i l -> In j l -> rowOfNode i = rowOfNode j -> i = j) ->
  List.NoDup (concat (map others l)).
Proof.
  induction l as [|a l IH]; intros Hnd Hb Hrows; [constructor|].
  inversion Hnd as [|? ? Ha Hnd']; subst.
  change (concat (map others (a :: l))) with (others a ++ concat (map others l)).
  apply NoDup_ListNoDup, NoDup_app. split; [|split].
  - apply NoDup_ListNoDup. pose proof (others_NoDup a) as H. inversion H; assumption.
  - intros x Hx Hx'. apply list_elem_of_In in Hx, Hx'.
    apply in_concat in Hx'. destruct Hx' as (o & Ho & Hxo).
    apply in_map_iff in Ho. destruct Ho as (b & <- & Hbl).
    apply Ha. assert (a = b) as ->; [|exact Hbl].
    apply Hrows; [left; reflexivity|right; exact Hbl|].
    rewrite <- (others_row a x), <- (others_row b x); auto with datatypes.
  - apply NoDup_ListNoDup, IH; [exact Hnd'| |]; intros; [apply Hb|apply Hrows]; auto with datatypes.
Qed.

Lemma node_of_column t r k :
  cands !! t = Some r -> In k (ccols r) ->
  exists y, nodeCol y = Some k /\ rowOfNode y = t.
Proof.
  intros Ht Hk. destruct (wfCands_lookup t r Ht) as (Hlen & _ & _).
  apply list_elem_of_In, list_elem_of_lookup in Hk. destruct Hk as [q Hq].
  pose proof (lookup_lt_Some _ _ _ Hq) as Hlt. rewrite Hlen in Hlt.
  exists (base + 4 * t + q)%nat.
  assert (rowOfNode (base + 4 * t + q) = t) as Hrow by (unfold rowOfNode; lia_div).
  split; [|exact Hrow]. unfold nodeCol, nodeCand.
  rewrite decide_True by lia. fold (rowOfNode (base + 4 * t + q)). rewrite Hrow, Ht.
  replace ((base + 4 * t + q - base) mod 4)%nat with q by lia_div. exact Hq.
Qed.

Lemma same_row_others i y :
  (base <= i)%nat -> (base <= y)%nat -> rowOfNode i = rowOfNode y -> i <> y ->
  In i (others y).
Proof.
  intros Hi Hy Hrow Hne. unfold others.
  assert (i = rowNode y 1 \/ i = rowNode y 2 \/ i = rowNode y 3) as H.
  { unfold rowOfNode, rowNode, rowBase, rowPos in *. lia_div. }
  simpl. intuition.
Qed.

(** *** Covering a column *)

Section CoverFacts.
Variable p : Pool.
Variable hs : list Z.
Variable lv : nat -> Prop.
Context {decLv : forall t, Decision (lv t)}.
Variable k : Z.
Hypothesis Hstable : Stable p hs lv.
Hypothesis Hk : In k hs.

Local Abbreviation stillLive := (stillLive cands lv k).
Local Abbreviation liveNodes := (liveNodes ncols cands lv k).
Local Abbreviation headerOut := (headerOut p k).
Local Abbreviation rowsOut := (rowsOut ncols p k).

Lemma liveNodes_facts i :
  In i liveNodes -> nodeCol i = Some k /\ rowAlive lv i /\ (base <= i)%nat /\
              exists r, nodeCand i = Some r /\ In k (ccols r).
Proof.
  intros Hi. apply filter_In_list in Hi. destruct Hi as [Ha Hi]. apply colAll_In in Hi.
  split; [exact Hi|]. split; [exact Ha|].
  split; [apply nodeCol_bounds in Hi; lia|]. apply nodeCol_nodeCand, Hi.
Qed.

Lemma othersOf_app A B : othersOf (A ++ B) = othersOf A ++ othersOf B.
Proof. unfold othersOf. rewrite map_app, concat_app. reflexivity. Qed.

Lemma othersOf_NoDup : List.NoDup (othersOf liveNodes).
Proof.
  apply concat_others_NoDup.
  - apply filter_NoDup_list, colAll_NoDup.
  - intros i Hi. apply liveNodes_facts in Hi. tauto.
  - intros i j Hi Hj. apply liveNodes_facts in Hi, Hj. apply (same_row_col i j k); tauto.
Qed.

Lemma othersOf_facts j :
  In j (othersOf liveNodes) ->
  rowAlive lv j /\ exists c, In c hs /\ nodeCol j = Some c /\ c <> k.
Proof.
  intros Hj. apply in_concat in Hj. destruct Hj as (o & Ho & Hjo).
  apply in_map_iff in Ho. destruct Ho as (y & <- & Hy).
  destruct (liveNodes_facts y Hy) as (Hyk & Hya & Hyb & r & Hr & _).
  destruct (others_col y j k r Hr Hyk Hjo) as (c & Hc & Hne & Hin).
  split.
  - unfold rowAlive. rewrite (others_row y j Hyb Hjo). exact Hya.
  - exists c. split; [|auto].
    destruct Hstable as (_ & _ & _ & _ & Hclosed).
    eapply Hclosed; [exact Hya|apply nodeCand_lookup, Hr|exact Hin].
Qed.

Lemma headerOut_facts :
  Linked headerOut (filter (fun c => c <> k) hs) hs (rowAlive lv) /\ Static headerOut /\
  relinkH (hidx k) headerOut = p /\
  (forall f i, f <> FL -> f <> FR -> get headerOut f i = get p f i) /\
  (forall f i, (base <= i)%nat -> get headerOut f i = get p f i).
Proof.
  destruct Hstable as (Hst & Hinv & Hnd & Hvalid & _).
  apply unlinkH_Linked; assumption.
Qed.

(** The state after the rows of a prefix of the column have been removed. *)
Lemma rowsOut_facts A B :
  liveNodes = A ++ B ->
  Static (rowsOut A) /\
  Linked (rowsOut A) (filter (fun c => c <> k) hs) hs
    (fun i => rowAlive lv i /\ ~ In i (othersOf A)) /\
  runBody relinkV (rev (othersOf A)) (rowsOut A) = headerOut /\
  (forall f i, i = hidx k \/ nodeCol i = Some k -> get (rowsOut A) f i = get headerOut f i).
Proof.
  intros Hsplit. destruct headerOut_facts as (Hinv1 & Hst1 & _).
  destruct Hstable as (_ & _ & _ & Hvalid & _).
  pose proof othersOf_NoDup as Hnd. rewrite Hsplit, othersOf_app in Hnd.
  destruct (unlinkV_fold (filter (fun c => c <> k) hs) hs (othersOf A) headerOut (rowAlive lv)
              Hst1 Hvalid Hinv1) as (H1 & H2 & H3 & _ & H5).
  { eapply NoDup_app_remove_r, Hnd. }
  { intros j Hj. destruct (othersOf_facts j) as [Ha (c & Hc & Hjc & _)].
    - rewrite Hsplit, othersOf_app. apply in_or_app. left. exact Hj.
    - split; [exact Ha|]. exists c. auto. }
  split; [exact H2|]. split; [exact H1|]. split; [exact H3|].
  intros f i Hi. apply H5. intros j c Hj Hjc.
  destruct (othersOf_facts j) as [_ (c' & Hc' & Hjc' & Hne)].
  { rewrite Hsplit, othersOf_app. apply in_or_app. left. exact Hj. }
  rewrite Hjc in Hjc'. inversion Hjc'; subst c'.
  destruct Hi as [->|Hi]; split.
  - intros H. apply Hne. eapply hidx_inj; eauto.
  - intros H. apply nodeCol_bounds in H. pose proof (hidx_lt_base k (Hvalid k Hk)). lia.
  - intros ->. apply nodeCol_bounds in Hi. pose proof (hidx_lt_base c (Hvalid c Hc')). lia.
  - congruence.
Qed.

Lemma rowsOut_step A y B :
  liveNodes = A ++ y :: B ->
  runBody unlinkV (others y) (rowsOut A) = rowsOut (A ++ [y]) /\
  runBody relinkV (rev (others y)) (rowsOut (A ++ [y])) = rowsOut A.
Proof.
  intros Hsplit.
  assert (rowsOut (A ++ [y]) = runBody unlinkV (others y) (rowsOut A)) as HQ.
  { unfold rowsOut. rewrite othersOf_app, runBody_app.
    replace (othersOf [y]) with (others y) by reflexivity.
    reflexivity. }
  split; [symmetry; exact HQ|]. rewrite HQ.
  destruct (rowsOut_facts A (y :: B) Hsplit) as (Hst & Hinv & _).
  destruct Hstable as (_ & _ & _ & Hvalid & _).
  pose proof othersOf_NoDup as Hnd. rewrite Hsplit, othersOf_app in Hnd.
  change (othersOf (y :: B)) with (others y ++ othersOf B) in Hnd.
  destruct (unlinkV_fold (filter (fun c => c <> k) hs) hs (others y) (rowsOut A)
              (fun i => rowAlive lv i /\ ~ In i (othersOf A)) Hst Hvalid Hinv)
    as (_ & _ & H3 & _).
  { pose proof (others_NoDup y) as H. inversion H; assumption. }
  { intros j Hj. destruct (othersOf_facts j) as [Ha (c & Hc & Hjc & _)].
    - rewrite Hsplit, othersOf_app. apply in_or_app. right.
      change (othersOf (y :: B)) with (others y ++ othersOf B). apply in_or_app. left. exact Hj.
    - split; [|exists c; auto]. split; [exact Ha|]. intros Hin.
      apply NoDup_ListNoDup, NoDup_app in Hnd. destruct Hnd as (_ & Hdisj & _).
      apply (Hdisj j); apply list_elem_of_In; [exact Hin|].
      apply in_or_app. left. exact Hj. }
  exact H3.
Qed.

Lemma coverBody_step A y B :
  liveNodes = A ++ y :: B -> coverBody y (rowsOut A) = rowsOut (A ++ [y]).
Proof.
  intros Hsplit. destruct (rowsOut_facts A (y :: B) Hsplit) as (Hst & _).
  destruct (liveNodes_facts y) as (_ & _ & _ & r & Hr & _).
  { rewrite Hsplit. apply in_or_app. right. left. reflexivity. }
  unfold coverBody. rewrite (forEach_row_unlink (rowsOut A) y r Hst Hr).
  apply (rowsOut_step A y B Hsplit).
Qed.

Lemma uncoverBody_step A y B :
  liveNodes = A ++ y :: B -> uncoverBody y (rowsOut (A ++ [y])) = rowsOut A.
Proof.
  intros Hsplit.
  destruct (rowsOut_facts (A ++ [y]) B) as (Hst & _).
  { rewrite Hsplit, <- app_assoc. reflexivity. }
  destruct (liveNodes_facts y) as (_ & _ & _ & r & Hr & _).
  { rewrite Hsplit. apply in_or_app. right. left. reflexivity. }
  unfold uncoverBody. rewrite (forEach_row_relink _ y r Hst Hr).
  apply (rowsOut_step A y B Hsplit).
Qed.

Lemma runBody_cover A : forall B, liveNodes = A ++ B -> runBody coverBody A headerOut = rowsOut A.
Proof.
  induction A as [|y A IH] using rev_ind; intros B Hsplit.
  - reflexivity.
  - rewrite <- app_assoc in Hsplit. simpl in Hsplit.
    rewrite runBody_app, (IH (y :: B) Hsplit). simpl.
    apply (coverBody_step A y B Hsplit).
Qed.

Lemma runBody_uncover B : forall A, liveNodes = A ++ B -> runBody uncoverBody (rev B) (rowsOut liveNodes) = rowsOut A.
Proof.
  induction B as [|y B IH]; intros A Hsplit.
  - rewrite app_nil_r in Hsplit. subst A. reflexivity.
  - simpl rev. rewrite runBody_app. rewrite (IH (A ++ [y])).
    + simpl. apply (uncoverBody_step A y B Hsplit).
    + rewrite Hsplit, <- app_assoc. reflexivity.
Qed.

Lemma liveNodes_length : (length liveNodes < length p)%nat.
Proof.
  destruct Hstable as ([Hlen _] & _). rewrite Hlen.
  unfold liveNodes. eapply Nat.le_lt_trans; [apply length_filter|].
  unfold colAll. eapply Nat.le_lt_trans; [apply length_filter|].
  rewrite length_seq. unfold base. lia.
Qed.

Lemma hidx_not_liveNodes : ~ In (hidx k) liveNodes.
Proof.
  intros H. apply liveNodes_facts in H. destruct H as (_ & _ & Hb & _).
  destruct Hstable as (_ & _ & _ & Hvalid & _).
  pose proof (hidx_lt_base k (Hvalid k Hk)). lia.
Qed.

Lemma column_chain_headerOut : chain headerOut FD FU (hidx k) liveNodes (hidx k).
Proof. destruct headerOut_facts as ([_ Hcols] & _). apply (Hcols k Hk). Qed.

Lemma column_node i : In i (hidx k :: liveNodes) -> i = hidx k \/ nodeCol i = Some k.
Proof. intros [<-|Hi]; [left; reflexivity|right; apply liveNodes_facts, Hi]. Qed.

(** The cover loops remove, row by row, the other nodes of the rows of the
    column. *)
Lemma coverP_rowsOut : coverP (hidx k) p = rowsOut liveNodes.
Proof.
  unfold coverP. fold headerOut. fold coverBody.
  rewrite (forEach_fold_gen FD (hidx k) coverBody liveNodes headerOut).
  - apply (runBody_cover liveNodes []). rewrite app_nil_r. reflexivity.
  - intros pre y post Hsplit i Hi.
    rewrite (runBody_cover pre (y :: post) Hsplit).
    rewrite (coverBody_step pre y post Hsplit).
    destruct (rowsOut_facts pre (y :: post) Hsplit) as (_ & _ & _ & Hf1).
    destruct (rowsOut_facts (pre ++ [y]) post) as (_ & _ & _ & Hf2).
    { rewrite Hsplit, <- app_assoc. reflexivity. }
    rewrite Hf1, Hf2 by (apply column_node, Hi). reflexivity.
  - apply chain_fpath with (bwd := FU). exact column_chain_headerOut.
  - exact hidx_not_liveNodes.
  - unfold headerOut, unlinkH. rewrite !length_set. exact liveNodes_length.
Qed.

Lemma rowsOut_full_facts :
  Static (rowsOut liveNodes) /\
  Linked (rowsOut liveNodes) (filter (fun c => c <> k) hs) hs
    (fun i => rowAlive lv i /\ ~ In i (othersOf liveNodes)) /\
  (forall f i, i = hidx k \/ nodeCol i = Some k -> get (rowsOut liveNodes) f i = get headerOut f i).
Proof.
  destruct (rowsOut_facts liveNodes []) as (H1 & H2 & _ & H4).
  { rewrite app_nil_r. reflexivity. }
  auto.
Qed.

(** Uncovering right after covering restores the pool. *)
Lemma uncoverP_coverP : uncoverP (hidx k) (coverP (hidx k) p) = p.
Proof.
  rewrite coverP_rowsOut. unfold uncoverP. fold uncoverBody.
  destruct rowsOut_full_facts as ([Hlen _] & _ & Hframe).
  rewrite (forEach_fold_gen FU (hidx k) uncoverBody (rev liveNodes) (rowsOut liveNodes)).
  - rewrite (runBody_uncover liveNodes []) by reflexivity.
    change (rowsOut []) with headerOut. apply headerOut_facts.
  - intros pre y post Hsplit i Hi.
    assert (liveNodes = rev post ++ y :: rev pre) as Hsplit'.
    { rewrite <- (rev_involutive liveNodes), Hsplit, rev_app_distr. simpl.
      rewrite <- app_assoc. reflexivity. }
    rewrite <- (rev_involutive pre).
    rewrite (runBody_uncover (rev pre) (rev post ++ [y])).
    2:{ rewrite Hsplit', <- app_assoc. reflexivity. }
    rewrite (uncoverBody_step (rev post) y (rev pre) Hsplit').
    destruct (rowsOut_facts (rev post) (y :: rev pre) Hsplit') as (_ & _ & _ & Hf1).
    destruct (rowsOut_facts (rev post ++ [y]) (rev pre)) as (_ & _ & _ & Hf2).
    { rewrite Hsplit', <- app_assoc. reflexivity. }
    assert (In i (hidx k :: liveNodes)) as Hi'.
    { destruct Hi as [<-|Hi]; [left; reflexivity|right; apply in_rev; exact Hi]. }
    rewrite Hf1, Hf2 by (apply column_node, Hi'). reflexivity.
  - apply chain_fpath with (bwd := FD). apply chain_rev.
    eapply chain_frame; [| |exact column_chain_headerOut]; intros i Hi; apply Hframe.
    + apply column_node. exact Hi.
    + apply column_node. apply in_app_or in Hi.
      destruct Hi as [Hi|[<-|[]]]; [right; exact Hi|left; reflexivity].
  - rewrite <- in_rev. exact hidx_not_liveNodes.
  - rewrite length_rev. destruct Hstable as ([Hlen0 _] & _).
    pose proof liveNodes_length as H. rewrite Hlen0 in H. rewrite Hlen. exact H.
Qed.

(** The nodes of the rows of the column, the column's own apart, are the
    nodes alive before the cover whose row touches the column. *)
Lemma othersOf_alive c i :
  c <> k -> nodeCol i = Some c ->
  (rowAlive lv i /\ ~ In i (othersOf liveNodes)) <-> rowAlive stillLive i.
Proof.
  intros Hc Hi. unfold rowAlive, stillLive. split.
  - intros [Ha Hnj]. split; [exact Ha|]. intros (r & Hr & Hkr).
    destruct (node_of_column _ r k Hr Hkr) as (y & Hyk & Hyrow).
    apply Hnj. unfold othersOf. apply in_concat. exists (others y). split.
    + apply in_map. apply filter_In_list. split.
      * unfold rowAlive. rewrite Hyrow. exact Ha.
      * apply colAll_In, Hyk.
    + apply same_row_others.
      * apply nodeCol_bounds in Hi. lia.
      * apply nodeCol_bounds in Hyk. lia.
      * symmetry. exact Hyrow.
      * intros ->. congruence.
  - intros [Ha Hnt]. split; [exact Ha|]. intros Hj.
    apply in_concat in Hj. destruct Hj as (o & Ho & Hio).
    apply in_map_iff in Ho. destruct Ho as (y & <- & Hy).
    destruct (liveNodes_facts y Hy) as (_ & _ & Hyb & r & Hr & Hkr).
    apply Hnt. exists r. split; [|exact Hkr].
    rewrite (others_row y i Hyb Hio). apply nodeCand_lookup, Hr.
Qed.

(** Covering a column of the ring keeps the pool well linked: the column
    leaves the ring, and the rows that touch it leave the other columns. *)
Lemma coverP_Stable :
  Stable (coverP (hidx k) p) (filter (fun c => c <> k) hs) stillLive.
Proof.
  rewrite coverP_rowsOut. destruct rowsOut_full_facts as (Hst & Hinv & _).
  destruct Hstable as (_ & _ & Hnd & Hvalid & Hclosed).
  split; [exact Hst|]. split; [|split; [|split]].
  - eapply Linked_ext; [|eapply Linked_sub; [|exact Hinv]].
    + intros c i Hc Hi. apply filter_In_list in Hc. destruct Hc as [Hne _].
      apply (othersOf_alive c i Hne). apply colAll_In, Hi.
    + intros c Hc. apply filter_In_list in Hc. tauto.
  - apply filter_NoDup_list, Hnd.
  - intros c Hc. apply filter_In_list in Hc. apply Hvalid. tauto.
  - intros t r c [Hl Hnt] Ht Hc. apply filter_In_list. split.
    + intros ->. apply Hnt. exists r. auto.
    + eapply Hclosed; eauto.
Qed.

(** The covered column keeps its own list of rows. *)
Lemma coverP_column : chain (coverP (hidx k) p) FD FU (hidx k) liveNodes (hidx k).
Proof.
  rewrite coverP_rowsOut. destruct rowsOut_full_facts as (_ & _ & Hframe).
  eapply chain_frame; [| |exact column_chain_headerOut]; intros i Hi; apply Hframe.
  - apply column_node. exact Hi.
  - apply column_node. apply in_app_or in Hi.
    destruct Hi as [Hi|[<-|[]]]; [right; exact Hi|left; reflexivity].
Qed.

End CoverFacts.

Local Abbreviation stillLive := (stillLive cands).
Local Abbreviation liveNodes := (liveNodes ncols cands).

(** *** Covering the columns of a row *)

Lemma Static_colOf p j c : Static p -> nodeCol j = Some c -> colOf p j = hidx c.
Proof.
  intros [_ H] Hj. destruct (nodeCol_nodeCand j c Hj) as (r & Hr & _).
  apply (H j r Hr), Hj.
Qed.

Lemma coverCols_Stable : forall js p hs (lv : nat -> Prop)
    (decLv : forall t, Decision (lv t)),
  Stable p hs lv -> distinctCols hs js ->
  exists hs2 (lv2 : nat -> Prop) (dec2 : forall t, Decision (lv2 t)),
    Stable (runBody coverCol js p) hs2 lv2 /\
    runBody uncoverCol (rev js) (runBody coverCol js p) = p /\
    (forall c, In c hs2 <-> In c hs /\ forall j, In j js -> nodeCol j <> Some c).
Proof.
  induction js as [|j js IH]; intros p hs lv dec Hst (Hnd & Hinj & Hcols).
  - exists hs, lv, dec. split; [exact Hst|]. split; [reflexivity|].
    intros c. split; [intros H; split; [exact H|intros j []]|tauto].
  - destruct (Hcols j (or_introl eq_refl)) as (c & Hjc & Hc).
    assert (coverCol j p = coverP (hidx c) p) as E1.
    { unfold coverCol. rewrite (Static_colOf p j c); [reflexivity|apply Hst|exact Hjc]. }
    pose proof (coverP_Stable p hs lv c Hst Hc) as Hst1.
    pose proof (uncoverP_coverP p hs lv c Hst Hc) as Hun.
    inversion Hnd as [|? ? Hnotin Hnd']; subst.
    destruct (IH (coverP (hidx c) p) (filter (fun c' => c' <> c) hs) (stillLive lv c) _ Hst1)
      as (hs2 & lv2 & dec2 & Hst2 & Hun2 & Hchar).
    { split; [exact Hnd'|]. split.
      - intros i1 i2 H1 H2. apply Hinj; right; assumption.
      - intros j' Hj'. destruct (Hcols j' (or_intror Hj')) as (c' & Hj'c & Hc').
        exists c'. split; [exact Hj'c|]. apply filter_In_list. split; [|exact Hc'].
        intros ->. apply Hnotin. rewrite <- (Hinj j' j); [exact Hj'|right; exact Hj'|left; reflexivity|].
        congruence. }
    exists hs2, lv2, dec2.
    change (runBody coverCol (j :: js) p) with (runBody coverCol js (coverCol j p)).
    rewrite E1. split; [exact Hst2|]. split.
    + simpl rev. rewrite runBody_app, Hun2.
      change (runBody uncoverCol [j] (coverP (hidx c) p))
        with (uncoverP (colOf (coverP (hidx c) p) j) (coverP (hidx c) p)).
      rewrite (Static_colOf _ j c); [exact Hun|apply Hst1|exact Hjc].
    + intros c'. rewrite Hchar, filter_In_list. split.
      * intros [[Hne Hin] Hall]. split; [exact Hin|].
        intros j' [<-|Hj']; [congruence|apply Hall, Hj'].
      * intros [Hin Hall]. split; [split; [|exact Hin]|].
        -- intros ->. apply (Hall j); [left; reflexivity|exact Hjc].
        -- intros j' Hj'. apply Hall. right. exact Hj'.
Qed.

Lemma distinctCols_app_l hs js1 js2 : distinctCols hs (js1 ++ js2) -> distinctCols hs js1.
Proof.
  intros (Hnd & Hinj & Hcols). split; [eapply NoDup_app_remove_r, Hnd|]. split.
  - intros i j Hi Hj. apply Hinj; apply in_or_app; left; assumption.
  - intros j Hj. apply Hcols, in_or_app. left. exact Hj.
Qed.

(** The covers of a list of columns, split in two: undoing the second part
    leads back to the state after the first. *)
Lemma coverCols_split js1 js2 p hs (lv : nat -> Prop)
    {decLv : forall t, Decision (lv t)} :
  Stable p hs lv -> distinctCols hs (js1 ++ js2) ->
  Static (runBody coverCol js1 p) /\
  runBody uncoverCol (rev js2) (runBody coverCol (js1 ++ js2) p) = runBody coverCol js1 p.
Proof.
  intros Hst Hd. pose proof (distinctCols_app_l hs js1 js2 Hd) as Hd1.
  destruct (coverCols_Stable js1 p hs lv _ Hst Hd1)
    as (hs1 & live1 & dec1 & Hst1 & _ & Hchar).
  split; [apply Hst1|]. rewrite runBody_app.
  destruct Hd as (Hnd & Hinj & Hcols).
  destruct (coverCols_Stable js2 (runBody coverCol js1 p) hs1 live1 _ Hst1)
    as (_ & _ & _ & _ & Hun & _); [|exact Hun].
  split; [eapply NoDup_app_remove_l, Hnd|]. split.
  - intros i j Hi Hj. apply Hinj; apply in_or_app; right; assumption.
  - intros j Hj. destruct (Hcols j) as (c & Hjc & Hc); [apply in_or_app; right; exact Hj|].
    exists c. split; [exact Hjc|]. apply Hchar. split; [exact Hc|].
    intros j1 Hj1 Hj1c.
    assert (j1 = j) as ->.
    { apply Hinj; [apply in_or_app; left; exact Hj1|apply in_or_app; right; exact Hj|congruence]. }
    apply NoDup_ListNoDup, NoDup_app in Hnd. destruct Hnd as (_ & Hdisj & _).
    apply (Hdisj j); apply list_elem_of_In; assumption.
Qed.

Lemma row_distinctCols p hs (lv : nat -> Prop) {decLv : forall t, Decision (lv t)} k y :
  Stable p hs lv -> In k hs -> In y (liveNodes lv k) ->
  distinctCols (filter (fun c => c <> k) hs) (others y).
Proof.
  intros Hst Hk Hy. destruct (liveNodes_facts lv k y Hy) as (Hyk & Hya & Hyb & r & Hr & Hkr).
  split; [|split].
  - pose proof (others_NoDup y) as H. inversion H; assumption.
  - intros i j Hi Hj Hc. destruct (others_col y i k r Hr Hyk Hi) as (c & Hic & _).
    apply (same_row_col i j c); [exact Hic|congruence|].
    rewrite (others_row y i Hyb Hi), (others_row y j Hyb Hj). reflexivity.
  - intros j Hj. destruct (others_col y j k r Hr Hyk Hj) as (c & Hjc & Hne & Hin).
    exists c. split; [exact Hjc|]. apply filter_In_list. split; [exact Hne|].
    destruct Hst as (_ & _ & _ & _ & Hclosed).
    eapply Hclosed; [exact Hya|apply nodeCand_lookup, Hr|exact Hin].
Qed.

Lemma Static_long p y r : Static p -> nodeCand y = Some r -> (3 < length p)%nat.
Proof.
  intros [Hlen _] Hr. rewrite Hlen. pose proof (nodeCand_bounds y r Hr) as Hb.
  unfold nbody, base in *. lia.
Qed.

Lemma forEach_row_cover p hs (lv : nat -> Prop) {decLv : forall t, Decision (lv t)} y r :
  Stable p hs lv -> nodeCand y = Some r -> distinctCols hs (others y) ->
  forEach FR y coverCol p = runBody coverCol (others y) p.
Proof.
  intros Hst Hr Hd. apply forEach_fold_gen.
  - intros pre j post Hsplit i Hi.
    assert (nodeCand i = Some r) as Hir.
    { destruct Hi as [<-|Hi]; [exact Hr|eapply others_cand; eauto]. }
    rewrite Hsplit in Hd.
    destruct (coverCols_split pre (j :: post) p hs lv Hst Hd) as [[_ Hs1] _].
    assert (Static (coverCol j (runBody coverCol pre p))) as [_ Hs2].
    { replace (pre ++ j :: post) with ((pre ++ [j]) ++ post) in Hd
        by (rewrite <- app_assoc; reflexivity).
      destruct (coverCols_split (pre ++ [j]) post p hs lv Hst Hd) as [Hs2 _].
      rewrite runBody_app in Hs2. exact Hs2. }
    destruct (Hs1 i r Hir) as (_ & -> & _). destruct (Hs2 i r Hir) as (_ & -> & _).
    reflexivity.
  - eapply row_fpath_R; [apply Hst|exact Hr].
  - pose proof (others_NoDup y) as H. inversion H; assumption.
  - pose proof (Static_long p y r ltac:(apply Hst) Hr). simpl. lia.
Qed.

Lemma forEach_row_uncover p hs (lv : nat -> Prop) {decLv : forall t, Decision (lv t)} y r :
  Stable p hs lv -> nodeCand y = Some r -> distinctCols hs (others y) ->
  forEach FL y uncoverCol (runBody coverCol (others y) p) = p.
Proof.
  intros Hst Hr Hd.
  set (P2 := runBody coverCol (others y) p).
  assert (forall A B, others y = A ++ B ->
            Static (runBody coverCol A p) /\
            runBody uncoverCol (rev B) P2 = runBody coverCol A p) as Hsp.
  { intros A B E. unfold P2. rewrite E.
    apply (coverCols_split A B p hs lv Hst). rewrite <- E. exact Hd. }
  assert (Static P2) as HsP2.
  { destruct (Hsp (others y) []) as [H _]; [rewrite app_nil_r; reflexivity|exact H]. }
  rewrite (forEach_fold_gen FL y uncoverCol (rev (others y)) P2).
  - destruct (Hsp [] (others y) eq_refl) as [_ H]. exact H.
  - intros pre j post Hsplit i Hi.
    assert (others y = rev post ++ j :: rev pre) as E.
    { rewrite <- (rev_involutive (others y)), Hsplit, rev_app_distr. simpl.
      rewrite <- app_assoc. reflexivity. }
    assert (nodeCand i = Some r) as Hir.
    { destruct Hi as [<-|Hi]; [exact Hr|]. apply in_rev in Hi. eapply others_cand; eauto. }
    destruct (Hsp (rev post ++ [j]) (rev pre)) as [[_ Hs1] E1].
    { rewrite E, <- app_assoc. reflexivity. }
    rewrite rev_involutive in E1.
    destruct (Hsp (rev post) (j :: rev pre) E) as [[_ Hs2] E2].
    simpl rev in E2. rewrite rev_involutive, runBody_app in E2.
    change (uncoverCol j (runBody uncoverCol pre P2))
      with (runBody uncoverCol [j] (runBody uncoverCol pre P2)).
    rewrite E2, E1.
    destruct (Hs1 i r Hir) as (_ & _ & -> & _). destruct (Hs2 i r Hir) as (_ & _ & -> & _).
    reflexivity.
  - eapply row_fpath_L; [exact HsP2|exact Hr].
  - rewrite <- in_rev. pose proof (others_NoDup y) as H. inversion H; assumption.
  - pose proof (Static_long P2 y r HsP2 Hr). rewrite length_rev. simpl. lia.
Qed.

(** *** The ring of headers *)

Lemma ring_empty p hs (lv : nat -> Prop) {decLv : forall t, Decision (lv t)} :
  Stable p hs lv -> get p FR root = root -> hs = [].
Proof.
  intros (_ & [Hring _] & _) Hroot. destruct hs as [|c hs]; [reflexivity|].
  unfold chain in Hring. simpl in Hring. inversion Hring as [|? ? [H _] _]; subst.
  simpl in H. rewrite Hroot in H. discriminate.
Qed.

Lemma ring_length p hs (lv : nat -> Prop) {decLv : forall t, Decision (lv t)} :
  Stable p hs lv -> (length hs < length p)%nat.
Proof.
  intros ([Hlen _] & _ & Hnd & Hvalid & _). rewrite Hlen.
  pose proof (NoDup_map_hidx hs Hnd Hvalid) as Hnd'.
  assert (incl (map hidx hs) (seq 1 ncols)) as Hincl.
  { intros x Hx. apply in_map_iff in Hx. destruct Hx as (c & <- & Hc).
    apply in_seq. pose proof (hidx_lt_base c (Hvalid c Hc)). unfold base in *. lia. }
  pose proof (List.NoDup_incl_length Hnd' Hincl) as H.
  rewrite length_map, length_seq in H. unfold base. lia.
Qed.

Lemma minColumn_In p : forall ys x best fuel,
  fpath p FR x ys root -> ~ In root ys -> (length ys < fuel)%nat ->
  In (minColumn fuel p best (get p FR x)) (best :: ys).
Proof.
  induction ys as [|y ys IH]; intros x best fuel Hp Hroot Hf;
    (destruct fuel as [|fuel]; [simpl in Hf; lia|]).
  - inversion Hp as [|? ? H _]; subst. simpl in H. simpl. rewrite H. left. reflexivity.
  - inversion Hp as [|? ? H Hp']; subst. simpl in H. simpl minColumn. rewrite H.
    assert (y <> root) as Hy by (intros ->; apply Hroot; left; reflexivity).
    apply Nat.eqb_neq in Hy. rewrite Hy.
    assert (In (minColumn fuel p (if (get p FSize y <? get p FSize best)%nat then y else best)
                  (get p FR y))
              ((if (get p FSize y <? get p FSize best)%nat then y else best) :: ys)) as Hin.
    { apply IH; [exact Hp'|intros Hin; apply Hroot; right; exact Hin|simpl in Hf; lia]. }
    destruct (get p FSize y <? get p FSize best)%nat; simpl in *; tauto.
Qed.

Lemma chooseColumnP_In p hs (lv : nat -> Prop) {decLv : forall t, Decision (lv t)} :
  Stable p hs lv -> get p FR root <> root ->
  exists k, In k hs /\ chooseColumnP p = hidx k.
Proof.
  intros Hst Hroot. pose proof (ring_length p hs lv Hst) as Hlen.
  destruct Hst as (_ & [Hring _] & _ & Hvalid & _).
  apply chain_fpath in Hring.
  assert (In (chooseColumnP p) (get p FR root :: map hidx hs)) as Hin.
  { unfold chooseColumnP. apply minColumn_In; [exact Hring| |rewrite length_map; exact Hlen].
    intros Hin. apply in_map_iff in Hin. destruct Hin as (c & Hc & Hin).
    pose proof (hidx_lt_base c (Hvalid c Hin)). unfold root in Hc. lia. }
  assert (In (get p FR root) (map hidx hs)) as Hfirst.
  { destruct hs as [|c hs].
    - inversion Hring as [|? ? H _]; subst. simpl in H. contradiction.
    - inversion Hring as [|? ? H _]; subst. simpl in H. rewrite H. left. reflexivity. }
  assert (In (chooseColumnP p) (map hidx hs)) as Hin'.
  { destruct Hin as [<-|Hin]; assumption. }
  apply in_map_iff in Hin'. destruct Hin' as (k & Hk & Hin'). exists k. auto.
Qed.

(** *** The search *)

Lemma searchP_S fuel p :
  searchP (S fuel) p =
  if (get p FR root =? root)%nat then (Some [], p)
  else if (get p FSize (chooseColumnP p) =? 0)%nat then (None, p)
  else match tryRowsP (length p) (searchP fuel) (chooseColumnP p)
               (get (coverP (chooseColumnP p) p) FD (chooseColumnP p))
               (coverP (chooseColumnP p) p) with
       | (Some sol, p2) => (Some sol, p2)
       | (None, p2) => (None, uncoverP (chooseColumnP p) p2)
       end.
Proof. reflexivity. Qed.

Lemma tryRowsP_S fuel attempt h r p :
  tryRowsP (S fuel) attempt h r p =
  if (r =? h)%nat then (None, p)
  else match attempt (forEach FR r coverCol p) with
       | (Some sol, p2) => (Some (rowOf p r :: sol), p2)
       | (None, p2) =>
           tryRowsP fuel attempt h (get (forEach FL r uncoverCol p2) FD r)
             (forEach FL r uncoverCol p2)
       end.
Proof. reflexivity. Qed.

(** The loop over the rows of the chosen column: a row on which the attempt
    fails is undone before the next one is tried. *)
Lemma tryRowsP_balance attempt h p1 : forall rs fuel x,
  fpath p1 FD x rs h -> ~ In h rs -> (length rs < fuel)%nat ->
  (forall y, In y rs ->
     (attempt (forEach FR y coverCol p1)).1 = None ->
     forEach FL y uncoverCol (attempt (forEach FR y coverCol p1)).2 = p1) ->
  (tryRowsP fuel attempt h (get p1 FD x) p1).1 = None ->
  (tryRowsP fuel attempt h (get p1 FD x) p1).2 = p1.
Proof.
  induction rs as [|y rs IH]; intros fuel x Hp Hh Hf Hrows;
    (destruct fuel as [|fuel]; [simpl in Hf; lia|]).
  - inversion Hp as [|? ? H _]; subst. simpl in H. rewrite H, tryRowsP_S, Nat.eqb_refl.
    reflexivity.
  - inversion Hp as [|? ? H Hp']; subst. simpl in H. rewrite H, tryRowsP_S.
    assert (y <> h) as Hy by (intros ->; apply Hh; left; reflexivity).
    apply Nat.eqb_neq in Hy. rewrite Hy.
    pose proof (Hrows y (or_introl eq_refl)) as Hrow.
    destruct (attempt (forEach FR y coverCol p1)) as [[sol|] p2]; cbn [fst snd] in *;
      [discriminate|].
    rewrite (Hrow eq_refl). apply IH.
    + exact Hp'.
    + intros Hin. apply Hh. right. exact Hin.
    + simpl in Hf. lia.
    + intros y' Hy'. apply Hrows. right. exact Hy'.
Qed.

(** DLX balance: when the search returns NOT_FOUND, every cover has been
    matched by an uncover, and the pool is the one the search started from. *)
Lemma searchP_balance : forall fuel p hs (lv : nat -> Prop)
    (decLv : forall t, Decision (lv t)),
  Stable p hs lv -> (searchP fuel p).1 = None -> (searchP fuel p).2 = p.
Proof.
  induction fuel as [|fuel IH]; intros p hs lv dec Hst; [reflexivity|].
  rewrite searchP_S. destruct (get p FR root =? root)%nat eqn:Eroot; [discriminate|].
  apply Nat.eqb_neq in Eroot.
  destruct (chooseColumnP_In p hs lv Hst Eroot) as (k & Hk & ->).
  destruct (get p FSize (hidx k) =? 0)%nat; [reflexivity|].
  pose proof (coverP_Stable p hs lv k Hst Hk) as Hst1.
  pose proof (coverP_column p hs lv k Hst Hk) as Hcol.
  pose proof (uncoverP_coverP p hs lv k Hst Hk) as Hun.
  set (q1 := coverP (hidx k) p) in *.
  assert (length p = length q1) as Hlen.
  { destruct Hst as ([-> _] & _). destruct Hst1 as ([-> _] & _). reflexivity. }
  rewrite Hlen.
  pose proof (tryRowsP_balance (searchP fuel) (hidx k) q1 (liveNodes lv k) (length q1) (hidx k))
    as Hloop.
  lapply Hloop; [clear Hloop; intros Hloop|apply chain_fpath in Hcol; exact Hcol].
  lapply Hloop; [clear Hloop; intros Hloop|apply (hidx_not_liveNodes p hs lv k Hst Hk)].
  lapply Hloop; [clear Hloop; intros Hloop|].
  2:{ rewrite <- Hlen. apply (liveNodes_length p hs lv k Hst). }
  lapply Hloop; [clear Hloop; intros Hloop|].
  - destruct (tryRowsP (length q1) (searchP fuel) (hidx k) (get q1 FD (hidx k)) q1)
      as [[sol|] p']; cbn [fst snd] in *; [discriminate|].
    intros _. rewrite (Hloop eq_refl). exact Hun.
  - intros y Hy. destruct (liveNodes_facts lv k y Hy) as (Hyk & Hya & Hyb & r & Hr & Hkr).
    pose proof (row_distinctCols p hs lv k y Hst Hk Hy) as Hd.
    rewrite (forEach_row_cover q1 _ (stillLive lv k) y r Hst1 Hr Hd).
    destruct (coverCols_Stable (others y) q1 _ (stillLive lv k) _ Hst1 Hd)
      as (hs2 & lv2 & dec2 & Hst2 & _ & _).
    intros Hnone. rewrite (IH _ hs2 lv2 dec2 Hst2 Hnone).
    apply (forEach_row_uncover q1 _ (stillLive lv k) y r Hst1 Hr Hd).
Qed.

(** *** Building the pool *)

Lemma get_app p x f i :
  get (p ++ [x]) f i = if decide (i = length p) then getF f x else get p f i.
Proof.
  unfold get. case_decide as Hi.
  - subst i. rewrite lookup_app_r by lia. rewrite Nat.sub_diag. reflexivity.
  - destruct (decide (i < length p)%nat) as [Hlt|Hge].
    + rewrite lookup_app_l by exact Hlt. reflexivity.
    + rewrite !lookup_ge_None_2; [reflexivity|lia|rewrite length_app; simpl; lia].
Qed.

Lemma colOf_app p x i :
  colOf (p ++ [x]) i = if decide (i = length p) then ncol x else colOf p i.
Proof.
  unfold colOf. case_decide as Hi.
  - subst i. rewrite lookup_app_r by lia. rewrite Nat.sub_diag. reflexivity.
  - destruct (decide (i < length p)%nat) as [Hlt|Hge].
    + rewrite lookup_app_l by exact Hlt. reflexivity.
    + rewrite !lookup_ge_None_2; [reflexivity|lia|rewrite length_app; simpl; lia].
Qed.

Lemma rowOf_app p x i :
  rowOf (p ++ [x]) i = if decide (i = length p) then nrow x else rowOf p i.
Proof.
  unfold rowOf. case_decide as Hi.
  - subst i. rewrite lookup_app_r by lia. rewrite Nat.sub_diag. reflexivity.
  - destruct (decide (i < length p)%nat) as [Hlt|Hge].
    + rewrite lookup_app_l by exact Hlt. reflexivity.
    + rewrite !lookup_ge_None_2; [reflexivity|lia|rewrite length_app; simpl; lia].
Qed.

Lemma length_addNode id b w q k p : length (addNode id b w q k p) = S (length p).
Proof. unfold addNode. cbv zeta. rewrite !length_set, length_app. simpl. lia. Qed.

Lemma colOf_addNode id b w q k p i :
  colOf (addNode id b w q k p) i = if decide (i = length p) then hidx k else colOf p i.
Proof. unfold addNode. cbv zeta. rewrite !colOf_set, colOf_app. reflexivity. Qed.

Lemma rowOf_addNode id b w q k p i :
  rowOf (addNode id b w q k p) i = if decide (i = length p) then id else rowOf p i.
Proof. unfold addNode. cbv zeta. rewrite !rowOf_set, rowOf_app. reflexivity. Qed.

(** The links of the pool after a node has been spliced into the bottom of
    its column. *)
Lemma addNode_get id b w q k p f i :
  (hidx k < length p)%nat -> (get p FU (hidx k) < length p)%nat ->
  get (addNode id b w q k p) f i =
    if decide (i = length p) then
      match f with
      | FL => (b + (q + w - 1) mod w)%nat
      | FR => (b + (q + 1) mod w)%nat
      | FU => get p FU (hidx k)
      | FD => hidx k
      | FSize => 0%nat
      end
    else if decide (f = FD /\ i = get p FU (hidx k)) then length p
    else if decide (f = FU /\ i = hidx k) then length p
    else if decide (f = FSize /\ i = hidx k) then (get p FSize (hidx k) + 1)%nat
    else get p f i.
Proof.
  intros Hh Hu. unfold addNode. cbv zeta. fold (hidx k).
  set (node := mkNode _ _ _ _ _ _ _).
  assert (get (p ++ [node]) FU (hidx k) = get p FU (hidx k)) as E1.
  { rewrite get_app. rewrite decide_False by lia. reflexivity. }
  rewrite E1. set (u := get p FU (hidx k)) in *.
  rewrite !get_set, !length_set, !length_app, !get_app. simpl length.
  destruct f; simpl; repeat case_decide; try reflexivity; destruct_and?;
    try discriminate; try lia; try (exfalso; intuition (congruence || lia)).
Qed.

Lemma colUpTo_In m k i : In i (colUpTo m k) <-> nodeCol i = Some k /\ (base <= i < base + m)%nat.
Proof. unfold colUpTo. rewrite filter_In_list, in_seq. tauto. Qed.

Lemma colUpTo_NoDup m k : List.NoDup (colUpTo m k).
Proof. apply filter_NoDup_list, seq_NoDup. Qed.

Lemma colUpTo_S m k k' :
  nodeCol (base + m) = Some k ->
  colUpTo (S m) k' = if decide (k' = k) then colUpTo m k' ++ [(base + m)%nat] else colUpTo m k'.
Proof.
  intros Hk. unfold colUpTo. rewrite seq_S, filter_app.
  case_decide as Hkk.
  - subst k'. rewrite (filter_cons_True (fun i => nodeCol i = Some k) _ [] Hk). reflexivity.
  - rewrite (filter_cons_False (fun i => nodeCol i = Some k')) by congruence.
    simpl. rewrite app_nil_r. reflexivity.
Qed.

Lemma adj_last_gen : forall xs x,
  exists u A, (forall j, adj x xs j = A ++ [(u, j)]) /\ x :: xs = map fst A ++ [u] /\
              xs = map snd A.
Proof.
  induction xs as [|y xs IH]; intros x.
  - exists x, []. split; [reflexivity|split; reflexivity].
  - destruct (IH y) as (u & A & HA & Hfst & Hsnd). exists u, ((x, y) :: A). split; [|split].
    + intros j. simpl. rewrite HA. reflexivity.
    + simpl. rewrite Hfst. reflexivity.
    + simpl. rewrite <- Hsnd. reflexivity.
Qed.

Lemma addNode_Built m p r k :
  Built m p -> nodeCand (base + m) = Some r -> nodeCol (base + m) = Some k ->
  Built (S m) (addNode (cid r) (rowBase (base + m)) 4 (rowPos (base + m)) k p).
Proof.
  intros (Hlen & Hring & Hstat & Hcols) Hr Hk.
  assert (validCol k) as Hvk.
  { destruct (nodeCol_nodeCand _ _ Hk) as (r' & Hr' & Hin).
    apply nodeCand_lookup in Hr'. destruct (wfCands_lookup _ _ Hr') as (_ & _ & Hv).
    rewrite List.Forall_forall in Hv. apply Hv, Hin. }
  pose proof (hidx_lt_base k Hvk) as Hhk.
  destruct (Hcols k Hvk) as [Hchain Hsize].
  destruct (adj_last_gen (colUpTo m k) (hidx k)) as (u & A & HA & Hfst & Hsnd).
  assert (get p FU (hidx k) = u /\ get p FD u = hidx k) as [Hu Hud].
  { unfold chain in Hchain. rewrite HA in Hchain. apply List.Forall_app in Hchain.
    destruct Hchain as [_ Hlast]. inversion Hlast as [|? ? [H1 H2] _]; subst.
    simpl in *. auto. }
  assert (In u (hidx k :: colUpTo m k)) as Huin.
  { rewrite Hfst. apply in_or_app. right. left. reflexivity. }
  assert (forall i, In i (hidx k :: colUpTo m k) -> (i < length p)%nat) as Hbound.
  { intros i [<-|Hi]; [lia|]. apply colUpTo_In in Hi. lia. }
  pose proof (Hbound u Huin) as Hlu.
  assert (forall f i, get (addNode (cid r) (rowBase (base + m)) 4 (rowPos (base + m)) k p) f i =
            if decide (i = length p) then
              match f with
              | FL => (rowBase (base + m) + (rowPos (base + m) + 4 - 1) mod 4)%nat
              | FR => (rowBase (base + m) + (rowPos (base + m) + 1) mod 4)%nat
              | FU => u
              | FD => hidx k
              | FSize => 0%nat
              end
            else if decide (f = FD /\ i = u) then length p
            else if decide (f = FU /\ i = hidx k) then length p
            else if decide (f = FSize /\ i = hidx k) then (get p FSize (hidx k) + 1)%nat
            else get p f i) as Hget.
  { intros f i. rewrite addNode_get by (rewrite ?Hu; lia). rewrite Hu. reflexivity. }
  set (p' := addNode (cid r) (rowBase (base + m)) 4 (rowPos (base + m)) k p) in *.
  assert (forall f i, (f = FL \/ f = FR) -> (i < length p)%nat -> get p' f i = get p f i) as Hlr.
  { intros f i Hf Hi. rewrite Hget. rewrite decide_False by lia.
    destruct Hf as [-> | ->]; repeat (rewrite decide_False by (intros [? ?]; discriminate));
      reflexivity. }
  split; [|split; [|split]].
  - unfold p'. rewrite length_addNode. lia.
  - eapply chain_frame; [| |exact Hring]; intros i Hi; apply Hlr; auto.
    + assert (In i (root :: map hidx ring0)) as Hi' by exact Hi.
      destruct Hi' as [<-|Hi']; [unfold root; lia|].
      apply in_map_iff in Hi'. destruct Hi' as (c & <- & Hc).
      apply list_elem_of_In, elem_of_seqZ in Hc.
      pose proof (hidx_lt_base c ltac:(unfold validCol; lia)). lia.
    + apply in_app_or in Hi. destruct Hi as [Hi|[<-|[]]]; [|unfold root; lia].
      apply in_map_iff in Hi. destruct Hi as (c & <- & Hc).
      apply list_elem_of_In, elem_of_seqZ in Hc.
      pose proof (hidx_lt_base c ltac:(unfold validCol; lia)). lia.
  - intros i r' Hi Hr'. unfold p'. rewrite rowOf_addNode, colOf_addNode. fold p'.
    rewrite !Hget. case_decide as Hnew.
    + assert (i = (base + m)%nat) as -> by lia.
      rewrite Hr in Hr'. inversion Hr'; subst r'.
      split; [reflexivity|]. split; [reflexivity|]. split.
      * unfold rowNode. f_equal. f_equal. lia.
      * intros k' Hk'. rewrite Hk in Hk'. inversion Hk'. reflexivity.
    + repeat (rewrite decide_False by (intros [? ?]; discriminate)).
      apply Hstat; [lia|exact Hr'].
  - intros k' Hvk'. destruct (Hcols k' Hvk') as [Hchain' Hsize'].
    pose proof (hidx_lt_base k' Hvk') as Hhk'.
    rewrite (colUpTo_S m k k' Hk). case_decide as Hkk.
    + subst k'. split.
      * unfold chain. rewrite (adj_app (colUpTo m k) (hidx k) (base + m)%nat [] (hidx k)).
        rewrite HA. cbn [adj]. rewrite <- app_assoc. cbn [app].
        unfold chain in Hchain. rewrite HA in Hchain. apply List.Forall_app in Hchain.
        destruct Hchain as [HchA _].
        pose proof (colUpTo_NoDup m k) as Hnd.
        assert (List.NoDup (hidx k :: colUpTo m k)) as Hnd'.
        { constructor; [|exact Hnd]. intros Hin. apply colUpTo_In in Hin. lia. }
        rewrite Hfst in Hnd'.
        apply List.Forall_app. split.
        -- rewrite List.Forall_forall in *. intros [a b] Hab.
           destruct (HchA _ Hab) as [H1 H2]. simpl in H1, H2. simpl fst. simpl snd.
           assert (In a (map fst A)) as Ha by (apply (in_map fst) in Hab; exact Hab).
           assert (In b (colUpTo m k)) as Hb.
           { rewrite Hsnd. apply (in_map snd) in Hab. exact Hab. }
           assert (a < length p)%nat as Hla.
           { apply Hbound. rewrite Hfst. apply in_or_app. left. exact Ha. }
           assert (a <> u) as Hau.
           { intros ->. apply NoDup_remove_2 in Hnd'. apply Hnd'. rewrite app_nil_r. exact Ha. }
           apply colUpTo_In in Hb.
           rewrite !Hget. split.
           ++ rewrite decide_False by lia. rewrite decide_False by tauto.
              repeat (rewrite decide_False by (intros [? ?]; discriminate)). exact H1.
           ++ rewrite decide_False by lia.
              rewrite decide_False by (intros [? ?]; discriminate).
              rewrite decide_False by (intros [_ ?]; lia).
              rewrite decide_False by (intros [? ?]; discriminate). exact H2.
        -- repeat constructor; cbn [fst snd]; rewrite !Hget.
           ++ rewrite decide_False by lia. rewrite decide_True by auto. lia.
           ++ rewrite decide_True by lia. reflexivity.
           ++ rewrite decide_True by lia. reflexivity.
           ++ rewrite decide_False by lia.
              rewrite decide_False by (intros [? ?]; discriminate).
              rewrite decide_True by auto. lia.
      * rewrite Hget. rewrite decide_False by lia.
        repeat (rewrite decide_False by (intros [? ?]; discriminate)).
        rewrite decide_True by auto. rewrite length_app, Hsize. reflexivity.
    + assert (hidx k' <> hidx k) as Hhne.
      { intros Heq. apply Hkk. eapply hidx_inj; eauto. }
      assert (forall i, In i (hidx k' :: colUpTo m k') -> i <> u /\ (i < length p)%nat) as Hnotu.
      { intros i Hi. split.
        - intros ->. destruct Huin as [Heq|Hu1]; destruct Hi as [Heq'|Hi1].
          + congruence.
          + apply colUpTo_In in Hi1. lia.
          + apply colUpTo_In in Hu1. lia.
          + apply colUpTo_In in Hi1. apply colUpTo_In in Hu1.
            destruct Hi1 as [E1 _]. destruct Hu1 as [E2 _]. congruence.
        - destruct Hi as [<-|Hi]; [lia|]. apply colUpTo_In in Hi. lia. }
      split.
      * eapply chain_frame; [| |exact Hchain']; intros i Hi; rewrite Hget.
        -- destruct (Hnotu i Hi) as [H1 H2]. rewrite decide_False by lia.
           rewrite decide_False by tauto.
           repeat (rewrite decide_False by (intros [? ?]; discriminate)). reflexivity.
        -- assert (i <> hidx k /\ (i < length p)%nat) as [H1 H2].
           { apply in_app_or in Hi. destruct Hi as [Hi|[<-|[]]]; [|split; [auto|lia]].
             apply colUpTo_In in Hi. split; lia. }
           rewrite decide_False by lia.
           rewrite decide_False by (intros [? ?]; discriminate).
           rewrite decide_False by tauto.
           rewrite decide_False by (intros [? ?]; discriminate). reflexivity.
      * rewrite Hget. rewrite decide_False by lia.
        repeat (rewrite decide_False by (intros [? ?]; discriminate)).
        rewrite decide_False by tauto. exact Hsize'.
Qed.

Lemma ring0_seq : map hidx ring0 = seq 1 ncols.
Proof.
  unfold ring0, seqZ. rewrite Nat2Z.id, <- seq_shift.
  change (@fmap list _ _ _) with (@map nat Z). rewrite map_map.
  apply map_ext. intros i. unfold hidx. f_equal. lia.
Qed.

Lemma adj_seq : forall m a z ab,
  In ab (adj a (seq (S a) m) z) ->
  ((ab.1 < a + m)%nat /\ ab.2 = S ab.1) \/ ab = ((a + m)%nat, z).
Proof.
  induction m as [|m IH]; intros a z ab Hab; simpl in Hab.
  - destruct Hab as [<-|[]]. right. f_equal. lia.
  - destruct Hab as [<-|Hab].
    + left. simpl. split; [lia|reflexivity].
    + apply IH in Hab. destruct Hab as [[H1 H2]|H].
      * left. split; [lia|exact H2].
      * right. rewrite H. f_equal. lia.
Qed.

Lemma get_headerPool_root f : get (headerPool ncols) f 0 = getF f (rootNode ncols).
Proof. reflexivity. Qed.

Lemma get_headerPool_header f k :
  (k < ncols)%nat -> get (headerPool ncols) f (S k) = getF f (headerNode ncols k).
Proof.
  intros Hk. unfold get, headerPool. simpl lookup.
  change (map (headerNode ncols) (seq 0 ncols) !! k)
    with ((headerNode ncols <$> seq 0 ncols) !! k).
  rewrite list_lookup_fmap, lookup_seq_lt by exact Hk. reflexivity.
Qed.

Lemma headerPool_Built : Built 0 (headerPool ncols).
Proof.
  split; [|split; [|split]].
  - unfold headerPool. simpl. rewrite length_map, length_seq. unfold base. lia.
  - unfold chain. rewrite ring0_seq. apply List.Forall_forall. intros [a b] Hab.
    apply adj_seq in Hab. cbn [fst snd] in *. destruct Hab as [[Ha ->]|Hab].
    + rewrite !get_headerPool_header by lia. simpl.
      destruct a as [|a].
      * rewrite get_headerPool_root. simpl.
        destruct (ncols =? 0)%nat eqn:E; [apply Nat.eqb_eq in E; lia|auto].
      * rewrite get_headerPool_header by lia. simpl.
        destruct (a + 1 =? ncols)%nat eqn:E; [apply Nat.eqb_eq in E; lia|].
        split; [lia|reflexivity].
    + inversion Hab; subst a b. change (0 + ncols)%nat with ncols.
      split; [|rewrite get_headerPool_root; reflexivity].
      destruct (decide (ncols = 0)%nat) as [E|E].
      * replace (get (headerPool ncols) FR ncols) with (get (headerPool ncols) FR 0)
          by (f_equal; lia).
        rewrite get_headerPool_root. cbn [getF rootNode nR].
        rewrite (proj2 (Nat.eqb_eq ncols 0)) by exact E. reflexivity.
      * replace (get (headerPool ncols) FR ncols)
          with (get (headerPool ncols) FR (S (ncols - 1))) by (f_equal; lia).
        rewrite get_headerPool_header by lia. cbn [getF headerNode nR].
        rewrite (proj2 (Nat.eqb_eq (ncols - 1 + 1) ncols)) by lia. reflexivity.
  - intros i r Hi Hr. apply nodeCand_bounds in Hr. lia.
  - intros k Hk. unfold colUpTo. simpl.
    assert (hidx k = S (Z.to_nat k)) as E by reflexivity.
    assert (Z.to_nat k < ncols)%nat as Hlt by (unfold validCol in Hk; lia).
    unfold chain. simpl. rewrite ?E, ?get_headerPool_header by exact Hlt. simpl.
    split; [|reflexivity]. constructor; [|constructor]. cbn [fst snd].
    rewrite !get_headerPool_header by exact Hlt. simpl. split; lia.
Qed.

Lemma node_at t r q k :
  cands !! t = Some r -> ccols r !! q = Some k -> (q < 4)%nat ->
  nodeCand (base + (4 * t + q)) = Some r /\ nodeCol (base + (4 * t + q)) = Some k /\
  rowBase (base + (4 * t + q)) = (base + 4 * t)%nat /\ rowPos (base + (4 * t + q)) = q.
Proof.
  intros Ht Hq Hlt.
  assert (((base + (4 * t + q) - base) / 4)%nat = t) as E1 by lia_div.
  assert (((base + (4 * t + q) - base) mod 4)%nat = q) as E2 by lia_div.
  assert (nodeCand (base + (4 * t + q)) = Some r) as Hc.
  { unfold nodeCand. rewrite decide_True by lia. rewrite E1. exact Ht. }
  split; [exact Hc|]. split; [|split].
  - unfold nodeCol. rewrite Hc, E2. exact Hq.
  - unfold rowBase. rewrite E1. reflexivity.
  - unfold rowPos. exact E2.
Qed.

Lemma addNode_Built_at t r q k p :
  cands !! t = Some r -> ccols r !! q = Some k -> (q < 4)%nat ->
  Built (4 * t + q) p ->
  Built (S (4 * t + q)) (addNode (cid r) (base + 4 * t) 4 q k p).
Proof.
  intros Ht Hq Hlt Hb. destruct (node_at t r q k Ht Hq Hlt) as (H1 & H2 & H3 & H4).
  pose proof (addNode_Built (4 * t + q) p r k Hb H1 H2) as H.
  rewrite H3, H4 in H. exact H.
Qed.

Lemma addCandidate_Built t r p :
  cands !! t = Some r -> Built (4 * t) p -> Built (4 * S t) (addCandidate p r).
Proof.
  intros Ht Hb. destruct (wfCands_lookup t r Ht) as (Hlen & _).
  pose proof Hb as (Hlp & _).
  destruct (ccols r) as [|k0 [|k1 [|k2 [|k3 [|? ?]]]]] eqn:E; try discriminate.
  unfold addCandidate. rewrite E. cbv zeta. simpl imap. simpl fold_left. cbn [fst snd length].
  rewrite Hlp.
  replace (4 * S t)%nat with (S (4 * t + 3)) by lia.
  apply addNode_Built_at; [exact Ht|rewrite E; reflexivity|lia|].
  replace (4 * t + 3)%nat with (S (4 * t + 2)) by lia.
  apply addNode_Built_at; [exact Ht|rewrite E; reflexivity|lia|].
  replace (4 * t + 2)%nat with (S (4 * t + 1)) by lia.
  apply addNode_Built_at; [exact Ht|rewrite E; reflexivity|lia|].
  replace (4 * t + 1)%nat with (S (4 * t + 0)) by lia.
  apply addNode_Built_at; [exact Ht|rewrite E; reflexivity|lia|].
  rewrite Nat.add_0_r. exact Hb.
Qed.

Lemma buildPool_prefix : forall pre post,
  cands = pre ++ post ->
  Built (4 * length pre) (fold_left addCandidate pre (headerPool ncols)).
Proof.
  induction pre as [|r pre IH] using rev_ind; intros post Hsplit.
  - exact headerPool_Built.
  - rewrite fold_left_app, length_app. simpl.
    replace (length pre + 1)%nat with (S (length pre)) by lia.
    rewrite <- app_assoc in Hsplit. apply addCandidate_Built.
    + rewrite Hsplit. rewrite lookup_app_r by lia. rewrite Nat.sub_diag. reflexivity.
    + apply (IH ([r] ++ post)). exact Hsplit.
Qed.

Lemma buildPool_Built : Built nbody (buildPool ncols cands).
Proof. unfold nbody, buildPool. apply (buildPool_prefix cands []). rewrite app_nil_r. reflexivity. Qed.

(** The pool as built is well linked, with every column in the ring and
    every candidate in its columns. *)
Lemma buildPool_Stable : Stable (buildPool ncols cands) ring0 allRows.
Proof.
  destruct buildPool_Built as (Hlen & Hring & Hstat & Hcols).
  assert (forall c, In c ring0 <-> validCol c) as Hring0.
  { intros c. unfold ring0, validCol. rewrite <- list_elem_of_In, elem_of_seqZ. lia. }
  split; [|split; [|split; [|split]]].
  - split; [exact Hlen|]. intros i r Hr. apply Hstat; [|exact Hr].
    apply nodeCand_bounds in Hr. lia.
  - split; [exact Hring|]. intros k Hk. apply Hring0 in Hk.
    assert (filter (rowAlive allRows) (colAll k) = colUpTo nbody k) as E.
    { unfold colAll, colUpTo. rewrite <- (filter_ext_in (fun _ => True) (rowAlive allRows)).
      - clear. induction (filter (fun i => nodeCol i = Some k) (seq base nbody)) as [|x l IH];
          [reflexivity|].
        rewrite filter_cons_True by exact I. rewrite IH. reflexivity.
      - intros i Hi. split; [|auto]. intros _. apply filter_In_list in Hi.
        destruct Hi as [Hi _]. destruct (nodeCol_nodeCand i k Hi) as (r & Hr & _).
        apply nodeCand_lookup, lookup_lt_Some in Hr. exact Hr. }
    rewrite E. apply Hcols, Hk.
  - apply NoDup_ListNoDup, NoDup_seqZ.
  - intros c Hc. apply Hring0, Hc.
  - intros t r c _ Ht Hc. apply Hring0.
    destruct (wfCands_lookup t r Ht) as (_ & _ & Hv).
    rewrite List.Forall_forall in Hv. apply Hv, Hc.
Qed.

(** *** The pool and the active matrix *)

Lemma candsAt_cons t ts r : cands !! t = Some r -> candsAt (t :: ts) = r :: candsAt ts.
Proof. intros H. unfold candsAt. simpl. rewrite H. reflexivity. Qed.

Lemma omap_lookup_seq {A} : forall (l pre : list A),
  omap (fun t => (pre ++ l) !! t) (seq (length pre) (length l)) = l.
Proof.
  induction l as [|x l IH]; intros pre; [reflexivity|].
  simpl. rewrite lookup_app_r by lia. rewrite Nat.sub_diag. simpl. f_equal.
  specialize (IH (pre ++ [x])). rewrite <- app_assoc, length_app in IH. simpl in IH.
  rewrite Nat.add_1_r in IH. exact IH.
Qed.

Lemma candsAt_all : candsAt (seq 0 (length cands)) = cands.
Proof. apply (omap_lookup_seq cands []). Qed.

Lemma filter_candsAt (P : Candidate -> Prop) (P' : nat -> Prop)
    {decP : forall r, Decision (P r)} {decP' : forall t, Decision (P' t)} (ts : list nat) :
  (forall t r, In t ts -> cands !! t = Some r -> (P r <-> P' t)) ->
  filter P (candsAt ts) = candsAt (filter P' ts).
Proof.
  induction ts as [|t ts IH]; intros Hiff; [reflexivity|].
  assert (filter P (candsAt ts) = candsAt (filter P' ts)) as IH'.
  { apply IH. intros t' r Ht'. apply Hiff. right. exact Ht'. }
  destruct (cands !! t) as [r|] eqn:Ht.
  - rewrite (candsAt_cons t ts r Ht). rewrite !filter_cons.
    pose proof (Hiff t r (or_introl eq_refl) Ht) as Hr.
    destruct (decide (P r)) as [HP|HP]; destruct (decide (P' t)) as [HP'|HP'];
      try tauto.
    rewrite (candsAt_cons t _ r Ht), IH'. reflexivity.
  - unfold candsAt in *. simpl. rewrite Ht. rewrite filter_cons.
    destruct (decide (P' t)); [|exact IH']. simpl. rewrite Ht. exact IH'.
Qed.

Lemma length_candsAt ts : (forall t, In t ts -> (t < length cands)%nat) ->
  length (candsAt ts) = length ts.
Proof.
  induction ts as [|t ts IH]; intros Hlt; [reflexivity|].
  destruct (lookup_lt_is_Some_2 cands t (Hlt t (or_introl eq_refl))) as [r Hr].
  rewrite (candsAt_cons t ts r Hr). simpl. f_equal. apply IH.
  intros t' Ht'. apply Hlt. right. exact Ht'.
Qed.

Lemma seq_rowNodes : forall n, seq base (4 * n) = flat_map rowNodes (seq 0 n).
Proof.
  induction n as [|n IH]; [reflexivity|].
  replace (4 * S n)%nat with (4 * n + 4)%nat by lia.
  rewrite seq_app, (seq_S n 0), flat_map_app, IH. f_equal. simpl. unfold rowNodes.
  repeat (f_equal; try lia).
Qed.

Lemma rowOfNode_at t q : (q < 4)%nat -> rowOfNode (base + (4 * t + q)) = t.
Proof. intros Hq. unfold rowOfNode. lia_div. Qed.

Lemma touchesCol_iff c t r : cands !! t = Some r -> touchesCol c t <-> In c (ccols r).
Proof.
  intros Ht. unfold touchesCol. split.
  - intros (r' & Hr' & Hin). congruence.
  - intros Hin. exists r. auto.
Qed.

(** A live row has one node in each of its columns. *)
Lemma column_rows_one (lv : nat -> Prop) {decLv : forall t, Decision (lv t)} c t :
  (t < length cands)%nat ->
  map rowOfNode (filter (fun i => rowAlive lv i /\ nodeCol i = Some c) (rowNodes t))
  = filter (fun t => lv t /\ touchesCol c t) [t].
Proof.
  intros Hlt. destruct (lookup_lt_is_Some_2 cands t Hlt) as [r Hr].
  destruct (wfCands_lookup t r Hr) as (Hlen & Hnd & _).
  pose proof (touchesCol_iff c t r Hr) as Htouch.
  destruct (ccols r) as [|k0 [|k1 [|k2 [|k3 [|? ?]]]]] eqn:E; try discriminate.
  assert (forall q k, [k0; k1; k2; k3] !! q = Some k -> (q < 4)%nat ->
            nodeCol (base + (4 * t + q)) = Some k) as Hcol.
  { intros q k Hq Hq4. rewrite <- E in Hq. apply (node_at t r q k Hr Hq Hq4). }
  pose proof (Hcol 0%nat k0 eq_refl ltac:(lia)) as H0.
  pose proof (Hcol 1%nat k1 eq_refl ltac:(lia)) as H1.
  pose proof (Hcol 2%nat k2 eq_refl ltac:(lia)) as H2.
  pose proof (Hcol 3%nat k3 eq_refl ltac:(lia)) as H3.
  pose proof (rowOfNode_at t 0 ltac:(lia)) as R0.
  pose proof (rowOfNode_at t 1 ltac:(lia)) as R1.
  pose proof (rowOfNode_at t 2 ltac:(lia)) as R2.
  pose proof (rowOfNode_at t 3 ltac:(lia)) as R3.
  assert (k0 <> k1 /\ k0 <> k2 /\ k0 <> k3 /\ k1 <> k2 /\ k1 <> k3 /\ k2 <> k3) as Hne.
  { inversion Hnd as [|? ? N0 Hnd1]; subst. inversion Hnd1 as [|? ? N1 Hnd2]; subst.
    inversion Hnd2 as [|? ? N2 Hnd3]; subst. simpl in *. intuition congruence. }
  unfold rowNodes, rowAlive. rewrite !filter_cons, !filter_nil.
  rewrite H0, H1, H2, H3, R0, R1, R2, R3. simpl in Htouch.
  repeat case_decide; cbn [map]; rewrite ?R0, ?R1, ?R2, ?R3; try reflexivity;
    exfalso; clear Hcol H0 H1 H2 H3 R0 R1 R2 R3; destruct_and?; simplify_eq;
    intuition congruence.
Qed.

Lemma column_rows_list (lv : nat -> Prop) {decLv : forall t, Decision (lv t)} c :
  forall ts, (forall t, In t ts -> (t < length cands)%nat) ->
  map rowOfNode (filter (fun i => rowAlive lv i /\ nodeCol i = Some c) (flat_map rowNodes ts))
  = filter (fun t => lv t /\ touchesCol c t) ts.
Proof.
  induction ts as [|t ts IH]; intros Hlt; [reflexivity|].
  change (flat_map rowNodes (t :: ts)) with (rowNodes t ++ flat_map rowNodes ts).
  rewrite filter_app, map_app, IH by (intros t' Ht'; apply Hlt; right; exact Ht').
  rewrite (column_rows_one lv c t) by (apply Hlt; left; reflexivity).
  change (t :: ts) with ([t] ++ ts). rewrite (filter_app _ [t] ts). reflexivity.
Qed.

(** The live nodes of a column, top to bottom, are the nodes of the live rows
    that touch it, in insertion order. *)
Lemma column_rows (lv : nat -> Prop) {decLv : forall t, Decision (lv t)} c :
  map rowOfNode (filter (rowAlive lv) (colAll c))
  = filter (fun t => lv t /\ touchesCol c t) (seq 0 (length cands)).
Proof.
  unfold colAll, nbody. rewrite seq_rowNodes, list_filter_filter.
  apply column_rows_list. intros t Ht. apply in_seq in Ht. lia.
Qed.

Lemma touches_false (h : Z) (r : Candidate) : touches h r = false <-> ~ In h (ccols r).
Proof.
  rewrite <- touches_In. destruct (touches h r); split; intros H; try discriminate; auto.
  exfalso. apply H. reflexivity.
Qed.

Lemma rowsOf_Represents (lv : nat -> Prop) {decLv : forall t, Decision (lv t)} M c :
  live M = candsAt (liveIdx lv) -> rowsOf M c = candsAt (rowsIdx lv c).
Proof.
  intros Hlive. unfold rowsOf. rewrite Hlive.
  rewrite (filter_candsAt (fun r => touches c r = true) (fun t => touchesCol c t)).
  - unfold liveIdx, rowsIdx. rewrite list_filter_filter. f_equal.
    apply filter_ext_in. intros t _. tauto.
  - intros t r _ Ht. rewrite touches_In. symmetry. apply touchesCol_iff, Ht.
Qed.

Lemma cover_live_Represents (lv : nat -> Prop) {decLv : forall t, Decision (lv t)} M k :
  live M = candsAt (liveIdx lv) ->
  live (cover k M) = candsAt (liveIdx (stillLive lv k)).
Proof.
  intros Hlive. unfold cover. cbn [live]. rewrite Hlive.
  rewrite (filter_candsAt (fun r => touches k r = false) (fun t => ~ touchesCol k t)).
  - unfold liveIdx. rewrite list_filter_filter. f_equal.
    apply filter_ext_in. intros t _. unfold stillLive. tauto.
  - intros t r _ Ht. rewrite touches_false. rewrite (touchesCol_iff k t r Ht). tauto.
Qed.

Lemma cover_Represents p M k : Represents p M -> In k (headers M) -> Represents (coverP (hidx k) p) (cover k M).
Proof.
  intros (lv & decLv & Hst & Hlive) Hk. exists (stillLive lv k), _. split.
  - apply (coverP_Stable p (headers M) lv k Hst Hk).
  - apply cover_live_Represents, Hlive.
Qed.

Lemma rowsIdx_lt (lv : nat -> Prop) {decLv : forall t, Decision (lv t)} c t :
  In t (rowsIdx lv c) -> (t < length cands)%nat.
Proof. unfold rowsIdx. rewrite filter_In_list, in_seq. lia. Qed.

(** The [size] of a header is the number of rows of its column. *)
Lemma size_Represents p M c : Represents p M -> In c (headers M) -> get p FSize (hidx c) = colSize M c.
Proof.
  intros (lv & decLv & Hst & Hlive) Hc.
  destruct Hst as (_ & [_ Hcols] & _). destruct (Hcols c Hc) as [_ ->].
  unfold colSize. rewrite (rowsOf_Represents lv M c Hlive).
  rewrite length_candsAt by apply rowsIdx_lt.
  unfold rowsIdx. rewrite <- (column_rows lv c), length_map. reflexivity.
Qed.

Lemma candsAt_rows (ys : list nat) :
  (forall y, In y ys -> exists r, nodeCand y = Some r) ->
  candsAt (map rowOfNode ys) = map candOf ys.
Proof.
  induction ys as [|y ys IH]; intros Hys; [reflexivity|].
  destruct (Hys y (or_introl eq_refl)) as [r Hr]. simpl map.
  rewrite (candsAt_cons _ _ r (nodeCand_lookup y r Hr)).
  unfold candOf at 1. rewrite Hr. simpl. f_equal. apply IH.
  intros y' Hy'. apply Hys. right. exact Hy'.
Qed.

(** The rows met walking down a column are the rows of the column in the
    matrix. *)
Lemma rows_Represents (lv : nat -> Prop) {decLv : forall t, Decision (lv t)} M c :
  live M = candsAt (liveIdx lv) -> rowsOf M c = map candOf (liveNodes lv c).
Proof.
  intros Hlive. rewrite (rowsOf_Represents lv M c Hlive). unfold rowsIdx.
  rewrite <- (column_rows lv c). apply candsAt_rows.
  intros y Hy. destruct (liveNodes_facts lv c y Hy) as (_ & _ & _ & r & Hr & _). eauto.
Qed.

Lemma nodeCol_rowNode y r q :
  nodeCand y = Some r -> nodeCol (rowNode y q) = ccols r !! ((rowPos y + q) mod 4)%nat.
Proof.
  intros Hr. pose proof (nodeCand_bounds y r Hr) as [Hb _].
  unfold nodeCol. rewrite (rowNode_cand y q r Hr).
  change ((rowNode y q - base) mod 4)%nat with (rowPos (rowNode y q)).
  rewrite (rowNode_pos y q Hb). reflexivity.
Qed.

(** The columns met walking right from a node of a row. *)
Lemma ringAfter_others y r k :
  nodeCand y = Some r -> nodeCol y = Some k ->
  Forall2 (fun j c => nodeCol j = Some c) (others y) (ringAfter k [] (ccols r)) /\
  List.NoDup (ringAfter k [] (ccols r)) /\
  (forall c, In c (ringAfter k [] (ccols r)) -> In c (ccols r) /\ c <> k).
Proof.
  intros Hr Hk. pose proof (nodeCol_pos y k r Hr Hk) as Hpos.
  destruct (wfCands_lookup _ r (nodeCand_lookup y r Hr)) as (Hlen & Hnd & _).
  pose proof (nodeCol_rowNode y r 1 Hr) as H1.
  pose proof (nodeCol_rowNode y r 2 Hr) as H2.
  pose proof (nodeCol_rowNode y r 3 Hr) as H3.
  unfold others.
  destruct (ccols r) as [|k0 [|k1 [|k2 [|k3 [|? ?]]]]] eqn:E; try discriminate.
  assert (k0 <> k1 /\ k0 <> k2 /\ k0 <> k3 /\ k1 <> k2 /\ k1 <> k3 /\ k2 <> k3) as Hne.
  { inversion Hnd as [|? ? N0 Hnd1]; subst. inversion Hnd1 as [|? ? N1 Hnd2]; subst.
    inversion Hnd2 as [|? ? N2 Hnd3]; subst. simpl in *. intuition congruence. }
  destruct Hne as (N01 & N02 & N03 & N12 & N13 & N23).
  destruct (rowPos y) as [|[|[|[|q]]]]; simpl in Hpos; try discriminate;
    inversion Hpos; subst k; simpl in H1, H2, H3; cbn [ringAfter];
    rewrite ?Z.eqb_refl, ?(proj2 (Z.eqb_neq k0 k1)), ?(proj2 (Z.eqb_neq k0 k2)),
      ?(proj2 (Z.eqb_neq k0 k3)), ?(proj2 (Z.eqb_neq k1 k2)), ?(proj2 (Z.eqb_neq k1 k3)),
      ?(proj2 (Z.eqb_neq k2 k3)) by assumption; cbn [rev app];
    (split; [repeat constructor; assumption|]);
    (split; [repeat constructor; simpl; intuition congruence|]);
    intros c Hc; simpl in Hc; simpl; intuition congruence.
Qed.

Lemma coverCols_Represents : forall js cs p M,
  Represents p M -> Forall2 (fun j c => nodeCol j = Some c) js cs -> List.NoDup cs ->
  (forall c, In c cs -> In c (headers M)) ->
  Represents (runBody coverCol js p) (fold_left (fun M c => cover c M) cs M).
Proof.
  intros js cs p M Hrel Hjs. revert p M Hrel.
  induction Hjs as [|j c js cs Hjc Hjs IH]; intros p M Hrel Hnd Hin; [exact Hrel|].
  inversion Hnd as [|? ? Hc Hnd']; subst.
  change (runBody coverCol (j :: js) p) with (runBody coverCol js (coverCol j p)).
  assert (coverCol j p = coverP (hidx c) p) as ->.
  { unfold coverCol. destruct Hrel as (lv & decLv & Hst & _).
    rewrite (Static_colOf p j c); [reflexivity|apply Hst|exact Hjc]. }
  simpl fold_left. apply IH.
  - apply cover_Represents; [exact Hrel|]. apply Hin. left. reflexivity.
  - exact Hnd'.
  - intros c' Hc'. unfold cover. cbn [headers]. apply filter_In_list. split.
    + intros ->. exact (Hc Hc').
    + apply Hin. right. exact Hc'.
Qed.

(** The covers for a chosen row. *)
Lemma coverRow_Represents p M k y :
  forall (lv : nat -> Prop) (decLv : forall t, Decision (lv t)),
  Stable p (headers M) lv -> live M = candsAt (liveIdx lv) ->
  In k (headers M) -> In y (liveNodes lv k) ->
  Represents (runBody coverCol (others y) (coverP (hidx k) p)) (coverRow M k (candOf y)).
Proof.
  intros lv decLv Hst Hlive Hk Hy.
  destruct (liveNodes_facts lv k y Hy) as (Hyk & Hya & Hyb & r & Hr & Hkr).
  destruct (ringAfter_others y r k Hr Hyk) as (Hf2 & Hnd & Hin).
  unfold coverRow, candOf. rewrite Hr. cbn [default].
  apply coverCols_Represents; [|exact Hf2|exact Hnd|].
  - apply cover_Represents; [|exact Hk]. exists lv, decLv. auto.
  - intros c Hc. destruct (Hin c Hc) as [Hcr Hne].
    unfold cover. cbn [headers]. apply filter_In_list. split; [exact Hne|].
    destruct Hst as (_ & _ & _ & _ & Hclosed).
    eapply Hclosed; [exact Hya|apply nodeCand_lookup, Hr|exact Hcr].
Qed.

Lemma minColumn_refines p M : forall ys x best fuel,
  fpath p FR x (map hidx ys) root ->
  (forall c, In c (best :: ys) -> validCol c /\ get p FSize (hidx c) = colSize M c) ->
  (length ys < fuel)%nat ->
  minColumn fuel p (hidx best) (get p FR x)
  = hidx (chooseColumn_from M best (colSize M best) ys).
Proof.
  induction ys as [|y ys IH]; intros x best fuel Hp Hsz Hf;
    (destruct fuel as [|fuel]; [simpl in Hf; lia|]).
  - inversion Hp as [|? ? H _]; subst. simpl in H. simpl. rewrite H. reflexivity.
  - simpl map in Hp. inversion Hp as [|? ? H Hp']; subst. simpl in H.
    simpl minColumn. rewrite H.
    destruct (Hsz y (or_intror (or_introl eq_refl))) as [Hvy Hsy].
    destruct (Hsz best (or_introl eq_refl)) as [_ Hsb].
    pose proof (hidx_lt_base y Hvy) as Hy.
    assert (hidx y <> root) as Hne by (unfold root; lia).
    apply Nat.eqb_neq in Hne. rewrite Hne, Hsy, Hsb.
    simpl chooseColumn_from. destruct (colSize M y <? colSize M best)%nat.
    + apply IH; [exact Hp'| |simpl in Hf; lia].
      intros c [<-|Hc]; [auto|]. apply Hsz. right. right. exact Hc.
    + apply IH; [exact Hp'| |simpl in Hf; lia].
      intros c [<-|Hc]; [apply Hsz; left; reflexivity|]. apply Hsz. right. right. exact Hc.
Qed.

(** The column choice of the pool is the one of the matrix. *)
Lemma chooseColumnP_refines p M h0 hs :
  Represents p M -> headers M = h0 :: hs ->
  chooseColumnP p = hidx (chooseColumn_from M h0 (colSize M h0) hs).
Proof.
  intros Hrel Hh. pose proof Hrel as (lv & decLv & Hst & Hlive).
  pose proof (ring_length p (headers M) lv Hst) as Hlen.
  pose proof Hst as (_ & [Hring _] & _ & Hvalid & _).
  rewrite Hh in Hring, Hlen. apply chain_fpath in Hring. simpl map in Hring.
  inversion Hring as [|? ? H Hring']; subst. simpl in H.
  unfold chooseColumnP. rewrite H.
  destruct (length p) as [|n] eqn:En; [simpl in Hlen; lia|].
  simpl minColumn.
  rewrite Nat.ltb_irrefl.
  apply minColumn_refines; [exact Hring'| |simpl in Hlen; lia].
  intros c Hc. rewrite <- Hh in Hc. split; [apply Hvalid, Hc|apply size_Represents; assumption].
Qed.

(** The loop over the rows of the chosen column, in the pool and in the
    matrix. *)
Lemma tryRowsP_refines attempt (attemptA : Candidate -> option (list Z)) h p1 :
  forall rs fuel x,
  fpath p1 FD x rs h -> ~ In h rs -> (length rs < fuel)%nat ->
  (forall y, In y rs ->
     rowOf p1 y = cid (candOf y) /\
     (attempt (forEach FR y coverCol p1)).1 = attemptA (candOf y) /\
     ((attempt (forEach FR y coverCol p1)).1 = None ->
      forEach FL y uncoverCol (attempt (forEach FR y coverCol p1)).2 = p1)) ->
  (tryRowsP fuel attempt h (get p1 FD x) p1).1
  = match tryRows attemptA (map candOf rs) with
    | Some (r, sol) => Some (cid r :: sol)
    | None => None
    end.
Proof.
  induction rs as [|y rs IH]; intros fuel x Hp Hh Hf Hrows;
    (destruct fuel as [|fuel]; [simpl in Hf; lia|]).
  - inversion Hp as [|? ? H _]; subst. simpl in H. rewrite H, tryRowsP_S, Nat.eqb_refl.
    reflexivity.
  - inversion Hp as [|? ? H Hp']; subst. simpl in H. rewrite H, tryRowsP_S.
    assert (y <> h) as Hy by (intros ->; apply Hh; left; reflexivity).
    apply Nat.eqb_neq in Hy. rewrite Hy.
    destruct (Hrows y (or_introl eq_refl)) as (Hrow & Hatt & Hundo).
    simpl map. simpl tryRows. rewrite <- Hatt.
    destruct (attempt (forEach FR y coverCol p1)) as [[sol|] p2]; cbn [fst snd] in *.
    + rewrite Hrow. reflexivity.
    + rewrite (Hundo eq_refl). apply IH.
      * exact Hp'.
      * intros Hin. apply Hh. right. exact Hin.
      * simpl in Hf. lia.
      * intros y' Hy'. apply Hrows. right. exact Hy'.
Qed.

(** The search of the pool returns what the search of the matrix returns. *)
Lemma searchP_refines : forall fuel p M, Represents p M -> (searchP fuel p).1 = search fuel M.
Proof.
  induction fuel as [|fuel IH]; intros p M Hrel; [reflexivity|].
  pose proof Hrel as (lv & decLv & Hst & Hlive).
  rewrite searchP_S. simpl search. destruct (headers M) as [|h0 hs] eqn:Hh.
  { destruct Hst as (_ & [Hring _] & _).
    inversion Hring as [|? ? [H _] _]; subst. simpl in H. rewrite H, Nat.eqb_refl.
    reflexivity. }
  assert (get p FR root <> root) as Hroot.
  { intros Heq. rewrite <- Hh in Hst. pose proof (ring_empty p (headers M) lv Hst Heq).
    congruence. }
  apply Nat.eqb_neq in Hroot. rewrite Hroot.
  rewrite (chooseColumnP_refines p M h0 hs Hrel Hh).
  set (k := chooseColumn_from M h0 (colSize M h0) hs).
  assert (In k (headers M)) as Hk by (rewrite Hh; apply chooseColumn_from_In).
  rewrite (size_Represents p M k Hrel Hk).
  destruct (colSize M k =? 0)%nat; [reflexivity|].
  rewrite <- Hh in Hst.
  pose proof (coverP_Stable p (headers M) lv k Hst Hk) as Hst1.
  pose proof (coverP_column p (headers M) lv k Hst Hk) as Hcol.
  set (q1 := coverP (hidx k) p) in *.
  assert (length p = length q1) as Hlen.
  { destruct Hst as ([-> _] & _). destruct Hst1 as ([-> _] & _). reflexivity. }
  assert ((tryRowsP (length p) (searchP fuel) (hidx k) (get q1 FD (hidx k)) q1).1
          = match tryRows (fun r => search fuel (coverRow M k r)) (rowsOf M k) with
            | Some (r, sol) => Some (cid r :: sol)
            | None => None
            end) as Hloop.
  { rewrite (rows_Represents lv M k Hlive). apply tryRowsP_refines.
    - apply chain_fpath in Hcol. exact Hcol.
    - apply (hidx_not_liveNodes p (headers M) lv k Hst Hk).
    - apply (liveNodes_length p (headers M) lv k Hst).
    - intros y Hy. destruct (liveNodes_facts lv k y Hy) as (Hyk & Hya & Hyb & r & Hr & Hkr).
      pose proof (row_distinctCols p (headers M) lv k y Hst Hk Hy) as Hd.
      rewrite (forEach_row_cover q1 _ (stillLive lv k) y r Hst1 Hr Hd).
      split; [|split].
      + unfold candOf. rewrite Hr. destruct Hst1 as ([_ Hs] & _). apply (Hs y r Hr).
      + apply IH. apply (coverRow_Represents p M k y lv decLv Hst Hlive Hk Hy).
      + intros Hnone.
        destruct (coverCols_Stable (others y) q1 _ (stillLive lv k) _ Hst1 Hd)
          as (hs2 & lv2 & dec2 & Hst2 & _ & _).
        rewrite (searchP_balance fuel _ hs2 lv2 dec2 Hst2 Hnone).
        apply (forEach_row_uncover q1 _ (stillLive lv k) y r Hst1 Hr Hd). }
  rewrite <- Hloop.
  destruct (tryRowsP (length p) (searchP fuel) (hidx k) (get q1 FD (hidx k)) q1)
    as [[sol|] p2]; reflexivity.
Qed.

Lemma buildPool_Represents : Represents (buildPool ncols cands) (mkMatrix ring0 cands).
Proof.
  exists allRows, _. split; [exact buildPool_Stable|].
  cbn [live]. unfold liveIdx.
  rewrite <- candsAt_all at 1. f_equal. symmetry.
  rewrite <- (filter_ext_in (fun _ => True) allRows).
  - induction (seq 0 (length cands)) as [|x l IHl]; [reflexivity|].
    rewrite filter_cons_True by exact I. rewrite IHl. reflexivity.
  - intros t Ht. apply in_seq in Ht. unfold allRows. split; [lia|auto].
Qed.

End PoolFacts.

(** ** The pool of a Sudoku grid *)

Lemma boxOf_bounds (R r c : Z) :
  0 <= R -> 0 <= r < R * R -> 0 <= c < R * R -> 0 <= boxOf R r c < R * R.
Proof.
  intros HR0 Hr Hc. unfold boxOf.
  assert (0 < R) as HR by nia.
  assert (0 <= r / R < R) as H1.
  { split; [apply Z.div_pos; lia|apply Z.div_lt_upper_bound; lia]. }
  assert (0 <= c / R < R) as H2.
  { split; [apply Z.div_pos; lia|apply Z.div_lt_upper_bound; lia]. }
  nia.
Qed.

(** Every candidate of a grid has four distinct columns among the 4 N^2. *)
Lemma buildCandidates_wf (n : nat) (G : Grid) :
  validSudoku n G -> Z.sqrt (Z.of_nat n) * Z.sqrt (Z.of_nat n) = Z.of_nat n ->
  wfCands (columnsOf G) (buildCandidates G).
Proof.
  intros Hvalid Hsq. pose proof Hvalid as [Hsquare _].
  unfold wfCands, columnsOf. rewrite (size_square n G Hsquare).
  apply List.Forall_forall. intros x Hx.
  destruct (candidate_origin n G x Hvalid Hx)
    as (r & c & v & d & Hr & Hc & _ & Hd & _ & -> & _).
  set (N := Z.of_nat n) in *. set (R := Z.sqrt N) in *.
  pose proof (boxOf_bounds R (Z.of_nat r) (Z.of_nat c)) as Hbox.
  rewrite Hsq in Hbox. specialize (Hbox (Z.sqrt_nonneg N) ltac:(lia) ltac:(lia)).
  set (b := boxOf R (Z.of_nat r) (Z.of_nat c)) in *.
  assert (0 <= Z.of_nat r * N + Z.of_nat c < N * N) as H0 by nia.
  assert (0 <= Z.of_nat r * N + (d - 1) < N * N) as H1 by nia.
  assert (0 <= Z.of_nat c * N + (d - 1) < N * N) as H2 by nia.
  assert (0 <= b * N + (d - 1) < N * N) as H3 by nia.
  cbn [candidate ccols candidateColumns]. fold b.
  split; [reflexivity|]. split.
  - repeat constructor; simpl; lia.
  - repeat constructor; unfold validCol; lia.
Qed.

Lemma validSize_sqrt (m : Z) : validSize m -> Z.sqrt m * Z.sqrt m = m.
Proof.
  intros [_ [r Hr]]. subst m. destruct (Z.le_gt_cases 0 r) as [Hpos|Hneg].
  - rewrite Z.sqrt_square by exact Hpos. reflexivity.
  - replace (r * r) with ((- r) * (- r)) by lia. rewrite Z.sqrt_square by lia. reflexivity.
Qed.

(** The solver on the node pool returns what the solver on the active matrix
    returns. *)
Theorem solveP_refines (n : nat) (G : Grid) :
  validSudoku n G -> validSize (Z.of_nat n) -> solveP G = solve G.
Proof.
  intros Hvalid Hsize. pose proof (validSize_sqrt _ Hsize) as Hsq.
  pose proof (buildCandidates_wf n G Hvalid Hsq) as Hwf.
  pose proof (buildPool_Represents (columnsOf G) (buildCandidates G) Hwf) as Hrel.
  assert (mkMatrix (ring0 (columnsOf G)) (buildCandidates G) = initialMatrix G) as EM.
  { unfold initialMatrix, ring0, columnsOf. rewrite Z2Nat.id by nia. reflexivity. }
  rewrite EM in Hrel.
  pose proof (searchP_refines (columnsOf G) (buildCandidates G) Hwf
                (S (columnsOf G)) _ _ Hrel) as Href.
  unfold solveP, solve. cbv zeta. fold (columnsOf G).
  assert (length (headers (initialMatrix G)) = columnsOf G) as ->.
  { unfold initialMatrix, columnsOf. cbn [headers]. apply length_seqZ. }
  rewrite <- Href.
  destruct (searchP (S (columnsOf G)) (buildPool (columnsOf G) (buildCandidates G)))
    as [[sol|] p']; reflexivity.
Qed.

(** With more fuel than columns the search on the pool never runs out: its
    result does not depend on the fuel. *)
Lemma searchP_fuel_enough (n : nat) (G : Grid) (fuel : nat) :
  validSudoku n G -> validSize (Z.of_nat n) -> (columnsOf G < fuel)%nat ->
  (searchP fuel (buildPool (columnsOf G) (buildCandidates G))).1
  = (searchP (S (columnsOf G)) (buildPool (columnsOf G) (buildCandidates G))).1.
Proof.
  intros Hvalid Hsize Hfuel. pose proof (validSize_sqrt _ Hsize) as Hsq.
  pose proof (buildCandidates_wf n G Hvalid Hsq) as Hwf.
  pose proof (buildPool_Represents (columnsOf G) (buildCandidates G) Hwf) as Hrel.
  rewrite !(searchP_refines (columnsOf G) (buildCandidates G) Hwf _ _ _ Hrel).
  apply search_fuel_enough; cbn [headers]; unfold ring0;
    rewrite length_seqZ, Nat2Z.id; lia.
Qed.

(** DLX balance for a grid: when the solver reports NOT_FOUND, the pool has
    exactly the linkage it had after the build. *)
Lemma solveP_balance (n : nat) (G : Grid) :
  validSudoku n G -> validSize (Z.of_nat n) -> solveP G = None ->
  (searchP (S (columnsOf G)) (buildPool (columnsOf G) (buildCandidates G))).2
  = buildPool (columnsOf G) (buildCandidates G).
Proof.
  intros Hvalid Hsize Hnone. pose proof (validSize_sqrt _ Hsize) as Hsq.
  pose proof (buildCandidates_wf n G Hvalid Hsq) as Hwf.
  pose proof (buildPool_Stable (columnsOf G) (buildCandidates G) Hwf) as Hst.
  apply (searchP_balance (columnsOf G) (buildCandidates G) Hwf _ _ _ _ _ Hst).
  unfold solveP in Hnone. cbv zeta in Hnone. fold (columnsOf G) in Hnone.
  destruct (searchP (S (columnsOf G)) (buildPool (columnsOf G) (buildCandidates G)))
    as [[sol|] p']; [discriminate|reflexivity].
Qed.

Example solveP_4x4 :
  solveP (sudokuOfString 4 "1.3..4.22.4..3.1") = Some (sudokuOfString 4 "1234341221434321").
Proof. vm_compute. reflexivity. Qed.

Example solveP_duplicate_given : solveP (sudokuOfString 4 "11..............") = None.
Proof. vm_compute. reflexivity. Qed.

Lemma validSize_9 : validSize 9.
Proof. split; [lia|exists 3; reflexivity]. Qed.

(** The source's test "Not Unique - 4 Solutions" on the pool: the solution
    the source records as found first is the one the pool's search finds. *)
Example solveP_first_of_four :
  solveP (sudokuOfString 9
    "....9....6..4.7..8.4.812.3.7.......5..4...9..5..371..4.5..6..4.2.17.85.9.........")
  = Some (sudokuOfString 9
    "178693452623457198945812736762984315314526987589371624857169243231748569496235871").
Proof.
  rewrite (solveP_refines 9); [exact solve_first_of_four| |exact validSize_9].
  split; [square_ok|].
  repeat first [apply List.Forall_nil | apply List.Forall_cons]; vm_compute;
    split; discriminate.
Qed.


Lemma validSudoku_sudoku4x4 : validSudoku 4 sudoku4x4.
Proof.
  split; [square_ok|].
  repeat first [apply List.Forall_nil | apply List.Forall_cons]; vm_compute;
    split; discriminate.
Qed.


(** * Further properties of the window *)

(** ** Reset *)

Lemma resetGrid_square n (g : UIGrid) :
  square n g -> resetGrid g = repeat (repeat [] n) n.
Proof.
  intros Hsq. apply (square_ext n).
  - unfold resetGrid. apply square_map, Hsq.
  - apply square_repeat.
  - intros a b Ha Hb. unfold resetGrid. rewrite cell_map.
    destruct (cell_is_Some n g a b Hsq Ha Hb) as [x ->].
    destruct (cell_is_Some n (repeat (repeat ([] : Cell) n) n) a b (square_repeat n []) Ha Hb)
      as [y Hy].
    rewrite Hy. simpl. f_equal. unfold cellAt in Hy.
    rewrite lookup_repeat in Hy. rewrite decide_True in Hy by exact Ha.
    rewrite lookup_repeat in Hy. rewrite decide_True in Hy by exact Hb.
    congruence.
Qed.

Lemma UIGridToStringGrid_empty (n : nat) :
  UIGridToStringGrid (repeat (repeat [] n) n) = repeat "."%char (n * n).
Proof.
  unfold UIGridToStringGrid.
  assert (forall m, concat (map cellToString (repeat ([] : Cell) m)) = repeat "."%char m) as Hrow.
  { induction m as [|m IH]; [reflexivity|]. simpl. rewrite IH. reflexivity. }
  assert (forall k m, concat (map (fun row : UIGridRow => concat (map cellToString row))
             (repeat (repeat [] m) k)) = repeat "."%char (k * m)) as Hall.
  { induction k as [|k IH]; intros m; [reflexivity|].
    simpl. rewrite IH, Hrow, repeat_app. reflexivity. }
  apply Hall.
Qed.

Lemma UIGridToGrid_empty (n : nat) :
  UIGridToGrid (repeat (repeat [] n) n) = repeat (repeat (-1) n) n.
Proof.
  unfold UIGridToGrid.
  assert (forall m, map cellValue (repeat ([] : Cell) m) = repeat (-1) m) as Hrow.
  { induction m as [|m IH]; [reflexivity|]. simpl. rewrite IH. reflexivity. }
  assert (forall k m, map (map cellValue) (repeat (repeat ([] : Cell) m) k)
                      = repeat (repeat (-1) m) k) as Hall.
  { induction k as [|k IH]; intros m; [reflexivity|].
    simpl. rewrite IH, Hrow. reflexivity. }
  apply Hall.
Qed.

(** X1: Reset empties every cell and keeps the size of the grid: the grid
    of side N after Reset is the grid that generateGrid(N) builds, the
    solver would be handed -1 everywhere, and the string of the grid is N*N
    dots.  The status bar and the widgets are not touched. *)
Theorem reset_is_fresh_grid (w : MainWindow) (n : nat) :
  square n (grid w) ->
  grid (on_pushButtonReset_clicked w) = repeat (repeat [] n) n /\
  (wellFormed w -> validSize (Z.of_nat n) ->
     grid (on_pushButtonReset_clicked w) = grid (generateGrid w (Z.of_nat n)).2) /\
  UIGridToGrid (grid (on_pushButtonReset_clicked w)) = repeat (repeat (-1) n) n /\
  UIGridToStringGrid (grid (on_pushButtonReset_clicked w)) = repeat "."%char (n * n) /\
  statusBar (on_pushButtonReset_clicked w) = statusBar w /\
  sudokuGridWidgets (on_pushButtonReset_clicked w) = sudokuGridWidgets w.
Proof.
  intros Hsq. unfold on_pushButtonReset_clicked. cbn [grid withGrid statusBar sudokuGridWidgets].
  rewrite (resetGrid_square n _ Hsq).
  split; [reflexivity|]. split; [|split; [apply UIGridToGrid_empty|]].
  - intros Hwf [Hfour Hsquare].
    destruct (generateGrid_success w (Z.of_nat n) Hwf Hfour Hsquare) as (_ & -> & _).
    rewrite Nat2Z.id. reflexivity.
  - split; [apply UIGridToStringGrid_empty|]. split; reflexivity.
Qed.

Lemma reset_is_fresh_grid_witness :
  grid (on_pushButtonReset_clicked (withGrid window4 grid4x4)) = grid window4 /\
  UIGridToStringGrid (grid (on_pushButtonReset_clicked (withGrid window4 grid4x4)))
  = repeat "."%char 16.
Proof.
  destruct (reset_is_fresh_grid (withGrid window4 grid4x4) 4) as (H1 & _ & _ & H4 & _).
  - split; [reflexivity|repeat constructor].
  - split; [rewrite H1; reflexivity|exact H4].
Defined.

(** ** Loading a string and writing it back *)

Lemma cellToString_loadChar (c : ascii) : cellToString (loadChar c) = [shownChar c].
Proof.
  rewrite loadChar_spec. unfold shownChar.
  pose proof (digitValue_range c) as Hr.
  destruct (digitValue c <? 1) eqn:E; [reflexivity|].
  apply Z.ltb_ge in E.
  assert ([c] = number (digitValue c)) as ->.
  { rewrite number_one_digit, digitChar_digitValue by lia. reflexivity. }
  unfold cellToString. cbv zeta. rewrite cellValue_number by (unfold INT_MIN, INT_MAX; lia).
  replace (digitValue c <? 1) with false by (symmetry; apply Z.ltb_ge; lia).
  rewrite number_one_digit, digitChar_digitValue by lia. reflexivity.
Qed.

Lemma loaded_cells n (g' : UIGrid) (s : QString) :
  square n g' -> length s = (n * n)%nat ->
  (forall a b, (a < n)%nat -> (b < n)%nat ->
     cellAt g' a b = loadChar <$> s !! (a * n + b)%nat) ->
  concat g' = map loadChar s.
Proof.
  intros Hsq Hlen Hcells. apply list_eq. intros k.
  change (map loadChar s) with (loadChar <$> s). rewrite list_lookup_fmap.
  destruct (decide (k < n * n)%nat) as [Hk|Hk].
  - assert (0 < n)%nat as Hn by lia.
    pose proof (Nat.div_mod_eq k n) as Hdm.
    pose proof (Nat.mod_upper_bound k n ltac:(lia)) as Hb.
    assert (k / n < n)%nat as Ha by (apply Nat.Div0.div_lt_upper_bound; lia).
    replace k with (k / n * n + k mod n)%nat at 1 2 by lia.
    rewrite (concat_lookup n g' _ _ (proj2 Hsq) Hb). apply Hcells; assumption.
  - rewrite !lookup_ge_None_2; [reflexivity|lia|].
    rewrite (concat_square_length n g' Hsq). lia.
Qed.

Lemma export_loaded n (g' : UIGrid) (s : QString) :
  square n g' -> length s = (n * n)%nat ->
  (forall a b, (a < n)%nat -> (b < n)%nat ->
     cellAt g' a b = loadChar <$> s !! (a * n + b)%nat) ->
  UIGridToStringGrid g' = map shownChar s.
Proof.
  intros Hsq Hlen Hcells.
  rewrite UIGridToStringGrid_flat, (loaded_cells n g' s Hsq Hlen Hcells).
  rewrite map_map. apply concat_singletons.
  apply List.Forall_forall. intros c _. apply cellToString_loadChar.
Qed.



(** X3: loading a string of N*N characters writes every cell, so the grid
    it leaves does not depend on what the cells held before. *)
Theorem load_overwrites (n : nat) (g g0 : UIGrid) (s : QString) :
  square n g -> square n g0 -> length s = (n * n)%nat ->
  stringGridToUIGrid g s = stringGridToUIGrid g0 s.
Proof.
  intros Hsq Hsq0 Hlen.
  destruct (stringGridToUIGrid_exact n g s Hsq Hlen) as (g1 & -> & Hsq1 & Hc1).
  destruct (stringGridToUIGrid_exact n g0 s Hsq0 Hlen) as (g2 & -> & Hsq2 & Hc2).
  f_equal. apply (square_ext n); [assumption|assumption|].
  intros a b Ha Hb. rewrite Hc1, Hc2 by assumption. reflexivity.
Qed.

Lemma load_overwrites_witness :
  stringGridToUIGrid grid2x2 (qstr "3..4")
  = stringGridToUIGrid (repeat (repeat [] 2%nat) 2%nat) (qstr "3..4").
Proof.
  apply (load_overwrites 2).
  - apply square_grid2x2.
  - apply square_repeat.
  - reflexivity.
Defined.

(** ** The characters of the exported string *)

Lemma cellToString_chars (x : Cell) :
  Forall (fun c => c = "."%char \/ isDigit c) (cellToString x).
Proof.
  unfold cellToString. cbv zeta.
  destruct (cellValue x <? 1) eqn:E.
  - repeat constructor.
  - apply Z.ltb_ge in E. unfold number.
    replace (cellValue x <? 0) with false by (symmetry; apply Z.ltb_ge; lia).
    eapply Forall_impl; [apply number_digits_isDigit; [lia|constructor]|].
    intros c Hc. right. exact Hc.
Qed.

Lemma cellToString_one (x : Cell) :
  length (cellToString x) = 1%nat <-> cellValue x <= 9.
Proof.
  split.
  - intros Hlen. destruct (Z.le_gt_cases (cellValue x) 9) as [H|H]; [exact H|].
    pose proof (cellToString_wide x ltac:(lia)). lia.
  - intros H. unfold cellToString. cbv zeta.
    destruct (cellValue x <? 1) eqn:E; [reflexivity|].
    apply Z.ltb_ge in E. rewrite number_one_digit by lia. reflexivity.
Qed.

Lemma concat_length_eq {A B} (f : A -> list B) (l : list A) :
  (forall x, (1 <= length (f x))%nat) ->
  (length (concat (map f l)) = length l <-> Forall (fun x => length (f x) = 1%nat) l).
Proof.
  intros Hf. induction l as [|x l IH]; simpl.
  - split; [constructor|reflexivity].
  - rewrite length_app. pose proof (concat_length_ge f l Hf) as Hge. pose proof (Hf x) as Hx.
    split.
    + intros H. constructor; [lia|]. apply IH. lia.
    + intros H. apply Forall_cons in H. destruct H as [H1 H2].
      apply IH in H2. lia.
Qed.

(** X4: the string of a grid.  Whatever the cells hold,
    UIGridToStringGrid gives only dots and decimal digits, at least one
    character for a cell, and exactly one character for every cell if and only
    if no cell holds a number above 9. *)
Theorem export_characters (g : UIGrid) :
  Forall (fun c => c = "."%char \/ isDigit c) (UIGridToStringGrid g) /\
  (length (concat g) <= length (UIGridToStringGrid g))%nat /\
  (length (UIGridToStringGrid g) = length (concat g)
   <-> Forall (Forall (fun x => cellValue x <= 9)) g).
Proof.
  rewrite UIGridToStringGrid_flat. split; [|split].
  - apply Forall_concat. apply List.Forall_forall. intros s Hs.
    apply in_map_iff in Hs. destruct Hs as (x & <- & _).
    apply cellToString_chars.
  - apply concat_length_ge, cellToString_length.
  - rewrite (concat_length_eq cellToString (concat g) cellToString_length).
    rewrite Forall_concat. split; intros H; (eapply Forall_impl; [exact H|]);
      intros row Hrow; (eapply Forall_impl; [exact Hrow|]); intros x Hx;
      apply cellToString_one; exact Hx.
Qed.

(** ** Writing a grid of the solver to the cells *)

Lemma setCellAt_out n (g : UIGrid) i j v :
  square n g -> 0 <= i -> 0 <= j -> Z.of_nat n <= i \/ Z.of_nat n <= j ->
  isOk (setCellAt g i j v) = false.
Proof.
  intros Hsq Hi Hj Hout. unfold setCellAt, inRange. rewrite (size_square n g Hsq).
  destruct ((0 <=? i) && (i <? Z.of_nat n)) eqn:Ei; [|reflexivity].
  apply andb_true_iff in Ei. destruct Ei as [_ Ei]. apply Z.ltb_lt in Ei.
  destruct (square_lookup n g (Z.to_nat i) Hsq) as (row & -> & Hlen); [lia|].
  unfold size. rewrite Hlen.
  replace ((0 <=? j) && (j <? Z.of_nat n)) with false; [reflexivity|].
  symmetry. apply andb_false_iff. right. apply Z.ltb_ge. lia.
Qed.

Lemma gridToUIGrid_row_out n (row : GridRow) :
  forall (g : UIGrid) i j,
    square n g -> 0 <= i -> 0 <= j -> row <> [] ->
    Z.of_nat n <= i \/ Z.of_nat n < j + size row ->
    isOk (gridToUIGrid_row i j row g) = false.
Proof.
  induction row as [|v rest IH]; intros g i j Hsq Hi Hj Hne Hout; [congruence|].
  simpl. destruct (decide (Z.of_nat n <= i \/ Z.of_nat n <= j)) as [Hbad|Hgood].
  - pose proof (setCellAt_out n g i j v Hsq Hi Hj Hbad) as Hset.
    destruct (setCellAt g i j v); [discriminate|reflexivity].
  - destruct (setCellAt_ok n g i j v Hsq ltac:(lia) ltac:(lia)) as (g1 & -> & Hsq1 & _).
    simpl. unfold size in Hout. simpl length in Hout.
    apply IH; [exact Hsq1|lia|lia| |unfold size; lia].
    intros ->. simpl in Hout. lia.
Qed.

Lemma gridToUIGrid_row_fits n (row : GridRow) (g : UIGrid) i :
  square n g -> 0 <= i ->
  (forall b v, row !! b = Some v -> i < Z.of_nat n /\ (b < n)%nat) ->
  exists g', gridToUIGrid_row i 0 row g = Ok g' /\ square n g' /\
    forall a b, cellAt g' a b =
      if decide (a = Z.to_nat i /\ (b < length row)%nat)
      then setCellValue <$> row !! b
      else cellAt g a b.
Proof.
  intros Hsq Hi Hfit. destruct row as [|v rest].
  - exists g. split; [reflexivity|]. split; [exact Hsq|].
    intros a b. simpl. rewrite decide_False by lia. reflexivity.
  - destruct (Hfit 0%nat v eq_refl) as [Hin _].
    assert (length (v :: rest) <= n)%nat as Hlen.
    { destruct (decide (length (v :: rest) <= n)%nat) as [H|H]; [exact H|].
      destruct (lookup_lt_is_Some_2 (v :: rest) n ltac:(lia)) as [x Hx].
      destruct (Hfit n x Hx). lia. }
    destruct (gridToUIGrid_row_ok n (v :: rest) g i 0 Hsq ltac:(lia) ltac:(lia))
      as (g' & Hrun & Hsq' & Hcell); [unfold size; lia|].
    exists g'. split; [exact Hrun|]. split; [exact Hsq'|].
    intros a b. rewrite Hcell. change (Z.to_nat 0) with 0%nat. rewrite Nat.sub_0_r.
    destruct (decide (a = Z.to_nat i /\ (b < length (v :: rest))%nat)).
    + rewrite decide_True by lia. reflexivity.
    + rewrite decide_False by lia. reflexivity.
Qed.

Lemma gridToUIGrid_rows_fits n (sudoku : Grid) :
  forall (g : UIGrid) i,
    square n g -> 0 <= i ->
    (forall a b v, cellAt sudoku a b = Some v ->
       i + Z.of_nat a < Z.of_nat n /\ (b < n)%nat) ->
    exists g', gridToUIGrid_rows i sudoku g = Ok g' /\ square n g' /\
      forall a b, cellAt g' a b =
        if decide (Z.to_nat i <= a)%nat
        then match cellAt sudoku (a - Z.to_nat i) b with
             | Some v => Some (setCellValue v)
             | None => cellAt g a b
             end
        else cellAt g a b.
Proof.
  induction sudoku as [|row rest IH]; intros g i Hsq Hi Hfit.
  - exists g. split; [reflexivity|]. split; [exact Hsq|].
    intros a b. unfold cellAt at 1. simpl. case_decide; reflexivity.
  - destruct (gridToUIGrid_row_fits n row g i Hsq Hi) as (g1 & Hrun1 & Hsq1 & Hcell1).
    { intros b v Hb. destruct (Hfit 0%nat b v Hb). lia. }
    destruct (IH g1 (i + 1) Hsq1 ltac:(lia)) as (g' & Hrun & Hsq' & Hcell').
    { intros a b v Hab. destruct (Hfit (S a) b v Hab). lia. }
    exists g'. simpl. rewrite Hrun1. simpl. split; [exact Hrun|]. split; [exact Hsq'|].
    intros a b. rewrite Hcell', Hcell1.
    destruct (decide (a = Z.to_nat i)) as [->|Ha].
    + rewrite (decide_False (P := (Z.to_nat (i + 1) <= Z.to_nat i)%nat)) by lia.
      rewrite (decide_True (P := (Z.to_nat i <= Z.to_nat i)%nat)) by lia.
      rewrite Nat.sub_diag. change (cellAt (row :: rest) 0 b) with (row !! b).
      destruct (decide (b < length row)%nat) as [Hb|Hb].
      * rewrite decide_True by auto. destruct (lookup_lt_is_Some_2 row b Hb) as [x ->].
        reflexivity.
      * rewrite decide_False by tauto. rewrite lookup_ge_None_2 by lia. reflexivity.
    + rewrite (decide_False (P := a = Z.to_nat i /\ _)) by tauto.
      destruct (decide (Z.to_nat (i + 1) <= a)%nat).
      * rewrite decide_True by lia.
        replace (a - Z.to_nat i)%nat with (S (a - Z.to_nat (i + 1))) by lia.
        reflexivity.
      * rewrite decide_False by lia. reflexivity.
Qed.

Lemma setCellAt_square n (g g' : UIGrid) i j v :
  square n g -> setCellAt g i j v = Ok g' -> square n g'.
Proof.
  intros Hsq Hset.
  destruct (decide (0 <= i < Z.of_nat n /\ 0 <= j < Z.of_nat n)) as [[Hi Hj]|Hout].
  - destruct (setCellAt_ok n g i j v Hsq Hi Hj) as (g1 & Hset1 & Hsq1 & _). congruence.
  - exfalso. unfold setCellAt, inRange in Hset. rewrite (size_square n g Hsq) in Hset.
    destruct ((0 <=? i) && (i <? Z.of_nat n)) eqn:Ei; [|discriminate].
    apply andb_true_iff in Ei. destruct Ei as [Ei1 Ei2].
    apply Z.leb_le in Ei1. apply Z.ltb_lt in Ei2.
    destruct (square_lookup n g (Z.to_nat i) Hsq) as (row & Hrow & Hlen); [lia|].
    rewrite Hrow in Hset. unfold size in Hset. rewrite Hlen in Hset.
    destruct ((0 <=? j) && (j <? Z.of_nat n)) eqn:Ej; [|discriminate].
    apply andb_true_iff in Ej. destruct Ej as [Ej1 Ej2].
    apply Z.leb_le in Ej1. apply Z.ltb_lt in Ej2. lia.
Qed.

Lemma gridToUIGrid_row_square n (row : GridRow) :
  forall (g g' : UIGrid) i j,
    square n g -> gridToUIGrid_row i j row g = Ok g' -> square n g'.
Proof.
  induction row as [|v rest IH]; intros g g' i j Hsq Hrun; simpl in Hrun.
  - congruence.
  - destruct (setCellAt g i j v) as [g1|] eqn:Hset; [|discriminate].
    simpl in Hrun. eapply IH; [|exact Hrun]. eapply setCellAt_square; eauto.
Qed.

Lemma gridToUIGrid_rows_out n (sudoku : Grid) :
  forall (g : UIGrid) i a b v,
    square n g -> 0 <= i -> cellAt sudoku a b = Some v ->
    Z.of_nat n <= i + Z.of_nat a \/ (n <= b)%nat ->
    isOk (gridToUIGrid_rows i sudoku g) = false.
Proof.
  induction sudoku as [|row rest IH]; intros g i a b v Hsq Hi Hcell Hout.
  - unfold cellAt in Hcell. simpl in Hcell. discriminate.
  - simpl. destruct (gridToUIGrid_row i 0 row g) as [g1|] eqn:Hrun; [|reflexivity].
    simpl. destruct a as [|a].
    + exfalso. unfold cellAt in Hcell. simpl in Hcell.
      pose proof (lookup_lt_Some _ _ _ Hcell) as Hb.
      assert (isOk (gridToUIGrid_row i 0 row g) = false) as Hbad.
      { apply (gridToUIGrid_row_out n); [exact Hsq|exact Hi|lia| |unfold size; lia].
        intros ->. simpl in Hb. lia. }
      rewrite Hrun in Hbad. discriminate.
    + apply (IH g1 (i + 1) a b v); [|lia|exact Hcell|lia].
      eapply gridToUIGrid_row_square; eauto.
Qed.

(** X5: the bounds of gridToUIGrid.  On a grid of side N the call reaches
    its end exactly when every cell of the solver's grid lies inside the N
    by N cells; one cell further right or further down makes grid.at(i).at(j)
    leave its range.  When it reaches its end, the cells the solver's grid
    covers hold its values and every other cell is empty, whatever it held
    before. *)
Theorem gridToUIGrid_bounds (n : nat) (g : UIGrid) (sudoku : Grid) :
  square n g ->
  (isOk (gridToUIGrid g sudoku) = true <->
   forall a b v, cellAt sudoku a b = Some v -> (a < n)%nat /\ (b < n)%nat) /\
  (forall g', gridToUIGrid g sudoku = Ok g' ->
     square n g' /\
     forall a b, (a < n)%nat -> (b < n)%nat ->
       cellAt g' a b = Some (match cellAt sudoku a b with
                             | Some v => setCellValue v
                             | None => []
                             end)).
Proof.
  intros Hsq.
  assert (square n (resetGrid g)) as Hsq0 by (apply square_map, Hsq).
  assert ((forall a b v, cellAt sudoku a b = Some v -> (a < n)%nat /\ (b < n)%nat) ->
          exists g', gridToUIGrid g sudoku = Ok g' /\ square n g' /\
            forall a b, (a < n)%nat -> (b < n)%nat ->
              cellAt g' a b = Some (match cellAt sudoku a b with
                                    | Some v => setCellValue v
                                    | None => []
                                    end)) as Hfits.
  { intros Hin. unfold gridToUIGrid.
    destruct (gridToUIGrid_rows_fits n sudoku (resetGrid g) 0 Hsq0 ltac:(lia))
      as (g' & Hrun & Hsq' & Hcell).
    { intros a b v Hab. destruct (Hin a b v Hab). lia. }
    exists g'. split; [exact Hrun|]. split; [exact Hsq'|].
    intros a b Ha Hb. rewrite Hcell. change (Z.to_nat 0) with 0%nat.
    rewrite decide_True by lia. rewrite Nat.sub_0_r.
    destruct (cellAt sudoku a b); [reflexivity|].
    unfold resetGrid. rewrite cell_map.
    destruct (cell_is_Some n g a b Hsq Ha Hb) as [x ->]. reflexivity. }
  assert (isOk (gridToUIGrid g sudoku) = true ->
          forall a b v, cellAt sudoku a b = Some v -> (a < n)%nat /\ (b < n)%nat) as Hback.
  { intros Hok a b v Hab.
    destruct (decide ((a < n)%nat /\ (b < n)%nat)) as [H|H]; [exact H|].
    exfalso. unfold gridToUIGrid in Hok.
    rewrite (gridToUIGrid_rows_out n sudoku (resetGrid g) 0 a b v Hsq0) in Hok;
      [discriminate|lia|exact Hab|lia]. }
  split.
  - split; [exact Hback|].
    intros Hin. destruct (Hfits Hin) as (g' & -> & _). reflexivity.
  - intros g' Hrun. destruct Hfits as (g1 & Hrun1 & Hsq1 & Hcell1).
    { apply Hback. rewrite Hrun. reflexivity. }
    assert (g1 = g') as <- by congruence. split; assumption.
Qed.

Lemma gridToUIGrid_bounds_witness :
  isOk (gridToUIGrid grid2x2 [[5]]) = true /\
  isOk (gridToUIGrid grid2x2 [[1; 2; 1]]) = false /\
  gridToUIGrid grid2x2 [[5]] = Ok [[qstr "5"; []]; [[]; []]].
Proof.
  destruct (gridToUIGrid_bounds 2 grid2x2 [[5]] square_grid2x2) as [Hok _].
  destruct (gridToUIGrid_bounds 2 grid2x2 [[1; 2; 1]] square_grid2x2) as [Hbad _].
  split; [|split].
  - apply Hok. intros [|a] [|b] v H; vm_compute in H; try discriminate. lia.
  - destruct (isOk (gridToUIGrid grid2x2 [[1; 2; 1]])) eqn:E; [|reflexivity].
    destruct (proj1 Hbad eq_refl 0%nat 2%nat 1 eq_refl). lia.
  - reflexivity.
Defined.

(** ** Values written and read back *)

(** X6: the two conversions between the cells and the solver's grid, one
    after the other.  Reading the cells after a grid of the window's size was
    written gives that grid with every value below 1 replaced by -1; writing
    what was read from the cells rewrites every cell as its number, and leaves
    the cells as they are when each is empty or holds a number written as
    QString::number writes it. *)
Theorem grid_write_read (n : nat) (g0 g : UIGrid) (sudoku : Grid) :
  square n g0 ->
  (square n sudoku -> Forall (Forall (fun v => v <= INT_MAX)) sudoku ->
     exists g', gridToUIGrid g0 sudoku = Ok g' /\
       UIGridToGrid g' = map (map shownValue) sudoku) /\
  (square n g ->
     gridToUIGrid g0 (UIGridToGrid g)
     = Ok (map (map (fun x => setCellValue (cellValue x))) g) /\
     (Forall (Forall canonical) g -> gridToUIGrid g0 (UIGridToGrid g) = Ok g)).
Proof.
  intros Hsq0. split.
  - intros Hsq Hmax. exists (map (map setCellValue) sudoku).
    split; [apply (gridToUIGrid_ok n); assumption|].
    unfold UIGridToGrid. rewrite map_map.
    apply map_ext_Forall. eapply Forall_impl; [exact Hmax|].
    intros row Hrow. rewrite map_map. apply map_ext_Forall.
    eapply Forall_impl; [exact Hrow|]. intros v Hv. simpl.
    rewrite cellValue_setCellValue by exact Hv. reflexivity.
  - intros Hsq.
    assert (gridToUIGrid g0 (UIGridToGrid g)
            = Ok (map (map (fun x => setCellValue (cellValue x))) g)) as Hrun.
    { rewrite (gridToUIGrid_ok n) by (try apply square_map; assumption).
      unfold UIGridToGrid. rewrite map_map. f_equal. apply map_ext. intros row.
      rewrite map_map. reflexivity. }
    split; [exact Hrun|]. intros Hcan. rewrite Hrun. f_equal.
    rewrite <- (map_id g) at 2. apply map_ext_Forall.
    eapply Forall_impl; [exact Hcan|]. intros row Hrow.
    rewrite <- (map_id row) at 2. apply map_ext_Forall.
    eapply Forall_impl; [exact Hrow|]. intros x Hx. simpl. symmetry. exact Hx.
Qed.

Lemma grid_write_read_witness :
  (exists g', gridToUIGrid grid2x2 [[0; 2]; [-1; 1]] = Ok g' /\
     UIGridToGrid g' = [[-1; 2]; [-1; 1]]) /\
  gridToUIGrid grid2x2 (UIGridToGrid grid2x2) = Ok grid2x2.
Proof.
  destruct (grid_write_read 2 grid2x2 grid2x2 [[0; 2]; [-1; 1]] square_grid2x2) as [H1 H2].
  split.
  - apply H1; [split; [reflexivity|repeat constructor]|].
    repeat constructor; unfold INT_MAX; lia.
  - apply H2; [apply square_grid2x2|]. repeat constructor.
Defined.

Lemma cellToString_setCellValue (v : Z) :
  v <= INT_MAX ->
  cellToString (setCellValue v) = if v <? 1 then qstr "." else number v.
Proof.
  intros Hv. unfold cellToString. cbv zeta. rewrite cellValue_setCellValue by exact Hv.
  destruct (v <? 1) eqn:E; [reflexivity|]. cbv iota. rewrite E. reflexivity.
Qed.

(** X7: the string of a solution.  After a grid of the window's size was
    written with gridToUIGrid, UIGridToStringGrid gives the decimal numbers of
    its values one after the other, a dot standing for a value below 1: one
    digit for each cell when the values are between 1 and 9, and more than one
    character for each value above 9. *)
Theorem solution_string (n : nat) (g0 : UIGrid) (sudoku : Grid) :
  square n g0 -> square n sudoku ->
  Forall (Forall (fun v => v <= INT_MAX)) sudoku ->
  exists g', gridToUIGrid g0 sudoku = Ok g' /\
    UIGridToStringGrid g'
    = concat (map (fun v => if v <? 1 then qstr "." else number v) (concat sudoku)) /\
    (Forall (Forall (fun v => 1 <= v <= 9)) sudoku ->
     UIGridToStringGrid g' = map digitChar (concat sudoku)).
Proof.
  intros Hsq0 Hsq Hmax. exists (map (map setCellValue) sudoku).
  split; [apply (gridToUIGrid_ok n); assumption|].
  assert (UIGridToStringGrid (map (map setCellValue) sudoku)
          = concat (map (fun v => if v <? 1 then qstr "." else number v) (concat sudoku)))
    as Hstr.
  { rewrite UIGridToStringGrid_flat, <- concat_map, map_map. f_equal.
    apply map_ext_Forall. apply Forall_concat.
    eapply Forall_impl; [exact Hmax|]. intros row Hrow.
    eapply Forall_impl; [exact Hrow|]. intros v Hv. simpl.
    apply cellToString_setCellValue, Hv. }
  split; [exact Hstr|]. intros Hdigits. rewrite Hstr.
  apply concat_singletons. apply Forall_concat.
  eapply Forall_impl; [exact Hdigits|]. intros row Hrow.
  eapply Forall_impl; [exact Hrow|]. intros v Hv. cbv beta in Hv |- *.
  replace (v <? 1) with false by (symmetry; apply Z.ltb_ge; lia).
  apply number_one_digit. lia.
Qed.

Lemma solution_string_witness :
  exists g', gridToUIGrid grid2x2 [[12; 0]; [3; 4]] = Ok g' /\
    UIGridToStringGrid g' = qstr "12.34".
Proof.
  destruct (solution_string 2 grid2x2 [[12; 0]; [3; 4]] square_grid2x2)
    as (g' & Hrun & Hstr & _).
  - split; [reflexivity|repeat constructor].
  - repeat constructor; unfold INT_MAX; lia.
  - exists g'. split; [exact Hrun|exact Hstr].
Defined.

(** ** Editing a cell *)

Lemma fixCell_value (n : Z) (x : Cell) :
  1 <= n <= INT_MAX ->
  cellValue (fixCell n x) <> 0 /\ cellValue (fixCell n x) <= n.
Proof.
  intros Hn. unfold fixCell. cbv zeta.
  destruct (cellValue x >? n) eqn:Ehigh.
  - rewrite cellValue_number by (unfold INT_MIN; lia). lia.
  - rewrite Z.gtb_ltb in Ehigh. apply Z.ltb_ge in Ehigh.
    destruct (cellValue x =? 0) eqn:Ezero.
    + change (cellValue (qstr "1")) with 1. lia.
    + apply Z.eqb_neq in Ezero. lia.
Qed.

Lemma fixCell_keeps (n : Z) (x : Cell) :
  cellValue x <> 0 -> cellValue x <= n -> fixCell n x = x.
Proof.
  intros Hzero Hhigh. unfold fixCell. cbv zeta.
  replace (cellValue x >? n) with false by (rewrite Z.gtb_ltb; symmetry; apply Z.ltb_ge; lia).
  replace (cellValue x =? 0) with false by (symmetry; apply Z.eqb_neq; exact Hzero).
  reflexivity.
Qed.

Lemma fixCell_empty (n : Z) : 0 <= n -> fixCell n [] = [].
Proof. intros Hn. apply fixCell_keeps; rewrite cellValue_empty; lia. Qed.

Lemma onCellTextEdited_invalid (w : MainWindow) (n : nat) (text : QString) :
  square n (grid w) -> toInt text < 1 \/ Z.of_nat n < toInt text ->
  onCellTextEdited w text = withGrid w (map (map (fixCell (Z.of_nat n))) (grid w)).
Proof.
  intros Hsq Hbad. unfold onCellTextEdited. cbv zeta. rewrite (size_square n _ Hsq).
  replace ((toInt text <? 1) || (toInt text >? Z.of_nat n)) with true; [reflexivity|].
  symmetry. apply orb_true_iff. rewrite Z.gtb_ltb, !Z.ltb_lt. lia.
Qed.

Lemma repaired_cells (w : MainWindow) (n : nat) (text : QString) :
  square n (grid w) -> Z.of_nat n <= INT_MAX ->
  toInt text < 1 \/ Z.of_nat n < toInt text ->
  square n (grid (onCellTextEdited w text)) /\
  Forall (Forall (fun x => cellValue x <> 0 /\ cellValue x <= Z.of_nat n))
    (grid (onCellTextEdited w text)).
Proof.
  intros Hsq Hmax Hbad. rewrite (onCellTextEdited_invalid w n text Hsq Hbad).
  cbn [grid withGrid]. split; [apply square_map, Hsq|].
  destruct (decide (n = 0%nat)) as [->|Hn].
  { destruct Hsq as [Hlen _]. destruct (grid w); [constructor|discriminate]. }
  apply Forall_fmap, Forall_true. intros row.
  apply Forall_fmap, Forall_true. intros x. simpl. apply fixCell_value. lia.
Qed.



Lemma withGrid_same (w : MainWindow) : withGrid w (grid w) = w.
Proof. destruct w. reflexivity. Qed.

Lemma map_map_id {A} (f : A -> A) (g : list (list A)) :
  Forall (Forall (fun x => f x = x)) g -> map (map f) g = g.
Proof.
  intros H. rewrite <- (map_id g) at 2. apply map_ext_Forall.
  eapply Forall_impl; [exact H|]. intros row Hrow.
  rewrite <- (map_id row) at 2. apply map_ext_Forall. exact Hrow.
Qed.

(** X9: onCellTextEdited settles.  Whatever text is edited, a valid grid
    is left exactly as it is; and once an edit outside 1..N has triggered the
    repair, a further edit of any text changes nothing more. *)
Theorem onCellTextEdited_settles (w : MainWindow) (n : nat) (text text' : QString) :
  square n (grid w) -> Z.of_nat n <= INT_MAX ->
  (validGrid n (grid w) -> onCellTextEdited w text = w) /\
  (toInt text < 1 \/ Z.of_nat n < toInt text ->
   onCellTextEdited (onCellTextEdited w text) text' = onCellTextEdited w text).
Proof.
  intros Hsq Hmax.
  assert (forall v : MainWindow, square n (grid v) ->
            Forall (Forall (fun x => cellValue x <> 0 /\ cellValue x <= Z.of_nat n)) (grid v) ->
            forall t, onCellTextEdited v t = v) as Hfixed.
  { intros v Hv Hgood t. unfold onCellTextEdited. cbv zeta.
    rewrite (size_square n _ Hv).
    destruct ((toInt t <? 1) || (toInt t >? Z.of_nat n)); [|reflexivity].
    rewrite map_map_id; [apply withGrid_same|].
    eapply Forall_impl; [exact Hgood|]. intros row Hrow.
    eapply Forall_impl; [exact Hrow|]. intros x [H1 H2]. simpl.
    apply fixCell_keeps; assumption. }
  split.
  - intros [_ Hvalid]. apply Hfixed; [exact Hsq|].
    eapply Forall_impl; [exact Hvalid|]. intros row Hrow.
    eapply Forall_impl; [exact Hrow|]. intros x [->|Hx]; simpl.
    + rewrite cellValue_empty. lia.
    + lia.
  - intros Hbad.
    destruct (repaired_cells w n text Hsq Hmax Hbad) as [Hsq' Hgood].
    apply Hfixed; assumption.
Qed.

Lemma onCellTextEdited_settles_witness :
  onCellTextEdited (withGrid window4 grid4x4) (qstr "0") = withGrid window4 grid4x4 /\
  onCellTextEdited
    (onCellTextEdited (withGrid newWindow [[qstr "0"; qstr "7"]; [[]; qstr "2"]]) (qstr "7"))
    (qstr "x")
  = onCellTextEdited (withGrid newWindow [[qstr "0"; qstr "7"]; [[]; qstr "2"]]) (qstr "7").
Proof.
  split.
  - destruct (onCellTextEdited_settles (withGrid window4 grid4x4) 4 (qstr "0") []) as [H _].
    + split; [reflexivity|repeat constructor].
    + unfold INT_MAX. lia.
    + apply H. exact validGrid_grid4x4.
  - destruct (onCellTextEdited_settles
                (withGrid newWindow [[qstr "0"; qstr "7"]; [[]; qstr "2"]]) 2
                (qstr "7") (qstr "x")) as [_ H].
    + split; [reflexivity|repeat constructor].
    + unfold INT_MAX. lia.
    + apply H. right. vm_compute. reflexivity.
Defined.

(** ** The Solve button *)

(** X10: the Solve button with a solver that answers with grids of the size
    it was given.  The click never leaves the grid's range.  Without a
    solution the cells stay as they are and the status bar says so; with one,
    every cell holds the solver's value and the status bar names the measured
    time.  The value the uninitialised local holds is never looked at. *)
Theorem solve_button (dlx : DLX) {double : Type} (dnumber : double -> QString)
    (w : MainWindow) (n : nat) (bench elapsed : double) :
  square n (grid w) -> shapeKeeping dlx ->
  exists w', on_pushButtonSolve_clicked dlx dnumber w bench elapsed = Ok w' /\
    sudokuGridWidgets w' = sudokuGridWidgets w /\
    (dlx_solve dlx (UIGridToGrid (grid w)) = false ->
       grid w' = grid w /\ statusBar w' = qstr "No solution!") /\
    (dlx_solve dlx (UIGridToGrid (grid w)) = true ->
       grid w' = map (map setCellValue) (dlx_solution dlx (UIGridToGrid (grid w))) /\
       statusBar w' = qstr "Solved in " ++ dnumber elapsed ++ qstr " milliseconds!") /\
    (forall bench2 : double,
       on_pushButtonSolve_clicked dlx dnumber w bench2 elapsed = Ok w').
Proof.
  intros Hsq Hshape. unfold on_pushButtonSolve_clicked.
  destruct (dlx_solve dlx (UIGridToGrid (grid w))) eqn:Hsolved.
  - assert (square n (dlx_solution dlx (UIGridToGrid (grid w)))) as Hsol.
    { apply Hshape; [apply square_map, Hsq|exact Hsolved]. }
    pose proof (gridToUIGrid_ok n (grid w) _ Hsq Hsol) as Hwrite.
    eexists. split.
    { rewrite (solveGrid_solved dlx w bench elapsed _ Hsolved Hwrite). reflexivity. }
    split; [reflexivity|]. split; [discriminate|]. split; [intros _; split; reflexivity|].
    intros bench2.
    rewrite (solveGrid_solved dlx w bench2 elapsed _ Hsolved Hwrite). reflexivity.
  - eexists. split.
    { rewrite (solveGrid_unsolved dlx w bench elapsed Hsolved). reflexivity. }
    split; [reflexivity|]. split; [intros _; split; reflexivity|]. split; [discriminate|].
    intros bench2. rewrite (solveGrid_unsolved dlx w bench2 elapsed Hsolved). reflexivity.
Qed.

Lemma solve_button_witness :
  exists w',
    on_pushButtonSolve_clicked (mkDLX (fun _ => true) (map (map Z.abs)))
      (fun ms : Z => number ms) (withGrid window4 grid4x4) 0 7 = Ok w' /\
    statusBar w' = qstr "Solved in 7 milliseconds!" /\
    cellAt (grid w') 0 1 = Some (qstr "1").
Proof.
  destruct (solve_button (mkDLX (fun _ => true) (map (map Z.abs)))
              (fun ms : Z => number ms) (withGrid window4 grid4x4) 4 0 7)
    as (w' & Hrun & _ & _ & Hsolved & _).
  - split; [reflexivity|repeat constructor].
  - intros m G HG _. apply square_map, HG.
  - exists w'. split; [exact Hrun|].
    destruct (Hsolved eq_refl) as [Hgrid Hbar].
    split; [exact Hbar|]. rewrite Hgrid. reflexivity.
Defined.

(** ** One test of the harness *)

(** X11: the books runTest keeps.  A test that ends adds the measured
    time to the sum when the solver found a solution and 0.0 when it did not;
    allPassed keeps its value when the test passes and is false otherwise, so
    it never turns true again; the test fails exactly when the solver's
    answer disagrees with an expected none, and it is wrong exactly when a
    solution was found, the expected string is neither none nor any, and the
    string of the grid differs from it. *)
Theorem runTest_accounting (dlx : DLX) {double : Type} (dzero : double)
    (dadd : double -> double -> double) (w : MainWindow)
    (title input expected : QString) (benchSum0 : double) (allPassed0 : bool)
    (elapsed : double) (r : TestRun double) :
  runTest dlx dzero dadd w (title, input, expected) benchSum0 allPassed0 elapsed = Ok r ->
  exists g, stringGridToUIGrid (grid w) input = Ok g /\
    benchSum r = dadd benchSum0 (if dlx_solve dlx (UIGridToGrid g) then elapsed else dzero) /\
    allPassed r = match verdict r with Passed => allPassed0 | _ => false end /\
    (verdict r = Failed <->
     dlx_solve dlx (UIGridToGrid g) = bool_decide (expected = qstr "none")) /\
    (verdict r = Wrong <->
     dlx_solve dlx (UIGridToGrid g) = true /\ expected <> qstr "none" /\
     expected <> qstr "any" /\ UIGridToStringGrid (grid (window r)) <> expected) /\
    (dlx_solve dlx (UIGridToGrid g) = false -> window r = withGrid w g).
Proof.
  intros Hrun. unfold runTest in Hrun.
  destruct (stringGridToUIGrid (grid w) input) as [g|] eqn:Hload; [|discriminate].
  exists g. split; [reflexivity|].
  cbn [bind] in Hrun. unfold solveGrid in Hrun. cbn [grid withGrid] in Hrun.
  destruct (bool_decide (expected = qstr "none")) eqn:Hnone;
    [apply bool_decide_eq_true in Hnone|apply bool_decide_eq_false in Hnone];
    (destruct (dlx_solve dlx (UIGridToGrid g)) eqn:Hsolved;
     [destruct (gridToUIGrid g (dlx_solution dlx (UIGridToGrid g))) as [g'|] eqn:Hwrite;
        [|discriminate]|]);
    cbn [bind andb orb negb grid withGrid] in Hrun; rewrite ?orb_true_r in Hrun.
  - injection Hrun as <-. cbn [verdict benchSum allPassed window].
    repeat split; try discriminate; try tauto.
  - injection Hrun as <-. cbn [verdict benchSum allPassed window].
    repeat split; try discriminate; try tauto.
  - destruct (bool_decide (UIGridToStringGrid g' = expected)) eqn:Hsame;
      [apply bool_decide_eq_true in Hsame|apply bool_decide_eq_false in Hsame];
      (destruct (bool_decide (expected = qstr "any")) eqn:Hany;
       [apply bool_decide_eq_true in Hany|apply bool_decide_eq_false in Hany]);
      cbn [andb orb negb] in Hrun; injection Hrun as <-;
      cbn [verdict benchSum allPassed window grid withGrid];
      repeat split; try discriminate; try tauto.
  - injection Hrun as <-. cbn [verdict benchSum allPassed window].
    repeat split; try discriminate; try tauto.
    intros [H _]. discriminate.
Qed.

Lemma runTest_accounting_witness :
  exists r,
    runTest (constDLX false []) 0 Z.add window4
      (qstr "Unsolvable", qstr "11..............", qstr "none") 3 true 5 = Ok r /\
    benchSum r = 3 /\ allPassed r = true /\ verdict r = Passed.
Proof.
  eexists. split; [vm_compute; reflexivity|].
  destruct (runTest_accounting (constDLX false []) 0 Z.add window4
              (qstr "Unsolvable") (qstr "11..............") (qstr "none") 3 true 5 _ eq_refl)
    as (g & _ & Hsum & Hall & _).
  split; [exact Hsum|]. split; [exact Hall|reflexivity].
Defined.

(** ** The self-tests and the constructor *)

Lemma runTest_total (dlx : DLX) {double : Type} (dzero : double)
    (dadd : double -> double -> double) (w : MainWindow) (n : nat)
    (title input expected : QString) (benchSum0 : double) (allPassed0 : bool)
    (elapsed : double) :
  square n (grid w) -> length input = (n * n)%nat -> shapeKeeping dlx ->
  exists r,
    runTest dlx dzero dadd w (title, input, expected) benchSum0 allPassed0 elapsed = Ok r /\
    square n (grid (window r)) /\
    sudokuGridWidgets (window r) = sudokuGridWidgets w /\
    statusBar (window r) = statusBar w /\
    allPassed r = allPassed0 && isPassed (verdict r).
Proof.
  intros Hsq Hlen Hshape.
  destruct (stringGridToUIGrid_exact n (grid w) input Hsq Hlen) as (g & Hload & Hg & _).
  unfold runTest. rewrite Hload. cbn [bind]. unfold solveGrid. cbn [grid withGrid].
  destruct (dlx_solve dlx (UIGridToGrid g)) eqn:Hsolved.
  - assert (square n (dlx_solution dlx (UIGridToGrid g))) as Hsol.
    { apply Hshape; [apply square_map, Hg|exact Hsolved]. }
    rewrite (gridToUIGrid_ok n g _ Hg Hsol). cbn [bind].
    match goal with
    | |- context [if ?c then (if ?d then _ else _) else _] => destruct c; [destruct d|]
    end;
      (eexists; split; [reflexivity|]);
      cbn [window verdict allPassed grid withGrid sudokuGridWidgets statusBar isPassed];
      rewrite ?andb_true_r, ?andb_false_r;
      (split; [apply square_map, Hsol|]); repeat split.
  - cbn [bind].
    match goal with
    | |- context [if ?c then (if ?d then _ else _) else _] => destruct c; [destruct d|]
    end;
      (eexists; split; [reflexivity|]);
      cbn [window verdict allPassed grid withGrid sudokuGridWidgets statusBar isPassed];
      rewrite ?andb_true_r, ?andb_false_r;
      (split; [exact Hg|]); repeat split.
Qed.

Lemma runTestsLoop_total (dlx : DLX) {double : Type} (dzero : double)
    (dadd : double -> double -> double) (clock : nat -> double) (n : nat)
    (tests : list (QString * QString * QString)) :
  Forall (fun t => length t.1.2 = (n * n)%nat) tests -> shapeKeeping dlx ->
  forall k w benchSum0 allPassed0 log, square n (grid w) ->
    exists r,
      runTestsLoop dlx dzero dadd clock tests k w benchSum0 allPassed0 log = Ok r /\
      (exists vs, verdicts r = log ++ vs /\ length vs = length tests /\
                  allPassedAll r = allPassed0 && forallb isPassed vs) /\
      sudokuGridWidgets (windowAfter r) = sudokuGridWidgets w /\
      statusBar (windowAfter r) = statusBar w /\
      (tests <> [] -> grid (windowAfter r) = repeat (repeat [] n) n).
Proof.
  intros Hlens Hshape. induction Hlens as [|[[title input] expected] rest Hlen Hrest IH];
    intros k w benchSum0 allPassed0 log Hsq.
  - eexists. split; [reflexivity|]. cbn [verdicts allPassedAll windowAfter].
    split; [exists []; rewrite app_nil_r, andb_true_r; auto|].
    split; [reflexivity|]. split; [reflexivity|congruence].
  - cbn [fst snd] in Hlen.
    destruct (runTest_total dlx dzero dadd w n title input expected benchSum0 allPassed0
                (clock k) Hsq Hlen Hshape) as (r1 & Hrun1 & Hsq1 & Hwid1 & Hbar1 & Hall1).
    cbn [runTestsLoop]. rewrite Hrun1. cbn [bind].
    assert (grid (withGrid (window r1) (resetGrid (grid (window r1))))
            = repeat (repeat [] n) n) as Hreset.
    { cbn [grid withGrid]. apply resetGrid_square, Hsq1. }
    destruct (IH (S k) (withGrid (window r1) (resetGrid (grid (window r1))))
                (benchSum r1) (allPassed r1)
                (log ++ [verdict r1])) as (r & Hrun & (vs & Hvs & Hvlen & Hall) & Hwid & Hbar & Hgrid).
    { rewrite Hreset. apply square_repeat. }
    exists r. split; [exact Hrun|]. split; [|split; [|split]].
    + exists (verdict r1 :: vs). rewrite Hvs, <- app_assoc. split; [reflexivity|].
      split; [simpl; lia|]. rewrite Hall, Hall1. cbn [forallb]. symmetry. apply andb_assoc.
    + rewrite Hwid. exact Hwid1.
    + rewrite Hbar. exact Hbar1.
    + intros _. destruct rest as [|t rest'].
      * cbn [runTestsLoop] in Hrun. injection Hrun as <-. exact Hreset.
      * apply Hgrid. discriminate.
Qed.

Lemma tests9x9_lengths : Forall (fun t => length t.1.2 = (9 * 9)%nat) tests9x9.
Proof. repeat (apply List.Forall_cons; [reflexivity|]). apply List.Forall_nil. Qed.

Lemma tests16x16_lengths : Forall (fun t => length t.1.2 = (16 * 16)%nat) tests16x16.
Proof. repeat (apply List.Forall_cons; [reflexivity|]). apply List.Forall_nil. Qed.

Lemma runTests_total (dlx : DLX) {double : Type} (dzero : double)
    (dadd : double -> double -> double) (clock : nat -> double) (w : MainWindow) :
  wellFormed w -> shapeKeeping dlx ->
  exists r, runTests dlx dzero dadd clock w = Ok r /\
    length (verdicts r) = (length tests9x9 + length tests16x16)%nat /\
    allPassedAll r = forallb isPassed (verdicts r) /\
    grid (windowAfter r) = repeat (repeat [] 16%nat) 16%nat /\
    sudokuGridWidgets (windowAfter r) <> [] /\
    statusBar (windowAfter r) = statusBar w.
Proof.
  intros Hwf Hshape. unfold runTests. cbv zeta.
  destruct (generateGrid_success w 9 Hwf ltac:(lia) ltac:(exists 3; reflexivity))
    as (_ & Hgrid9 & Hwid9 & Hbar9).
  destruct (runTestsLoop_total dlx dzero dadd clock 9 tests9x9 tests9x9_lengths Hshape
              0%nat (generateGrid w 9).2 dzero true [])
    as (r9 & Hrun9 & (vs9 & Hvs9 & Hlen9 & Hall9) & Hwid9' & Hbar9' & _).
  { rewrite Hgrid9. apply (square_repeat 9). }
  rewrite Hrun9. cbn [bind].
  assert (wellFormed (windowAfter r9)) as Hwf9.
  { intros Hnil. rewrite Hwid9' in Hnil. contradiction. }
  destruct (generateGrid_success (windowAfter r9) 16 Hwf9 ltac:(lia)
              ltac:(exists 4; reflexivity)) as (_ & Hgrid16 & Hwid16 & Hbar16).
  destruct (runTestsLoop_total dlx dzero dadd clock 16 tests16x16 tests16x16_lengths Hshape
              (length tests9x9) (generateGrid (windowAfter r9) 16).2
              (benchTotal r9) (allPassedAll r9) (verdicts r9))
    as (r & Hrun & (vs & Hvs & Hlen & Hall) & Hwid & Hbar & Hgrid).
  { rewrite Hgrid16. apply (square_repeat 16). }
  exists r. split; [exact Hrun|]. split; [|split; [|split; [|split]]].
  - rewrite Hvs, Hvs9, !length_app, Hlen, Hlen9. reflexivity.
  - rewrite Hall, Hall9, Hvs, Hvs9. cbn [app]. rewrite forallb_app. reflexivity.
  - apply Hgrid. discriminate.
  - rewrite Hwid. exact Hwid16.
  - rewrite Hbar, Hbar16, Hbar9', Hbar9. reflexivity.
Qed.

(** X12: the self-tests with a solver that answers with grids of the size
    it was given.  runTests reaches its end without leaving the grid's range:
    every input of the 9x9 tests has 81 characters and every input of the
    16x16 tests has 256.  It gives one verdict for each of the 31 tests,
    allPassed is true exactly when every verdict is a pass, and it leaves an
    empty 16x16 grid and the status bar as it was. *)
Theorem runTests_completes (dlx : DLX) {double : Type} (dzero : double)
    (dadd : double -> double -> double) (clock : nat -> double) (w : MainWindow) :
  wellFormed w -> shapeKeeping dlx ->
  exists r, runTests dlx dzero dadd clock w = Ok r /\
    length (verdicts r) = 31%nat /\
    (allPassedAll r = true <-> Forall (fun v => v = Passed) (verdicts r)) /\
    grid (windowAfter r) = repeat (repeat [] 16%nat) 16%nat /\
    statusBar (windowAfter r) = statusBar w.
Proof.
  intros Hwf Hshape.
  destruct (runTests_total dlx dzero dadd clock w Hwf Hshape)
    as (r & Hrun & Hlen & Hall & Hgrid & _ & Hbar).
  exists r. split; [exact Hrun|]. split; [exact Hlen|]. split; [|split; assumption].
  rewrite Hall, forallb_forall, List.Forall_forall.
  split; intros H v Hv; specialize (H v Hv); destruct v; try reflexivity; discriminate.
Qed.

Lemma runTests_completes_witness :
  exists r, runTests (constDLX false []) 0 Z.add (fun k => Z.of_nat k) newWindow = Ok r /\
    length (verdicts r) = 31%nat /\
    grid (windowAfter r) = repeat (repeat [] 16%nat) 16%nat.
Proof.
  destruct (runTests_completes (constDLX false []) 0 Z.add (fun k => Z.of_nat k) newWindow)
    as (r & Hrun & Hlen & _ & Hgrid & _).
  - exact wellFormed_newWindow.
  - intros n G _ H. discriminate H.
  - exists r. split; [exact Hrun|]. split; [exact Hlen|exact Hgrid].
Defined.

(** X13: the constructor with a solver that answers with grids of the size
    it was given.  generateGrid(4) succeeds after the self-tests, so the
    critical message is never printed, and the window opens with an empty 4x4
    grid and an empty status bar. *)
Theorem MainWindow_opens_4x4 (dlx : DLX) {double : Type} (dzero : double)
    (dadd : double -> double -> double) (clock : nat -> double) :
  shapeKeeping dlx ->
  exists w', MainWindow_new dlx dzero dadd clock = Ok (true, w') /\
    grid w' = repeat (repeat [] 4%nat) 4%nat /\
    UIGridToStringGrid (grid w') = repeat "."%char 16 /\
    statusBar w' = [].
Proof.
  intros Hshape. unfold MainWindow_new.
  destruct (runTests_total dlx dzero dadd clock newWindow wellFormed_newWindow Hshape)
    as (r & -> & _ & _ & _ & Hwid & Hbar).
  cbn [bind].
  assert (wellFormed (windowAfter r)) as Hwf by (intros Hnil; contradiction).
  destruct (generateGrid_success (windowAfter r) 4 Hwf ltac:(lia)
              ltac:(exists 2; reflexivity)) as (Hok & Hgrid & _ & Hbar4).
  exists (generateGrid (windowAfter r) 4).2. split; [|split; [exact Hgrid|split]].
  - rewrite <- Hok. destruct (generateGrid (windowAfter r) 4). reflexivity.
  - rewrite Hgrid. apply (UIGridToStringGrid_empty 4).
  - rewrite Hbar4, Hbar. reflexivity.
Qed.

Lemma MainWindow_opens_4x4_witness :
  exists w', MainWindow_new (mkDLX (fun _ => true) (fun G => G)) 0 Z.add (fun k => Z.of_nat k)
             = Ok (true, w') /\
    grid w' = repeat (repeat [] 4%nat) 4%nat.
Proof.
  destruct (MainWindow_opens_4x4 (mkDLX (fun _ => true) (fun G => G)) 0 Z.add
              (fun k => Z.of_nat k)) as (w' & Hnew & Hgrid & _).
  - intros n G HG _. exact HG.
  - exists w'. split; [exact Hnew|exact Hgrid].
Defined.

(** ** The widgets and the indices of generateGrid *)

Lemma forLoop_widgets (l : list Widget) (m : nat)
    (body : Z -> UIGrid * list Widget -> UIGrid * list Widget) (s : UIGrid * list Widget) :
  (forall k s, (body k s).2 = s.2 ++ l) ->
  (forLoop m body s).2 = s.2 ++ concat (repeat l m).
Proof.
  intros Hbody. induction m as [|m IH]; cbn [forLoop].
  - simpl. rewrite app_nil_r. reflexivity.
  - rewrite Hbody, IH, <- app_assoc. f_equal.
    change (concat (repeat l (S m))) with (concat (l :: repeat l m)).
    rewrite (repeat_cons m l), concat_app. simpl. rewrite app_nil_r. reflexivity.
Qed.

Lemma concat_repeat_singleton {A} (x : A) (k : nat) :
  concat (repeat [x] k) = repeat x k.
Proof. induction k as [|k IH]; simpl; [reflexivity|]. rewrite IH. reflexivity. Qed.

Lemma concat_repeat_concat {A} (l : list A) (a b : nat) :
  concat (repeat (concat (repeat l a)) b) = concat (repeat l (b * a)).
Proof.
  induction b as [|b IH]; simpl; [reflexivity|].
  rewrite IH, repeat_app, concat_app. reflexivity.
Qed.

Lemma concat_repeat_length {A} (l : list A) (k : nat) :
  length (concat (repeat l k)) = (k * length l)%nat.
Proof.
  induction k as [|k IH]; simpl; [reflexivity|]. rewrite length_app, IH. reflexivity.
Qed.

Lemma generateGrid_regionWidgets (w : MainWindow) (size : Z) :
  validSize size ->
  sudokuGridWidgets (generateGrid w size).2 = regionWidgets (Z.to_nat size).
Proof.
  intros [Hsize Hsq]. unfold generateGrid.
  replace (size <? 4) with false by (symmetry; apply Z.ltb_ge; lia).
  rewrite (proj2 (sqrtHasFraction_false size) Hsq).
  apply sqrtHasFraction_false in Hsq. unfold sqrtHasFraction in Hsq.
  rewrite negb_false_iff, Z.eqb_eq in Hsq.
  assert (2 <= Z.sqrt size) as Hroot.
  { pose proof (Z.sqrt_nonneg size). nia. }
  assert (size / Z.sqrt size = Z.sqrt size) as ->.
  { rewrite <- Hsq at 1. apply Z.div_mul. lia. }
  cbv zeta. cbn [snd sudokuGridWidgets].
  rewrite (forLoop_widgets
             (concat (repeat
                (concat (repeat (concat (repeat [CellWidget] (Z.to_nat (Z.sqrt size))))
                           (Z.to_nat (Z.sqrt size))) ++ [RegionFrame])
                (Z.to_nat (Z.sqrt size))))).
  - rewrite forLoop_rows. cbn [snd].
    assert (match sudokuGridWidgets w with
            | [] => (grid w, [])
            | _ :: _ => ([], [])
            end.2 = ([] : list Widget)) as ->.
    { destruct (sudokuGridWidgets w); reflexivity. }
    cbn [app]. rewrite concat_repeat_concat, concat_repeat_concat, concat_repeat_singleton.
    unfold regionWidgets.
    replace (Z.to_nat size) with (Z.to_nat (Z.sqrt size) * Z.to_nat (Z.sqrt size))%nat by nia.
    reflexivity.
  - intros si s. apply forLoop_widgets. intros sj s'. unfold addFrame. cbn [snd].
    rewrite (forLoop_widgets (concat (repeat [CellWidget] (Z.to_nat (Z.sqrt size))))).
    + rewrite <- app_assoc. reflexivity.
    + intros i s''. apply forLoop_widgets. intros j s3. reflexivity.
Qed.

(** X14: the widgets generateGrid registers.  For an accepted size N the
    list sudokuGridWidgets holds, region by region, the N cells of the region
    followed by its frame: N times N cells and N frames, one cell widget for
    each cell of the grid, whatever widgets the window held before. *)
Theorem generateGrid_widgets (w : MainWindow) (size : Z) :
  wellFormed w -> validSize size ->
  sudokuGridWidgets (generateGrid w size).2 = regionWidgets (Z.to_nat size) /\
  length (sudokuGridWidgets (generateGrid w size).2)
  = (length (concat (grid (generateGrid w size).2)) + Z.to_nat size)%nat.
Proof.
  intros Hwf Hvalid. pose proof (generateGrid_regionWidgets w size Hvalid) as Hwid.
  destruct Hvalid as [Hsize Hsq].
  destruct (generateGrid_success w size Hwf Hsize Hsq) as (_ & Hgrid & _).
  split; [exact Hwid|]. rewrite Hwid, Hgrid. unfold regionWidgets.
  rewrite concat_repeat_length, length_app, !repeat_length.
  rewrite (concat_square_length (Z.to_nat size)) by apply square_repeat.
  simpl length. lia.
Qed.

Lemma generateGrid_widgets_witness :
  sudokuGridWidgets (generateGrid window4 9).2 = regionWidgets 9 /\
  length (sudokuGridWidgets (generateGrid window4 9).2) = 90%nat.
Proof.
  destruct (generateGrid_widgets window4 9 wellFormed_window4 validSize_9) as [H1 H2].
  split; [exact H1|]. rewrite H2. reflexivity.
Defined.

Lemma forLoop_Ok {S : Type} (P : S -> Prop) (n : nat)
    (bodyC : Z -> Result S -> Result S) (body : Z -> S -> S) (s : S) :
  (forall k s, 0 <= k < Z.of_nat n -> P s ->
     bodyC k (Ok s) = Ok (body k s) /\ P (body k s)) ->
  P s ->
  forLoop n bodyC (Ok s) = Ok (forLoop n body s) /\ P (forLoop n body s).
Proof.
  induction n as [|n IH]; intros Hbody Hs; cbn [forLoop].
  - split; [reflexivity|exact Hs].
  - destruct IH as [Hrun HP]; [intros k s' Hk; apply Hbody; lia|exact Hs|].
    rewrite Hrun. apply Hbody; [lia|exact HP].
Qed.

Lemma addCellChecked_Ok (m : nat) (rowIndex : Z) (s : UIGrid * list Widget) :
  0 <= rowIndex < Z.of_nat m -> (m <= length s.1)%nat ->
  addCellChecked rowIndex (Ok s) = Ok (addCell rowIndex s) /\
  (m <= length (addCell rowIndex s).1)%nat.
Proof.
  intros Hi Hlen. unfold addCellChecked, inRange, size. cbn [bind].
  replace ((0 <=? rowIndex) && (rowIndex <? Z.of_nat (length s.1))) with true.
  - split; [reflexivity|]. unfold addCell. cbn [fst]. rewrite length_alter. exact Hlen.
  - symmetry. apply andb_true_iff. rewrite Z.leb_le, Z.ltb_lt. lia.
Qed.

(** X15: the row index of generateGrid.  Every grid[rowIndex] that
    generateGrid evaluates has its index inside the rows appended before:
    with each index checked, generateGrid gives the same result for every
    window and every size. *)
Theorem generateGrid_indices_in_range (w : MainWindow) (size : Z) :
  generateGridChecked w size = Ok (generateGrid w size).
Proof.
  unfold generateGridChecked, generateGrid.
  destruct (size <? 4) eqn:Esize; [reflexivity|]. apply Z.ltb_ge in Esize.
  destruct (sqrtHasFraction size) eqn:Hsq; [reflexivity|].
  unfold sqrtHasFraction in Hsq. rewrite negb_false_iff, Z.eqb_eq in Hsq.
  assert (2 <= Z.sqrt size) as Hroot.
  { pose proof (Z.sqrt_nonneg size). nia. }
  assert (size / Z.sqrt size = Z.sqrt size) as ->.
  { rewrite <- Hsq at 1. apply Z.div_mul. lia. }
  cbv zeta.
  set (rows := forLoop (Z.to_nat size) (fun _ s => (s.1 ++ [[]], s.2)) _).
  set (r := Z.sqrt size) in *.
  assert (Z.to_nat size <= length rows.1)%nat as Hrows.
  { unfold rows. rewrite forLoop_rows. cbn [fst]. rewrite length_app, repeat_length. lia. }
  set (P := fun s : UIGrid * list Widget => (Z.to_nat size <= length s.1)%nat).
  destruct (forLoop_Ok P (Z.to_nat r)
              (fun si =>
                 forLoop (Z.to_nat r) (fun (sj : Z) s =>
                   do s' <- forLoop (Z.to_nat r) (fun i =>
                              forLoop (Z.to_nat r) (fun j : Z =>
                                addCellChecked (i + si * r))) s;
                   Ok (addFrame s')))
              (fun si =>
                 forLoop (Z.to_nat r) (fun (sj : Z) s =>
                   addFrame
                     (forLoop (Z.to_nat r) (fun i =>
                        forLoop (Z.to_nat r) (fun j : Z => addCell (i + si * r))) s)))
              rows) as [Hrun _]; [|exact Hrows|].
  - intros si s Hsi Hs.
    apply (forLoop_Ok P (Z.to_nat r)
             (fun (sj : Z) s =>
                do s' <- forLoop (Z.to_nat r) (fun i =>
                           forLoop (Z.to_nat r) (fun j : Z =>
                             addCellChecked (i + si * r))) s;
                Ok (addFrame s'))
             (fun (sj : Z) s =>
                addFrame
                  (forLoop (Z.to_nat r) (fun i =>
                     forLoop (Z.to_nat r) (fun j : Z => addCell (i + si * r))) s)));
      [|exact Hs].
    intros sj s1 Hsj Hs1.
    destruct (forLoop_Ok P (Z.to_nat r)
                (fun i => forLoop (Z.to_nat r) (fun j : Z => addCellChecked (i + si * r)))
                (fun i => forLoop (Z.to_nat r) (fun j : Z => addCell (i + si * r)))
                s1) as [Hcells Hlen]; [|exact Hs1|].
    + intros i s2 Hi Hs2.
      apply (forLoop_Ok P (Z.to_nat r)
               (fun j : Z => addCellChecked (i + si * r))
               (fun j : Z => addCell (i + si * r))); [|exact Hs2].
      intros j s3 Hj Hs3. apply addCellChecked_Ok; [nia|exact Hs3].
    + rewrite Hcells. cbn [bind]. split; [reflexivity|exact Hlen].
  - rewrite Hrun. reflexivity.
Qed.

(** ** The size of a cell *)

(** X16: the cell size of generateGrid.  For every accepted size the
    division that scales the cell size has a non-zero divisor; the size is 108
    for a 4x4 grid, 54 for 9x9, at most 27 above, and it is 0, an invisible
    cell, exactly from 12100x12100 on. *)
Theorem cellSize_defined (size : Z) :
  validSize size ->
  exists s, cellSize size = Some s /\ 0 <= s <= 108 /\
    (size = 4 -> s = 108) /\ (size = 9 -> s = 54) /\ (9 < size -> s <= 27) /\
    (s = 0 <-> 12100 <= size).
Proof.
  intros Hvalid. pose proof (validSize_sqrt size Hvalid) as Hsq.
  destruct Hvalid as [Hsize _]. pose proof (Z.sqrt_nonneg size) as Hnn.
  unfold cellSize. cbv zeta.
  destruct (size <? 9) eqn:Elow.
  - apply Z.ltb_lt in Elow. assert (Z.sqrt size = 2) as Hr by nia.
    rewrite Hr. exists 108. split; [reflexivity|]. assert (size = 4) by nia. lia.
  - apply Z.ltb_ge in Elow. destruct (size >? 9) eqn:Ehigh.
    + rewrite Z.gtb_ltb in Ehigh. apply Z.ltb_lt in Ehigh.
      assert (4 <= Z.sqrt size) as Hr by nia.
      assert (2 <= Z.sqrt size / 2) as Hd by (apply Z.div_le_lower_bound; lia).
      replace (Z.sqrt size / 2 =? 0) with false by (symmetry; apply Z.eqb_neq; lia).
      eexists. split; [reflexivity|].
      change (9 * 3 * 2) with 54. rewrite Z.quot_div_nonneg by lia.
      assert (0 <= 54 / (Z.sqrt size / 2) <= 27) as Hq.
      { split; [apply Z.div_pos; lia|].
        apply Z.div_le_upper_bound; lia. }
      split; [lia|]. split; [lia|]. split; [lia|]. split; [lia|].
      split.
      * intros Hzero. apply Z.div_small_iff in Hzero; [|lia].
        assert (110 <= Z.sqrt size) as Hbig.
        { destruct (Z.le_gt_cases 110 (Z.sqrt size)) as [H|H]; [exact H|].
          assert (Z.sqrt size / 2 <= 54) by (apply Z.div_le_upper_bound; lia). lia. }
        nia.
      * intros Hbig. assert (110 <= Z.sqrt size) as Hr' by nia.
        assert (55 <= Z.sqrt size / 2) by (apply Z.div_le_lower_bound; lia).
        apply Z.div_small. lia.
    + rewrite Z.gtb_ltb in Ehigh. apply Z.ltb_ge in Ehigh.
      exists 54. split; [reflexivity|]. lia.
Qed.

Lemma cellSize_defined_witness :
  cellSize 16 = Some 27 /\ exists s, cellSize 12100 = Some s /\ s = 0.
Proof.
  split; [reflexivity|].
  destruct (cellSize_defined 12100) as (s & Hs & _ & _ & _ & _ & Hzero).
  - split; [lia|exists 110; reflexivity].
  - exists s. split; [exact Hs|]. apply Hzero. lia.
Defined.

(** ** Import, seen from the exported string *)


